(** * A shallow embedding of the word-game bot (bot.py)

    The file follows the layout of the Python module: the word corpus that
    is loaded at import time, the [GameManager] registry with its snapshot
    files, the Wordle game and its cog, the Spelling-Bee game and its cog
    with the hourly deadline sweep, the [remove] command, the bump
    reminders and the soft-sign quiz.  Python [str] values are sequences of
    Unicode code points, Python [int] values are [Z], dictionaries are
    [gmap]s, and raised exceptions are explicit results.  Random draws and
    clock readings are arguments of the functions that use them.  The
    handlers of the cogs run one at a time on the state of their cog.

    The second part proves the properties of the two puzzles, of the
    snapshots, of the Restarting guard and of the deadline sweep, and then
    further properties of the corpus, of the games, of the cogs' handlers
    and of the reminders and the quiz. *)

From Stdlib Require Import ZArith Ascii String.
From stdpp Require Import gmap strings list fin_maps sorting pretty.

Local Open Scope Z_scope.
#[local] Set Warnings "-clear-no-such-hyp".

(** ** Python strings *)

(** A [str] is a sequence of code points; [len], indexing and [count] work
    on code points, so a Cyrillic word of five letters has length five. *)
Abbreviation letter := N (only parsing).
Abbreviation pystr := (list N) (only parsing).

(** String literals of the source are written as UTF-8 literals and decoded
    to code points. *)
Fixpoint utf8_decode (pending : nat) (acc : N) (bs : list N) : pystr :=
  match bs with
  | [] => []
  | b :: bs' =>
      match pending with
      | O =>
          if (b <? 128)%N then b :: utf8_decode 0 0%N bs'
          else if (b <? 224)%N then utf8_decode 1 (b - 192)%N bs'
          else if (b <? 240)%N then utf8_decode 2 (b - 224)%N bs'
          else utf8_decode 3 (b - 240)%N bs'
      | S O => (acc * 64 + (b - 128))%N :: utf8_decode 0 0%N bs'
      | S p => utf8_decode p (acc * 64 + (b - 128))%N bs'
      end
  end.

Definition u (s : string) : pystr :=
  utf8_decode 0 0%N (N_of_ascii <$> list_ascii_of_string s).

(** [s.count(c)] for a one-character [c]. *)
Definition count (c : letter) (s : pystr) : Z :=
  Z.of_nat (length (filter (λ x, x = c) s)).

(** ** Exceptions *)

Inductive exn := IndexError | KeyError | ValueError | TypeError | AttributeError.

Inductive res (A : Type) : Type :=
  | Ok (a : A)
  | Raise (e : exn).
Arguments Ok {A} a.
Arguments Raise {A} e.

Global Instance res_ret : MRet res := λ A a, Ok a.
Global Instance res_bind : MBind res := λ A B f m,
  match m with Ok a => f a | Raise e => Raise e end.

Global Instance res_fmap : FMap res := λ A B f m,
  match m with Ok a => Ok (f a) | Raise e => Raise e end.

(** [l[i]] and [l[i] = x] on a Python list or string: out of range raises. *)
Definition getitem {A} (l : list A) (i : nat) : res A :=
  match l !! i with Some x => Ok x | None => Raise IndexError end.

Definition setitem {A} (l : list A) (i : nat) (x : A) : res (list A) :=
  if decide (i < length l)%nat then Ok (<[i:=x]> l) else Raise IndexError.

(** [for i, x in enumerate(l): s = body(s, i, x)], numbering from [i]. *)
Fixpoint for_enumerate {A St} (body : St → nat → A → res St)
    (i : nat) (l : list A) (s : St) : res St :=
  match l with
  | [] => Ok s
  | x :: l' => s' ← body s i x; for_enumerate body (S i) l' s'
  end.

(** [random.choice(seq)] with the drawn number [r] made explicit: an empty
    sequence raises [IndexError]. *)
Definition random_choice {A} (r : nat) (l : list A) : res A :=
  getitem l (r mod length l)%nat.

(** ** The word corpus (module level) *)

Definition ALPHABET : pystr :=
  Eval vm_compute in u "абвгдеёжзийклмнопрстуфхцчшщъыьэюя".

(** [ALPHABET.index(c)]: raises [ValueError] for a foreign character. *)
Fixpoint str_index (c : letter) (s : pystr) : res nat :=
  match s with
  | [] => Raise ValueError
  | x :: s' => if decide (x = c) then Ok O else S <$> str_index c s'
  end.

(** The sort key [lambda s: [ALPHABET.index(c) for c in s]]. *)
Fixpoint collation_key (s : pystr) : res (list nat) :=
  match s with
  | [] => Ok []
  | c :: s' => i ← str_index c ALPHABET; k ← collation_key s'; Ok (i :: k)
  end.

(** Python compares lists lexicographically. *)
Fixpoint key_le (k1 k2 : list nat) : bool :=
  match k1, k2 with
  | [], _ => true
  | _ :: _, [] => false
  | a :: k1', b :: k2' =>
      if (a <? b)%nat then true
      else if (b <? a)%nat then false
      else key_le k1' k2'
  end.

Definition keyed_le (x y : list nat * pystr) : Prop := key_le x.1 y.1 = true.

Global Instance keyed_le_dec : RelDecision keyed_le.
Proof. intros x y. unfold keyed_le. apply _. Defined.

(** The keys are computed first (a foreign character aborts the sort), then
    the list is sorted on them. *)
Fixpoint decorate (l : list pystr) : res (list (list nat * pystr)) :=
  match l with
  | [] => Ok []
  | w :: l' => k ← collation_key w; d ← decorate l'; Ok ((k, w) :: d)
  end.

Definition sort_by_alphabet (l : list pystr) : res (list pystr) :=
  d ← decorate l; Ok ((merge_sort keyed_le d).*2).

(** [list(dict.fromkeys(l))]: the first occurrence of every word, in order. *)
Fixpoint dict_fromkeys_list (l : list pystr) : list pystr :=
  match l with
  | [] => []
  | w :: l' => w :: filter (λ x, x ≠ w) (dict_fromkeys_list l')
  end.

(** [l.remove(x)] inside [try ... except ValueError: pass]. *)
Fixpoint remove_first {A} `{EqDecision A} (x : A) (l : list A) : list A :=
  match l with
  | [] => []
  | y :: l' => if decide (y = x) then l' else y :: remove_first x l'
  end.

Record Corpus := {
  common_words : list pystr;
  all_words : list pystr;
  common_words_by_length : list (list pystr)
}.

(** The module-level loading code, from the lines of the three word files. *)
Definition load_corpus (twentythousandwords wiktionary_ru removed_words : list pystr)
    : res Corpus :=
  common0 ← sort_by_alphabet twentythousandwords;
  all ← sort_by_alphabet (dict_fromkeys_list (wiktionary_ru ++ common0));
  let common := foldl (λ cw r, remove_first r cw) common0 removed_words in
  Ok {| common_words := common;
        all_words := all;
        common_words_by_length :=
          (λ i, filter (λ w, length w = i) common) <$> seq 0 24 |}.

(** ** GameState

    An [IntEnum]: its members are integers, compare equal to them, and are
    written to a snapshot as integers. *)
Definition CONTINUE : Z := 0.
Definition FINISHED : Z := 1.
Definition RESTARTING : Z := 2.

(** ** Wordle *)

Inductive color := COLOR_ABSENT | COLOR_PRESENT | COLOR_CORRECT.

Global Instance color_eq_dec : EqDecision color.
Proof. solve_decision. Defined.

(** [draw_word(word, colors)] is a pure rendering of its two arguments; the
    picture is represented by them. *)
Record image := { img_word : pystr; img_colors : list color }.

Module WordleGame.

Record t := {
  state : Z;
  guesses : Z;
  solution : pystr
}.

(** [{letter: solution.count(letter) for letter in solution}] *)
Definition tally_init (solution : pystr) : gmap N Z :=
  foldl (λ tally c, <[c := count c solution]> tally) ∅ solution.

(** [tally[letter] -= 1] *)
Definition tally_decr (tally : gmap N Z) (c : letter) : res (gmap N Z) :=
  match tally !! c with
  | Some n => Ok (<[c := n - 1]> tally)
  | None => Raise KeyError
  end.

(** Body of the first loop: exact position matches. *)
Definition pass1_body (solution : pystr) (st : list color * gmap N Z)
    (i : nat) (c : letter) : res (list color * gmap N Z) :=
  s_i ← getitem solution i;
  if decide (c = s_i) then
    colors ← setitem st.1 i COLOR_CORRECT;
    tally ← tally_decr st.2 c;
    Ok (colors, tally)
  else Ok st.

(** Body of the second loop: presence credit from what the tally has left. *)
Definition pass2_body (solution : pystr) (st : list color * gmap N Z)
    (i : nat) (c : letter) : res (list color * gmap N Z) :=
  match st.2 !! c with
  | None => Ok st
  | Some n =>
      if decide (0 < n) then
        s_i ← getitem solution i;
        if decide (c ≠ s_i) then
          colors ← setitem st.1 i COLOR_PRESENT;
          tally ← tally_decr st.2 c;
          Ok (colors, tally)
        else Ok st
      else Ok st
  end.

Definition pass1 (solution guess : pystr) : res (list color * gmap N Z) :=
  for_enumerate (pass1_body solution) 0 guess
    (replicate (length solution) COLOR_ABSENT, tally_init solution).

Definition pass2 (solution guess : pystr) (st : list color * gmap N Z)
    : res (list color * gmap N Z) :=
  for_enumerate (pass2_body solution) 0 guess st.

Definition classify (solution guess : pystr) : res (list color) :=
  st1 ← pass1 solution guess;
  st2 ← pass2 solution guess st1;
  Ok st2.1.

(** What [guess] returns: the reaction, the message and the picture. *)
Record reply := {
  emoji : option pystr;
  msg : option pystr;
  file_obj : option image
}.

Definition praise1 : list pystr :=
  [u "Wow! "; u "Good job! "; u "Congratulations! "; u "Amazing! "].
Definition praise2 : list pystr :=
  [u "You got it! "; u "That's it! "; u "That's the word I was thinking of! "].
Definition smileys : list pystr := [u "😊"; u "🤗"; u "😃"].

(** [guess(self, guess)]; [r1 r2 r3] are the three random draws of the
    winning message.  The comparisons with [len * 0.75] and [len * 2.0]
    are written on integers ([4 * guesses <= 3 * len]). *)
Definition guess (cp : Corpus) (self : t) (guess : pystr) (r1 r2 r3 : nat)
    : res (reply * t) :=
  if decide (length guess ≠ length (solution self)) then
    Ok ({| emoji := Some (u "🔢"); msg := None; file_obj := None |}, self)
  else if decide (guess ∉ all_words cp) then
    Ok ({| emoji := Some (u "❓"); msg := None; file_obj := None |}, self)
  else
    colors ← classify (solution self) guess;
    let file := {| img_word := guess; img_colors := colors |} in
    let self1 := {| state := state self; guesses := guesses self + 1;
                    solution := solution self |} in
    if decide (guess ≠ solution self) then
      Ok ({| emoji := None; msg := None; file_obj := Some file |}, self1)
    else
      let len := Z.of_nat (length (solution self)) in
      let em :=
        if decide (4 * guesses self1 ≤ 3 * len) then Some (u "😲")
        else if decide (guesses self1 ≤ 2 * len) then Some (u "🍬")
        else None in
      m1 ← random_choice r1 praise1;
      m2 ← random_choice r2 praise2;
      m3 ← random_choice r3 smileys;
      let text := m1 ++ m2 ++ m3
        ++ [10%N] ++ u "https://en.wiktionary.org/wiki/" ++ solution self
        ++ [10%N] ++ u "https://ru.wiktionary.org/wiki/" ++ solution self in
      Ok ({| emoji := em; msg := Some text; file_obj := Some file |},
          {| state := FINISHED; guesses := guesses self1;
             solution := solution self |}).

End WordleGame.

(** ** Snapshots

    [json.dump] followed by [json.load] is taken as the identity on JSON
    values built from objects with string keys, integers, strings and
    [null]; a snapshot is such a value. *)
#[local] Set Warnings "-register-all".
Inductive json :=
  | JNull
  | JInt (z : Z)
  | JStr (s : pystr)
  | JList (l : list json)
  | JObj (fields : list (pystr * json)).

(** [d[key]] on a loaded object. *)
Fixpoint field (key : pystr) (fields : list (pystr * json)) : option json :=
  match fields with
  | [] => None
  | (k, v) :: rest => if decide (k = key) then Some v else field key rest
  end.

(** An attribution: [None] or a contributor id. *)
Definition attribution_to_json (a : option Z) : json :=
  match a with None => JNull | Some z => JInt z end.

Definition attribution_of_json (j : json) : option (option Z) :=
  match j with JNull => Some None | JInt z => Some (Some z) | _ => None end.

Fixpoint attributions_of_json (kvs : list (pystr * json))
    : option (list (pystr * option Z)) :=
  match kvs with
  | [] => Some []
  | (k, v) :: rest =>
      a ← attribution_of_json v;
      r ← attributions_of_json rest;
      Some ((k, a) :: r)
  end.

Module WordleSnapshot.
Import WordleGame.

(** [game.__dict__], in the order the constructor assigns the fields. *)
Definition to_dict (g : t) : json :=
  JObj [(u "state", JInt (state g));
        (u "guesses", JInt (guesses g));
        (u "solution", JStr (solution g))].

(** The game whose [__dict__] is the loaded object: every attribute the
    methods read must be there. *)
Definition of_dict (j : json) : option t :=
  match j with
  | JObj fs =>
      match field (u "state") fs, field (u "guesses") fs, field (u "solution") fs with
      | Some (JInt s), Some (JInt n), Some (JStr w) =>
          Some {| state := s; guesses := n; solution := w |}
      | _, _, _ => None
      end
  | _ => None
  end.
End WordleSnapshot.

(** ** Fresh Wordle games *)

Definition LENGTH_WEIGHTS : list nat := [0; 0; 0; 0; 3; 10; 5; 4; 3]%nat.

Fixpoint accumulate (acc : nat) (ws : list nat) : list nat :=
  match ws with
  | [] => []
  | w :: ws' => (acc + w)%nat :: accumulate (acc + w) ws'
  end.

(** [random.choices(range(len(weights)), weights=weights)]: [x] is the drawn
    point on the cumulative scale, [bisect] finds its bucket. *)
Definition random_choices (x : nat) (weights : list nat) : nat :=
  let cum := accumulate 0 weights in
  length (filter (λ c, (c ≤ x mod list_sum weights)%nat) cum).

(** The [while not self.solution] loop; every round uses one pair of draws,
    and the list running out stands for a loop that has not ended yet. *)
Fixpoint pick_solution (cp : Corpus) (draws : list (nat * nat)) : option pystr :=
  match draws with
  | [] => None
  | (x, r) :: rest =>
      let length := random_choices x LENGTH_WEIGHTS in
      match bucket ← getitem (common_words_by_length cp) length; random_choice r bucket with
      | Ok (c :: w) => Some (c :: w)
      | _ => pick_solution cp rest
      end
  end.

(** ** Spelling Bee *)

Definition MIN_LENGTH : nat := 3.
Definition MAX_LENGTH : nat := 7.

(** A guild member as the scoring reads it. *)
Record Member := { display_name : pystr; roles : list pystr }.

(** [guild.get_member] *)
Abbreviation Guild := (Z → option Member) (only parsing).

Record Team := { name : pystr; score : Z; members : list pystr }.

(** Truth value of an attribution: [None] and [0] are false. *)
Definition truthy (a : option Z) : Prop :=
  match a with Some z => z ≠ 0 | None => False end.

Global Instance truthy_dec a : Decision (truthy a).
Proof. destruct a; apply _. Defined.

Module SpellingGame.

Record t := {
  state : Z;
  deadline : Z;
  root_word : pystr;
  words : gmap (list N) (option Z);
  other_words : gmap (list N) (option Z)
}.

(** [datetime.now().replace(microsecond=0, second=0, minute=0)
    + timedelta(hours=24)], as a timestamp.  The system clock [now_us] is
    in microseconds since the epoch; local time is [utc_offset] seconds
    ahead of UTC, a fixed offset. *)
Definition new_deadline (utc_offset now_us : Z) : Z :=
  let local_seconds := now_us `div` 1000000 + utc_offset in
  let top_of_hour := (local_seconds `div` 3600) * 3600 in
  (top_of_hour + 24 * 3600) - utc_offset.

(** [all(letter in letters for letter in word)] *)
Definition letters_known (letters word : pystr) : Prop :=
  Forall (λ l, l ∈ letters) word.

(** [any(letters.count(letter) < list(word).count(letter) for letter in letters)] *)
Definition letter_overused (letters word : pystr) : Prop :=
  Exists (λ l, count l letters < count l word) letters.

(** Body of the loop over [all_words]; the state is the two lists. *)
Definition sort_word (cp : Corpus) (letters : pystr)
    (acc : list pystr * list pystr) (word : pystr) : list pystr * list pystr :=
  if decide (¬ (MIN_LENGTH ≤ length word ≤ MAX_LENGTH)%nat) then acc
  else if decide (letters_known letters word) then
    if decide (letter_overused letters word) then acc
    else if decide (word ∈ common_words cp) then (acc.1 ++ [word], acc.2)
    else (acc.1, acc.2 ++ [word])
  else acc.

(** [dict.fromkeys(l)] *)
Definition dict_fromkeys (l : list pystr) : gmap (list N) (option Z) :=
  list_to_map ((λ w, (w, None)) <$> l).

(** [SpellingGame()]: [now_us] is the clock reading and [r] the draw of
    [random.choice]. *)
Definition fresh (cp : Corpus) (utc_offset now_us : Z) (r : nat) : res t :=
  bucket ← getitem (common_words_by_length cp) 10;
  root ← random_choice r bucket;
  let lists := foldl (sort_word cp root) ([], []) (all_words cp) in
  Ok {| state := CONTINUE;
        deadline := new_deadline utc_offset now_us;
        root_word := root;
        words := dict_fromkeys lists.1;
        other_words := dict_fromkeys lists.2 |}.

Definition to_dict (g : t) : json :=
  JObj [(u "state", JInt (state g));
        (u "deadline", JInt (deadline g));
        (u "root_word", JStr (root_word g));
        (u "words", JObj (map_to_list (attribution_to_json <$> words g)));
        (u "other_words",
           JObj (map_to_list (attribution_to_json <$> other_words g)))].

Definition of_dict (j : json) : option t :=
  match j with
  | JObj fs =>
      match field (u "state") fs, field (u "deadline") fs,
            field (u "root_word") fs, field (u "words") fs,
            field (u "other_words") fs with
      | Some (JInt s), Some (JInt d), Some (JStr r), Some (JObj ws), Some (JObj os) =>
          ws' ← attributions_of_json ws;
          os' ← attributions_of_json os;
          Some {| state := s; deadline := d; root_word := r;
                  words := list_to_map ws'; other_words := list_to_map os' |}
      | _, _, _, _, _ => None
      end
  | _ => None
  end.

Definition set_state (g : t) (s : Z) : t :=
  {| state := s; deadline := deadline g; root_word := root_word g;
     words := words g; other_words := other_words g |}.

Definition set_words (g : t) (ws : gmap (list N) (option Z)) : t :=
  {| state := state g; deadline := deadline g; root_word := root_word g;
     words := ws; other_words := other_words g |}.

Definition set_other_words (g : t) (ws : gmap (list N) (option Z)) : t :=
  {| state := state g; deadline := deadline g; root_word := root_word g;
     words := words g; other_words := ws |}.

(** [all(self.words.values())] *)
Definition all_values (ws : gmap (list N) (option Z)) : Prop :=
  map_Forall (λ _ a, truthy a) ws.

(** [guess(self, guess, author)]; [author] is [author.id]. *)
Definition guess (cp : Corpus) (self : t) (guess : pystr) (author : Z) : pystr * t :=
  match words self !! guess with
  | Some (Some _) => (u "🔁", self)
  | Some None =>
      let self1 := set_words self (<[guess := Some author]> (words self)) in
      if decide (all_values (words self1))
      then (u "✅", set_state self1 FINISHED)
      else (u "✅", self1)
  | None =>
      match other_words self !! guess with
      | Some (Some _) => (u "🔁", self)
      | Some None =>
          (u "📚", set_other_words self (<[guess := Some author]> (other_words self)))
      | None =>
          if decide (guess ∈ all_words cp) then (u "❎", self) else (u "❓", self)
      end
  end.

Definition NATIVE_NAMES : list pystr :=
  [u "Сладкая Пилюля"; u "ЯЖПОГРОМИСТ"; u "Fish-Teacher";
   u "Trogdor the destroyer"; u "He🇧🇧🇧🇧🇧🇧🇧"; u "Ксения"].
Definition LEARNER_NAMES : list pystr :=
  [u "Kwinten"; u "Liisa"; u "Leeto"; u "Zalamلظلام"; u "ХАРА́М"].

(** The running totals of the scoring loop. *)
Record totals := {
  learners_score : Z;
  learners : gset (list N);
  natives_score : Z;
  natives : gset (list N)
}.

Definition add_native (who : pystr) (s : totals) : totals :=
  {| learners_score := learners_score s; learners := learners s;
     natives_score := natives_score s + 1; natives := {[who]} ∪ natives s |}.

Definition add_learner (who : pystr) (s : totals) : totals :=
  {| learners_score := learners_score s + 1; learners := {[who]} ∪ learners s;
     natives_score := natives_score s; natives := natives s |}.

(** Body of [for user_id in words.values()]. *)
Definition score_one (guild : Guild) (s : totals) (user_id : option Z) : res totals :=
  match user_id with
  | None => Ok s
  | Some id =>
      if decide (id = 0) then Ok s
      else if decide (1 ≤ id < 20) then
        who ← getitem NATIVE_NAMES (Z.to_nat (id - 1));
        Ok (add_native who s)
      else if decide (101 ≤ id < 120) then
        who ← getitem LEARNER_NAMES (Z.to_nat (id - 101));
        Ok (add_learner who s)
      else
        match guild id with
        | None => Ok s
        | Some member =>
            if decide (Exists (λ role, role = u "Native") (roles member))
            then Ok (add_native (display_name member) s)
            else Ok (add_learner (display_name member) s)
        end
  end.

Fixpoint score_all (guild : Guild) (s : totals) (ids : list (option Z)) : res totals :=
  match ids with
  | [] => Ok s
  | id :: rest => s' ← score_one guild s id; score_all guild s' rest
  end.

(** [winners_and_losers(self, guild)]; the pair [(None, None)] is [None]. *)
Definition winners_and_losers (self : t) (guild : Guild) : res (option (Team * Team)) :=
  let all := other_words self ∪ words self in
  s ← score_all guild
        {| learners_score := 0; learners := ∅; natives_score := 0; natives := ∅ |}
        ((map_to_list all).*2);
  if decide (natives_score s = 0 ∧ learners_score s = 0) then Ok None
  else
    let natives_team :=
      {| name := u "natives"; score := natives_score s;
         members := elements (natives s) |} in
    let learners_team :=
      {| name := u "learners"; score := learners_score s;
         members := elements (learners s) |} in
    if decide (learners_score s >= natives_score s)%Z
    then Ok (Some (learners_team, natives_team))
    else Ok (Some (natives_team, learners_team)).

(** The [shuffle] command's loop: for every solution word a draw says
    whether it is overwritten and with which id
    ([1 + randrange(5) + choice([0, 100])]). *)
Definition shuffle (draw : pystr → option Z) (self : t) : t :=
  set_words self
    (map_imap (λ w a, Some (match draw w with Some id => Some id | None => a end))
              (words self)).

End SpellingGame.

(** ** Handlers

    A handler runs on the state of a cog and either returns, raises, or is
    still looping when the supplied random draws run out. *)
Inductive outcome (A : Type) : Type :=
  | Returned (a : A)
  | Raised (e : exn)
  | Pending.
Arguments Returned {A} a.
Arguments Raised {A} e.
Arguments Pending {A}.

Definition outcome_of_res {A} (r : res A) : outcome A :=
  match r with Ok a => Returned a | Raise e => Raised e end.

(** Truth value of a loaded JSON value ([if resume:]). *)
Definition json_truthy (j : json) : bool :=
  match j with
  | JNull | JInt 0 | JStr [] | JList [] | JObj [] => false
  | _ => true
  end.

(** [WordleGame(resume)]: a true [resume] becomes the object's [__dict__]
    (only a dict can; an object short of an attribute fails where the
    attribute is first read, which the model reports here); otherwise a
    fresh game is drawn. *)
Definition WordleGame_init (cp : Corpus) (resume : option json)
    (draws : list (nat * nat)) : outcome WordleGame.t :=
  match resume with
  | Some j =>
      if json_truthy j then
        match j with
        | JObj _ =>
            match WordleSnapshot.of_dict j with
            | Some g => Returned g
            | None => Raised AttributeError
            end
        | _ => Raised TypeError
        end
      else
        match pick_solution cp draws with
        | Some w => Returned {| WordleGame.state := CONTINUE; WordleGame.guesses := 0;
                                WordleGame.solution := w |}
        | None => Pending
        end
  | None =>
      match pick_solution cp draws with
      | Some w => Returned {| WordleGame.state := CONTINUE; WordleGame.guesses := 0;
                              WordleGame.solution := w |}
      | None => Pending
      end
  end.

(** [SpellingGame(resume)] *)
Definition SpellingGame_init (cp : Corpus) (utc_offset : Z) (resume : option json)
    (now_us : Z) (r : nat) : outcome SpellingGame.t :=
  match resume with
  | Some j =>
      if json_truthy j then
        match j with
        | JObj _ =>
            match SpellingGame.of_dict j with
            | Some g => Returned g
            | None => Raised AttributeError
            end
        | _ => Raised TypeError
        end
      else outcome_of_res (SpellingGame.fresh cp utc_offset now_us r)
  | None => outcome_of_res (SpellingGame.fresh cp utc_offset now_us r)
  end.

(** A snapshot file holds JSON text or something [json.load] rejects. *)
Inductive file := Malformed | Json (j : json).

(** What the cogs send; texts are represented by the data they interpolate. *)
Inductive message :=
  | GuessFeedback (msg : option pystr) (picture : image)
  | GuessText (msg : pystr)
  | Conceded (solution : pystr)
  | WordlePicked (len : nat)
  | GameOver (result : option (Team * Team))
  | SpellingStarted (root : pystr) (deadline : Z) (nwords : nat).

Inductive outgoing :=
  | Reaction (channel : Z) (emoji : pystr)
  | Message (channel : Z) (m : message)
  | Typing (channel : Z).

(** The channel an emitted event belongs to. *)
Definition outgoing_channel (o : outgoing) : Z :=
  match o with Reaction c _ | Message c _ | Typing c => c end.

(** An incoming chat message as the listeners read it. *)
Record Incoming := {
  in_channel : Z;
  in_author : Z;
  in_from_bot : bool;
  in_is_command : bool;
  in_content : pystr
}.

(** The state a cog works on: its [GameManager], the files
    [{channel_id}.json] and [{channel_id}-previousgame.json], and what it
    has emitted so far. *)
Record World (G : Type) := {
  channels : list Z;
  games : gmap Z (option G);
  files : gmap Z file;
  previousgame : gmap Z file;
  sent : list outgoing
}.
Arguments channels {G} w.
Arguments games {G} w.
Arguments files {G} w.
Arguments previousgame {G} w.
Arguments sent {G} w.

Abbreviation cmd G A := (World G → outcome A * World G) (only parsing).

Definition cmd_bind {G A B} (c : cmd G A) (k : A → cmd G B) : cmd G B :=
  λ w, match c w with
       | (Returned a, w') => k a w'
       | (Raised e, w') => (Raised e, w')
       | (Pending, w') => (Pending, w')
       end.

Definition skip {G} : cmd G () := λ w, (Returned (), w).

Notation "c1 ;;; c2" := (cmd_bind c1 (λ _, c2))
  (at level 100, c2 at level 200, right associativity).

Module GameManager.
Section manager.
Context {G : Type} (to_dict : G → json).

Definition with_channels (w : World G) (cs : list Z) : World G :=
  {| channels := cs; games := games w; files := files w;
     previousgame := previousgame w; sent := sent w |}.
Definition with_games (w : World G) (gs : gmap Z (option G)) : World G :=
  {| channels := channels w; games := gs; files := files w;
     previousgame := previousgame w; sent := sent w |}.
Definition with_files (w : World G) (fs : gmap Z file) : World G :=
  {| channels := channels w; games := games w; files := fs;
     previousgame := previousgame w; sent := sent w |}.
Definition with_previousgame (w : World G) (fs : gmap Z file) : World G :=
  {| channels := channels w; games := games w; files := files w;
     previousgame := fs; sent := sent w |}.

(** Emitting to the chat platform. *)
Definition emit (o : outgoing) : cmd G () := λ w,
  (Returned (),
   {| channels := channels w; games := games w; files := files w;
      previousgame := previousgame w; sent := sent w ++ [o] |}).

(** [get_game]: [None] for an unknown channel and for a channel
    without a game. *)
Definition get_game (w : World G) (channel_id : Z) : option G :=
  match games w !! channel_id with Some (Some g) => Some g | _ => None end.

(** [update_game]: overwrite [{channel_id}.json] with [game.__dict__]. *)
Definition update_game (channel_id : Z) (game : G) : cmd G () := λ w,
  (Returned (), with_files w (<[channel_id := Json (to_dict game)]> (files w))).

(** The game object is shared with [self.games]: assigning to one of its
    attributes is seen through the table. *)
Definition mutate (channel_id : Z) (game : G) : cmd G () := λ w,
  (Returned (), with_games w (<[channel_id := Some game]> (games w))).

(** [add_game] *)
Definition add_game (channel_id : Z) (game : G) : cmd G () :=
  mutate channel_id game ;;; update_game channel_id game.

(** [add_channel]: register the channel and load its snapshot with
    [game_type(resume)]. *)
Definition add_channel (game_type : json → outcome G) (channel_id : Z)
    : cmd G () := λ w,
  let w1 := with_channels w (channels w ++ [channel_id]) in
  match files w !! channel_id with
  | None => (Returned (), with_games w1 (<[channel_id := None]> (games w1)))
  | Some Malformed =>
      (Returned (),
       with_games (with_files w1 (delete channel_id (files w1)))
                  (<[channel_id := None]> (games w1)))
  | Some (Json resume) =>
      match game_type resume with
      | Returned g =>
          (Returned (), with_games w1 (<[channel_id := Some g]> (games w1)))
      | Raised e => (Raised e, w1)
      | Pending => (Pending, w1)
      end
  end.

(** [remove_channel] *)
Definition remove_channel (channel_id : Z) : cmd G () := λ w,
  let w1 :=
    if decide (channel_id ∈ channels w)
    then with_games (with_channels w (remove_first channel_id (channels w)))
                    (delete channel_id (games w))
    else w in
  (Returned (), with_files w1 (delete channel_id (files w1))).
End manager.
End GameManager.

(** A channel of a guild as the cogs read it: [channel.id] and
    [channel.name]. *)
Record GuildChannel := { chan_id : Z; chan_name : pystr }.

(** [discord.utils.get(guild.channels, name=name)]: the first channel of
    that name, or [None]. *)
Fixpoint utils_get (name : pystr) (guild_channels : list GuildChannel)
    : option GuildChannel :=
  match guild_channels with
  | [] => None
  | channel :: rest =>
      if decide (chan_name channel = name) then Some channel
      else utils_get name rest
  end.



(** [NOT_CYRILLIC_RE.search(guess)] *)
Definition not_cyrillic (guess : pystr) : Prop :=
  Exists (λ c, c ∉ ALPHABET) guess.

(** [str.split], [str.strip] and [str.lower] are taken from the runtime. *)
Record StrOps := {
  str_split : pystr → list pystr;
  str_strip : pystr → pystr;
  str_lower : pystr → pystr
}.

Module Wordle.
Import GameManager.
Section cog.
Context (cp : Corpus) (ops : StrOps).

Definition set_state (g : WordleGame.t) (s : Z) : WordleGame.t :=
  {| WordleGame.state := s; WordleGame.guesses := WordleGame.guesses g;
     WordleGame.solution := WordleGame.solution g |}.

Abbreviation update := (update_game WordleSnapshot.to_dict) (only parsing).

Definition start_game (draws : list (nat * nat)) (channel_id : Z)
    : cmd WordleGame.t () := λ w,
  if decide (channel_id ∉ channels w) then skip w
  else
    match WordleGame_init cp None draws with
    | Returned game =>
        (add_game WordleSnapshot.to_dict channel_id game ;;;
         emit (Message channel_id
                 (WordlePicked (length (WordleGame.solution game))))) w
    | Raised e => (Raised e, w)
    | Pending => (Pending, w)
    end.

Definition stop_game (draws : list (nat * nat)) (channel_id : Z)
    : cmd WordleGame.t () := λ w,
  match get_game w channel_id with
  | None => skip w
  | Some game =>
      if decide (WordleGame.state game = RESTARTING) then skip w
      else
        let game := set_state game RESTARTING in
        (mutate channel_id game ;;;
         update channel_id game ;;;
         emit (Typing channel_id) ;;;
         start_game draws channel_id) w
  end.

Definition stopW (draws : list (nat * nat)) (channel_id : Z)
    : cmd WordleGame.t () := λ w,
  match get_game w channel_id with
  | None => skip w
  | Some game =>
      if decide (WordleGame.state game ≠ CONTINUE) then skip w
      else
        let game := set_state game FINISHED in
        (mutate channel_id game ;;;
         update channel_id game ;;;
         emit (Message channel_id (Conceded (WordleGame.solution game))) ;;;
         stop_game draws channel_id) w
  end.

Definition on_message (m : Incoming) (r1 r2 r3 : nat)
    (draws : list (nat * nat)) : cmd WordleGame.t () := λ w,
  let channel_id := in_channel m in
  if decide (channel_id ∉ channels w) then skip w
  else if in_from_bot m then skip w
  else if in_is_command m then skip w
  else
    match get_game w channel_id with
    | None => skip w
    | Some game =>
        if decide (WordleGame.state game ≠ CONTINUE) then skip w
        else if decide (1 < length (str_split ops (in_content m)))%nat then skip w
        else
          let guess := str_lower ops (str_strip ops (in_content m)) in
          if decide (guess = [] ∨ not_cyrillic guess) then skip w
          else
            match WordleGame.guess cp game guess r1 r2 r3 with
            | Raise e => (Raised e, w)
            | Ok (reply, game) =>
                (mutate channel_id game ;;;
                 match WordleGame.emoji reply with
                 | Some e => emit (Reaction channel_id e)
                 | None => skip
                 end ;;;
                 match WordleGame.file_obj reply, WordleGame.msg reply with
                 | Some f, msg => emit (Message channel_id (GuessFeedback msg f))
                 | None, Some msg => emit (Message channel_id (GuessText msg))
                 | None, None => skip
                 end ;;;
                 update channel_id game ;;;
                 if decide (WordleGame.state game = FINISHED)
                 then stop_game draws channel_id else skip) w
            end
    end.

Definition CHANNEL_NAME : pystr := Eval vm_compute in u "wordle".

(** Body of the loop of [cog_load]; [draws channel] are the draws of the
    game that is started for [channel]. *)
Definition load_channel (draws : Z → list (nat * nat)) (channel : Z)
    : cmd WordleGame.t () := λ w,
  match get_game w channel with
  | None => start_game (draws channel) channel w
  | Some game =>
      if decide (WordleGame.state game ≠ CONTINUE)
      then start_game (draws channel) channel w
      else skip w
  end.

Fixpoint load_channels (draws : Z → list (nat * nat)) (cs : list Z)
    : cmd WordleGame.t () :=
  match cs with
  | [] => skip
  | channel :: rest => load_channel draws channel ;;; load_channels draws rest
  end.

(** [cog_load] *)
Definition cog_load (draws : Z → list (nat * nat)) : cmd WordleGame.t () := λ w,
  load_channels draws (channels w) w.

(** [guild_setup]; [resume_draws] are the draws of the constructor when it
    is handed a snapshot that counts as false. *)
Definition guild_setup (resume_draws : list (nat * nat))
    (guild_channels : list GuildChannel) : cmd WordleGame.t (option Z) := λ w,
  match utils_get CHANNEL_NAME guild_channels with
  | None => (Returned None, w)
  | Some channel =>
      cmd_bind
        (add_channel (λ resume, WordleGame_init cp (Some resume) resume_draws)
           (chan_id channel))
        (λ _ w', (Returned (Some (chan_id channel)), w')) w
  end.

(** [on_guild_join]: [if channel_id := self.guild_setup(guild)] goes by
    the truth value of the id. *)
Definition on_guild_join (resume_draws draws : list (nat * nat))
    (guild_channels : list GuildChannel) : cmd WordleGame.t () :=
  cmd_bind (guild_setup resume_draws guild_channels)
    (λ r, match r with
          | Some channel_id =>
              if decide (channel_id ≠ 0) then start_game draws channel_id else skip
          | None => skip
          end).

(** [on_guild_remove] *)
Fixpoint on_guild_remove (guild_channels : list GuildChannel)
    : cmd WordleGame.t () :=
  match guild_channels with
  | [] => skip
  | channel :: rest =>
      (λ w, if decide (chan_id channel ∈ channels w)
            then remove_channel (chan_id channel) w else skip w) ;;;
      on_guild_remove rest
  end.
End cog.
End Wordle.

(** The random and clock inputs of one restart of a Spelling-Bee channel. *)
Record draws := {
  end_clock : Z;     (* [datetime.now()] when the finished game is archived, in microseconds *)
  start_clock : Z;   (* [datetime.now()] when the new game is built, in microseconds *)
  root_draw : nat    (* the draw of [random.choice] for the root word *)
}.

Module Spelling.
Import GameManager.
Section cog.
Context (cp : Corpus) (ops : StrOps) (utc_offset : Z).
(** [self.bot.get_channel(channel_id).guild] *)
Context (guild_of : Z → Guild).

Abbreviation update := (update_game SpellingGame.to_dict) (only parsing).

Definition team_asdict (t : Team) : json :=
  JObj [(u "name", JStr (name t)); (u "score", JInt (score t));
        (u "members", JList (JStr <$> members t))].

Definition start_game (d : draws) (channel_id : Z)
    : cmd SpellingGame.t () := λ w,
  if decide (channel_id ∉ channels w) then skip w
  else
    match SpellingGame_init cp utc_offset None (start_clock d) (root_draw d) with
    | Returned game =>
        (add_game SpellingGame.to_dict channel_id game ;;;
         emit (Message channel_id
                 (SpellingStarted (SpellingGame.root_word game)
                    (SpellingGame.deadline game)
                    (size (SpellingGame.words game))))) w
    | Raised e => (Raised e, w)
    | Pending => (Pending, w)
    end.

Definition stop_game (d : draws) (channel_id : Z)
    : cmd SpellingGame.t () := λ w,
  match get_game w channel_id with
  | None => skip w
  | Some game =>
      if decide (SpellingGame.state game = RESTARTING) then skip w
      else
        let game := SpellingGame.set_state game RESTARTING in
        (mutate channel_id game ;;;
         update channel_id game ;;;
         λ w1,
           match SpellingGame.winners_and_losers game (guild_of channel_id) with
           | Raise e => (Raised e, w1)
           | Ok result =>
               (match result with
                | Some (winners, losers) =>
                    λ w2, (Returned (),
                           with_previousgame w2
                             (<[channel_id :=
                                  Json (JList [team_asdict winners;
                                               team_asdict losers;
                                               JInt (end_clock d `quot` 1000000);
                                               SpellingGame.to_dict game])]>
                                (previousgame w2)))
                | None => skip
                end ;;;
                emit (Message channel_id (GameOver result)) ;;;
                emit (Typing channel_id) ;;;
                start_game d channel_id) w1
           end) w
  end.

Definition stopSB (d : draws) (channel_id : Z) : cmd SpellingGame.t () :=
  stop_game d channel_id.

(** The [shuffle] command; [draw w] is [None] when [random.random()]
    came out at least one half for the word [w], and otherwise holds
    the draws of [randrange(5)] and [choice([0, 100])]. *)
Definition shuffle (draw : pystr → option (nat * nat)) (channel_id : Z)
    : cmd SpellingGame.t () := λ w,
  match get_game w channel_id with
  | None => skip w
  | Some game =>
      let id k c := 1 + Z.of_nat (k mod 5) + (if decide (c mod 2 = 0)%nat then 0 else 100) in
      let game :=
        SpellingGame.shuffle (λ w, (λ kc, id kc.1 kc.2) <$> draw w) game in
      (mutate channel_id game ;;; update channel_id game) w
  end.

Definition on_message (m : Incoming) (d : draws) : cmd SpellingGame.t () := λ w,
  let channel_id := in_channel m in
  if decide (channel_id ∉ channels w) then skip w
  else if in_from_bot m then skip w
  else if in_is_command m then skip w
  else
    match get_game w channel_id with
    | None => skip w
    | Some game =>
        if decide (SpellingGame.state game ≠ CONTINUE) then skip w
        else if decide (1 < length (str_split ops (in_content m)))%nat then skip w
        else
          let guess := str_lower ops (str_strip ops (in_content m)) in
          if decide (not_cyrillic guess) then skip w
          else
            let '(emoji, game) := SpellingGame.guess cp game guess (in_author m) in
            (mutate channel_id game ;;;
             emit (Reaction channel_id emoji) ;;;
             update channel_id game ;;;
             if decide (SpellingGame.state game = FINISHED)
             then stop_game d channel_id else skip) w
    end.

(** Body of the loop of [check_deadline]; [now_us] is the clock reading
    taken at the start of the sweep, in microseconds, so that
    [now + 1 >= deadline] reads [now_us + 1000000 >= deadline * 1000000].
    The warning that is logged for a tick inside the last second is not
    part of the state. *)
Definition check_channel (now_us : Z) (rnd : Z → draws) (channel_id : Z)
    : cmd SpellingGame.t () := λ w,
  match get_game w channel_id with
  | None => skip w
  | Some game =>
      if decide (SpellingGame.state game ≠ CONTINUE) then skip w
      else if decide (now_us + 1000000 >= SpellingGame.deadline game * 1000000)%Z
      then stop_game (rnd channel_id) channel_id w
      else skip w
  end.

Fixpoint sweep (now_us : Z) (rnd : Z → draws) (cs : list Z)
    : cmd SpellingGame.t () :=
  match cs with
  | [] => skip
  | channel_id :: rest =>
      check_channel now_us rnd channel_id ;;; sweep now_us rnd rest
  end.

(** [check_deadline] *)
Definition check_deadline (now_us : Z) (rnd : Z → draws)
    : cmd SpellingGame.t () := λ w,
  sweep now_us rnd (channels w) w.

Definition CHANNEL_NAME : pystr := Eval vm_compute in u "spelling_bee".

(** Body of the loop of [cog_load]. *)
Definition load_channel (rnd : Z → draws) (channel : Z)
    : cmd SpellingGame.t () := λ w,
  match get_game w channel with
  | None => start_game (rnd channel) channel w
  | Some game =>
      if decide (SpellingGame.state game ≠ CONTINUE)
      then start_game (rnd channel) channel w
      else skip w
  end.

Fixpoint load_channels (rnd : Z → draws) (cs : list Z) : cmd SpellingGame.t () :=
  match cs with
  | [] => skip
  | channel :: rest => load_channel rnd channel ;;; load_channels rnd rest
  end.

(** [cog_load] *)
Definition cog_load (rnd : Z → draws) : cmd SpellingGame.t () := λ w,
  load_channels rnd (channels w) w.


End cog.
End Spelling.

(** ** The [remove] command

    The command takes a word out of the target words while the bot runs:
    out of [common_words], out of its bucket in [common_words_by_length],
    and, for the next start, onto [removed_words.txt] (taken as its list of
    lines). *)

(** [l.remove(x)]: raises [ValueError] when [x] is not in the list. *)
Definition list_remove {A} `{EqDecision A} (x : A) (l : list A) : res (list A) :=
  if decide (x ∈ l) then Ok (remove_first x l) else Raise ValueError.

Inductive remove_reply :=
  | NeedWord
  | Removing (word : pystr)
  | NotInList (word : pystr).

Definition with_common_words (cp : Corpus) (cw : list pystr) : Corpus :=
  {| common_words := cw; all_words := all_words cp;
     common_words_by_length := common_words_by_length cp |}.

Definition with_buckets (cp : Corpus) (bs : list (list pystr)) : Corpus :=
  {| common_words := common_words cp; all_words := all_words cp;
     common_words_by_length := bs |}.

(** [remove(ctx, word=None)].  Only [ValueError] is caught: the lists keep
    what was done to them before an exception. *)
Definition remove (word : option pystr) (cp : Corpus) (removed_words_txt : list pystr)
    : outcome remove_reply * (Corpus * list pystr) :=
  match word with
  | None => (Returned NeedWord, (cp, removed_words_txt))
  | Some word =>
      if decide (word = []) then (Returned NeedWord, (cp, removed_words_txt))
      else
        match list_remove word (common_words cp) with
        | Raise ValueError => (Returned (NotInList word), (cp, removed_words_txt))
        | Raise e => (Raised e, (cp, removed_words_txt))
        | Ok common =>
            let cp1 := with_common_words cp common in
            match getitem (common_words_by_length cp1) (length word) with
            | Raise ValueError => (Returned (NotInList word), (cp1, removed_words_txt))
            | Raise e => (Raised e, (cp1, removed_words_txt))
            | Ok bucket =>
                match list_remove word bucket with
                | Raise ValueError => (Returned (NotInList word), (cp1, removed_words_txt))
                | Raise e => (Raised e, (cp1, removed_words_txt))
                | Ok bucket' =>
                    (Returned (Removing word),
                     (with_buckets cp1
                        (<[length word := bucket']> (common_words_by_length cp1)),
                      removed_words_txt ++ [word]))
                end
            end
        end
  end.

(** ** Bump reminders *)

(** [sub in s] on strings. *)
Fixpoint str_contains (sub s : pystr) : bool :=
  bool_decide (sub `prefix_of` s)
  || match s with [] => false | _ :: s' => str_contains sub s' end.

Module BumpReminder.

(** A message as the cog reads it.  [embeds] holds the [description] of
    every embed, [None] for an embed without one; [created_at] and all other
    times are instants in microseconds. *)
Record Msg := {
  msg_channel : Z;
  from_bot : bool;
  author_name : pystr;
  embeds : list (option pystr);
  created_at : Z
}.

(** What [update_bump_time] is handed: [on_message] and [cog_load] pass a
    message, [on_guild_join] passes the channel id that [guild_setup]
    returned. *)
Inductive pyobj := PyMsg (msg : Msg) | PyInt (z : Z).

Record t := {
  channels : list Z;
  reminders_disboard : gmap Z Z;
  reminders_server_monitoring : gmap Z Z
}.

(** What comes out of the cog other than a value: an exception of the
    games' kinds, or the [OverflowError] of [datetime] arithmetic. *)
Inductive raised := Exn (e : exn) | OverflowError.

Inductive result (A : Type) : Type :=
  | Value (a : A)
  | Throw (r : raised).
Arguments Value {A} a.
Arguments Throw {A} r.

Definition CHANNEL_NAME : pystr := Eval vm_compute in u "bumps".
Definition DISBOARD : pystr := Eval vm_compute in u "DISBOARD".
Definition SERVER_MONITORING : pystr := Eval vm_compute in u "Server Monitoring".
Definition BUMP_DONE : pystr := Eval vm_compute in u "Bump done!".
Definition SERVER_BUMPED_BY : pystr := Eval vm_compute in u "Server bumped by".
Definition NEXT_BUMP : pystr :=
  Eval vm_compute in u "The next Bump for this server will be available in".

Definition hours (n : Z) : Z := n * 3600 * 1000000.

(** [datetime.max] as an instant. *)
Definition DATETIME_MAX : Z := 253402300799999999.

(** [sub in description]: a description that is [None] is not iterable. *)
Definition contains (sub : pystr) (description : option pystr) : result bool :=
  match description with
  | Some s => Value (str_contains sub s)
  | None => Throw (Exn TypeError)
  end.

Definition with_disboard (self : t) (m : gmap Z Z) : t :=
  {| channels := channels self; reminders_disboard := m;
     reminders_server_monitoring := reminders_server_monitoring self |}.

Definition with_server_monitoring (self : t) (m : gmap Z Z) : t :=
  {| channels := channels self; reminders_disboard := reminders_disboard self;
     reminders_server_monitoring := m |}.

Definition with_channels (self : t) (cs : list Z) : t :=
  {| channels := cs; reminders_disboard := reminders_disboard self;
     reminders_server_monitoring := reminders_server_monitoring self |}.

Inductive service := Disboard | ServerMonitoring.

Definition reminders (which : service) (self : t) : gmap Z Z :=
  match which with
  | Disboard => reminders_disboard self
  | ServerMonitoring => reminders_server_monitoring self
  end.

Definition with_reminders (which : service) (self : t) (m : gmap Z Z) : t :=
  match which with
  | Disboard => with_disboard self m
  | ServerMonitoring => with_server_monitoring self m
  end.

Section cog.
(** The [try] block that reads the countdown of a Server Monitoring
    message ([re.search], [int] and [timedelta]): the delta it builds, or
    [None] when anything in it raises. *)
Context (parse_countdown : pystr → option Z).

(** The tail of [update_bump_time], from [reminder = msg.created_at + delta]. *)
Definition schedule (now : Z) (msg : Msg) (which : service) (delta : Z) (self : t)
    : result (bool * t) :=
  let channel_id := msg_channel msg in
  let reminder := created_at msg + delta in
  if decide (DATETIME_MAX < reminder) then Throw OverflowError
  else
    let store :=
      if decide (reminder < now) then Value (false, self)
      else Value (true, with_reminders which self
                          (<[channel_id := reminder]> (reminders which self))) in
    match reminders which self !! channel_id with
    | Some t => if decide (reminder ≤ t) then Value (false, self) else store
    | None => store
    end.

(** [update_bump_time(self, msg)]; [now] is [datetime.now(timezone.utc)]. *)
Definition update_bump_time (now : Z) (arg : pyobj) (self : t) : result (bool * t) :=
  match arg with
  | PyInt _ => Throw (Exn AttributeError)
  | PyMsg msg =>
      if decide (author_name msg = DISBOARD) then
        match embeds msg with
        | [] => Value (false, self)
        | description :: _ =>
            match contains BUMP_DONE description with
            | Throw r => Throw r
            | Value false => Value (false, self)
            | Value true => schedule now msg Disboard (hours 2) self
            end
        end
      else if decide (author_name msg = SERVER_MONITORING) then
        match embeds msg with
        | [] => Value (false, self)
        | description :: _ =>
            match contains SERVER_BUMPED_BY description with
            | Throw r => Throw r
            | Value true => schedule now msg ServerMonitoring (hours 4) self
            | Value false =>
                match contains NEXT_BUMP description with
                | Throw r => Throw r
                | Value false => Value (false, self)
                | Value true =>
                    match description ≫= parse_countdown with
                    | Some delta => schedule now msg ServerMonitoring delta self
                    | None => Value (false, self)
                    end
                end
            end
        end
      else Value (false, self)
  end.

Definition thanks : list pystr := [u "🙏"; u "🤗"; u "😻"; u "😌"; u "❤"].

(** [on_message]: the reaction it adds, if any; [r] is the draw of
    [random.choice]. *)
Definition on_message (now : Z) (r : nat) (msg : Msg) (self : t)
    : result (option pystr * t) :=
  if decide (msg_channel msg ∉ channels self) then Value (None, self)
  else if from_bot msg then Value (None, self)
  else
    match update_bump_time now (PyMsg msg) self with
    | Throw e => Throw e
    | Value (true, self') =>
        match random_choice r thanks with
        | Ok emoji => Value (Some emoji, self')
        | Raise e => Throw (Exn e)
        end
    | Value (false, self') => Value (None, self')
    end.

(** [guild_setup] *)
Definition guild_setup (guild_channels : list GuildChannel) (self : t)
    : option Z * t :=
  match utils_get CHANNEL_NAME guild_channels with
  | None => (None, self)
  | Some channel =>
      (Some (chan_id channel), with_channels self (channels self ++ [chan_id channel]))
  end.

(** [on_guild_join]: the state it leaves, and what it raises. *)
Definition on_guild_join (now : Z) (guild_channels : list GuildChannel) (self : t)
    : result bool * t :=
  match guild_setup guild_channels self with
  | (Some channel_id, self1) =>
      if decide (channel_id ≠ 0) then
        match update_bump_time now (PyInt channel_id) self1 with
        | Value (b, self2) => (Value b, self2)
        | Throw e => (Throw e, self1)
        end
      else (Value false, self1)
  | (None, self1) => (Value false, self1)
  end.

(** [on_guild_remove] *)
Definition on_guild_remove (guild_channels : list GuildChannel) (self : t) : t :=
  foldl (λ self channel,
           if decide (chan_id channel ∈ channels self)
           then with_channels self (remove_first (chan_id channel) (channels self))
           else self)
        self guild_channels.

(** The notices of [check_reminders]. *)
Inductive notice :=
  | TimeToBumpDisboard (channel_id : Z)
  | TimeToBumpServerMonitoring (channel_id : Z).

(** Body of the loop of [check_reminders]. *)
Definition check_channel (now : Z) (st : t * list notice) (channel_id : Z)
    : t * list notice :=
  let self := st.1 in
  if decide (default now (reminders_disboard self !! channel_id) < now) then
    (with_disboard self (delete channel_id (reminders_disboard self)),
     st.2 ++ [TimeToBumpDisboard channel_id])
  else if decide (default now (reminders_server_monitoring self !! channel_id) < now) then
    (with_server_monitoring self (delete channel_id (reminders_server_monitoring self)),
     st.2 ++ [TimeToBumpServerMonitoring channel_id])
  else st.

(** [check_reminders]; [now] is read once, before the loop. *)
Definition check_reminders (now : Z) (self : t) : t * list notice :=
  foldl (check_channel now) (self, []) (channels self).
End cog.
End BumpReminder.

(** ** The soft-sign quiz *)

Module SoftSign.

Record t := {
  channels : list Z;
  last_word : gmap Z (option pystr)
}.

(** What a handler does towards the chat platform. *)
Inductive action :=
  | DeleteMessage
  | Incorrect
  | Correct (word : pystr) (is_masculine : bool)
  | Pose (channel_id : Z) (word : pystr).

Section cog.
(** The lines of [soft_masculine_nouns.txt] and [soft_feminine_nouns.txt],
    and [common_words] as it is when [soft_nouns] is built (sorted, the
    removed words still in it). *)
Context (masculine_nouns feminine_nouns common_words : list pystr).

(** [list(set(masculine_nouns + feminine_nouns).intersection(common_words))] *)
Definition soft_nouns : list pystr :=
  elements ((list_to_set (masculine_nouns ++ feminine_nouns) : gset (list N))
            ∩ list_to_set common_words).

(** The test of [pose_question] that turns an answer to an old question
    away: [source and self.last_word[channel_id]
    and source != self.last_word[channel_id]]. *)
Definition stale (channel_id : Z) (source : option pystr) (self : t) : res bool :=
  match source with
  | None | Some [] => Ok false
  | Some source =>
      match last_word self !! channel_id with
      | None => Raise KeyError
      | Some None | Some (Some []) => Ok false
      | Some (Some last) => Ok (bool_decide (source ≠ last))
      end
  end.

(** [pose_question]: what it sends, and the state it leaves or the
    exception it raises; [r] is the draw of [random.choice]. *)
Definition pose_question (r : nat) (channel_id : Z) (source : option pystr)
    (override : bool) (self : t) : list action * res t :=
  match (if override then Ok false else stale channel_id source self) with
  | Raise e => ([], Raise e)
  | Ok true => ([], Ok self)
  | Ok false =>
      match random_choice r soft_nouns with
      | Raise e => ([], Raise e)
      | Ok word =>
          ([Pose channel_id word],
           Ok {| channels := channels self;
                 last_word := <[channel_id := Some word]> (last_word self) |})
      end
  end.

(** [PersistentGenderView.guess]: a press of one of the two buttons under
    the message [word] in the channel [channel_id]. *)
Definition guess (r : nat) (channel_id : Z) (word : pystr) (guess_masculine : bool)
    (self : t) : list action * res t :=
  let answer (is_masculine : bool) :=
    if xorb guess_masculine is_masculine then ([Incorrect], Ok self)
    else
      let posed := pose_question r channel_id (Some word) false self in
      (Correct word is_masculine :: posed.1, posed.2) in
  if decide (word ∈ feminine_nouns) then answer false
  else if decide (word ∈ masculine_nouns) then answer true
  else ([DeleteMessage], Ok self).

(** The [softsign] command. *)
Definition softsign (r : nat) (channel_id : Z) (self : t) : list action * res t :=
  if decide (channel_id ∉ channels self) then ([], Ok self)
  else pose_question r channel_id None true self.
End cog.

Definition CHANNEL_NAME : pystr := Eval vm_compute in u "its_okay_to_be_soft".

(** [guild_setup] *)
Definition guild_setup (guild_channels : list GuildChannel) (self : t) : t :=
  match utils_get CHANNEL_NAME guild_channels with
  | None => self
  | Some channel =>
      {| channels := channels self ++ [chan_id channel];
         last_word := <[chan_id channel := None]> (last_word self) |}
  end.

(** [on_guild_remove] *)
Definition on_guild_remove (guild_channels : list GuildChannel) (self : t) : t :=
  foldl (λ self channel,
           if decide (chan_id channel ∈ channels self)
           then {| channels := remove_first (chan_id channel) (channels self);
                   last_word := delete (chan_id channel) (last_word self) |}
           else self)
        self guild_channels.
End SoftSign.

(** ** What is stated about the games

    The definitions below are not part of the program: they name the
    properties, loop invariants and observations that the theorems use. *)

(** *** Wordle *)

(** [hits P n]: how many positions below [n] satisfy [P]. *)
Definition hits (P : nat → Prop) `{!∀ i, Decision (P i)} (n : nat) : Z :=
  Z.of_nat (length (filter P (seq 0 n))).

(** The number of positions of the guess that hold the letter [c] and were
    classified Correct or Present. *)
Definition credited (c : letter) (guess : pystr) (colors : list color) : Z :=
  hits (λ j, guess !! j = Some c ∧
             (colors !! j = Some COLOR_CORRECT ∨ colors !! j = Some COLOR_PRESENT))
       (length guess).

(** Positions where the guessed letter [c] sits where the solution has it. *)
Definition exact_at (solution guess : pystr) (c : letter) (j : nat) : Prop :=
  guess !! j = Some c ∧ solution !! j = Some c.

(** Positions where the guessed letter [c] was given presence credit. *)
Definition credit_at (guess : pystr) (colors : list color) (c : letter) (j : nat) : Prop :=
  guess !! j = Some c ∧ colors !! j = Some COLOR_PRESENT.

Global Instance exact_at_dec solution guess c j : Decision (exact_at solution guess c j).
Proof. unfold exact_at. apply _. Defined.

Global Instance credit_at_dec guess colors c j : Decision (credit_at guess colors c j).
Proof. unfold credit_at. apply _. Defined.

(** The state of the first loop before position [i]: the positions below
    [i] are decided, the tally has lost the exact matches found so far. *)
Definition pass1_inv (solution guess : pystr) (i : nat)
    (st : list color * gmap N Z) : Prop :=
  length st.1 = length solution ∧
  (∀ j, (j < length solution)%nat →
     st.1 !! j = Some (if decide ((j < i)%nat ∧ guess !! j = solution !! j)
                       then COLOR_CORRECT else COLOR_ABSENT)) ∧
  (∀ c, st.2 !! c = if decide (c ∈ solution)
                    then Some (count c solution - hits (exact_at solution guess c) i)
                    else None).

(** The state of the second loop before position [i]: Correct is final,
    Present has only been given below [i], and what the tally has lost is
    what has been credited. *)
Definition pass2_inv (solution guess : pystr) (i : nat)
    (st : list color * gmap N Z) : Prop :=
  length st.1 = length solution ∧
  (∀ j, (j < length solution)%nat →
     st.1 !! j = Some COLOR_CORRECT ↔ guess !! j = solution !! j) ∧
  (∀ j, (i ≤ j)%nat → st.1 !! j ≠ Some COLOR_PRESENT) ∧
  (∀ c, if decide (c ∈ solution)
        then ∃ t, st.2 !! c = Some t ∧ 0 ≤ t ∧
               count c solution - t
               = hits (exact_at solution guess c) (length solution)
                 + hits (credit_at guess st.1 c) i
        else st.2 !! c = None ∧ hits (credit_at guess st.1 c) i = 0).

(** *** Spelling Bee *)

(** A word qualifies for a root as the puzzle description has it: its
    length is in the window, every letter of it occurs in the root, and no
    letter occurs in it more often than in the root. *)
Definition qualifies (root word : pystr) : Prop :=
  (MIN_LENGTH ≤ length word ≤ MAX_LENGTH)%nat ∧
  (∀ l, l ∈ word → l ∈ root) ∧
  (∀ l, count l word ≤ count l root).

(** Every solution word has an attribution other than [None]. *)
Definition solved (g : SpellingGame.t) : Prop :=
  map_Forall (λ _ a, a ≠ None) (SpellingGame.words g).

(** No solution word is attributed to the id [0]. *)
Definition ids_nonzero (g : SpellingGame.t) : Prop :=
  map_Forall (λ _ a, a ≠ Some 0) (SpellingGame.words g).

(** A sequence of [guess] calls, each a word and the id of its author. *)
Definition run (cp : Corpus) (g : SpellingGame.t) (calls : list (pystr * Z))
    : SpellingGame.t :=
  foldl (λ g call, (SpellingGame.guess cp g call.1 call.2).2) g calls.

(** The two cohorts of the scoring, and the cohort an attribution counts
    for: the reserved ranges stand for the rosters, any other id is looked up
    in the guild, and [None], [0] and unknown members count for nobody. *)
Inductive cohort := Natives | Learners.

Global Instance cohort_eq_dec : EqDecision cohort.
Proof. solve_decision. Defined.

Definition cohort_of (guild : Guild) (a : option Z) : option cohort :=
  match a with
  | None => None
  | Some id =>
      if decide (id = 0) then None
      else if decide (1 ≤ id < 20) then Some Natives
      else if decide (101 ≤ id < 120) then Some Learners
      else
        match guild id with
        | None => None
        | Some member =>
            if decide (Exists (λ role, role = u "Native") (roles member))
            then Some Natives else Some Learners
        end
  end.

(** The score of a cohort: the number of words attributed to it. *)
Definition cohort_score (guild : Guild) (c : cohort) (ids : list (option Z)) : Z :=
  Z.of_nat (length (filter (λ a, cohort_of guild a = Some c) ids)).

(** A reserved id that has a name in its roster. *)
Definition in_roster (a : option Z) : Prop :=
  match a with
  | Some id => (1 ≤ id < 20 → id ≤ 6) ∧ (101 ≤ id < 120 → id ≤ 105)
  | None => True
  end.

Global Instance in_roster_dec a : Decision (in_roster a).
Proof. destruct a; cbn; apply _. Defined.

(** Both maps of a game hold only attributions that are within the rosters. *)
Definition game_in_roster (g : SpellingGame.t) : Prop :=
  map_Forall (λ _ a, in_roster a) (SpellingGame.words g) ∧
  map_Forall (λ _ a, in_roster a) (SpellingGame.other_words g).



(** *** The cogs *)

(** All that a cog holds for one channel: whether it is registered, its
    entry in the game table, its two files, and the events emitted to it. *)
Record view (G : Type) := {
  registered : bool;
  session : option (option G);
  snapshot : option file;
  archive : option file;
  emitted : list outgoing
}.
Arguments registered {G} v.
Arguments session {G} v.
Arguments snapshot {G} v.
Arguments archive {G} v.
Arguments emitted {G} v.

Definition channel_view {G} (channel_id : Z) (w : World G) : view G :=
  {| registered := bool_decide (channel_id ∈ channels w);
     session := games w !! channel_id;
     snapshot := files w !! channel_id;
     archive := previousgame w !! channel_id;
     emitted := filter (λ o, outgoing_channel o = channel_id) (sent w) |}.

(** A handler leaves a channel alone. *)
Definition preserves {G A} (channel_id : Z) (c : World G → outcome A * World G) : Prop :=
  ∀ w, channel_view channel_id (c w).2 = channel_view channel_id w.

(** A session the sweep has nothing to do for. *)
Definition idle (now_us : Z) (g : SpellingGame.t) : Prop :=
  SpellingGame.state g ≠ CONTINUE ∨
  now_us + 1000000 < SpellingGame.deadline g * 1000000.

(** What [stop_game] leaves for its channel when the scoring and the new
    game go through: the channel holds the new game and its snapshot, the
    game that ended is archived in the state Restarting if it has scores,
    and three messages went out. *)
Definition restarted (d : draws) (cid : Z) (g : SpellingGame.t)
    (result : option (Team * Team)) (fresh : SpellingGame.t)
    (before : view SpellingGame.t) : view SpellingGame.t :=
  {| registered := true;
     session := Some (Some fresh);
     snapshot := Some (Json (SpellingGame.to_dict fresh));
     archive :=
       match result with
       | Some (winners, losers) =>
           Some (Json (JList [Spelling.team_asdict winners;
                              Spelling.team_asdict losers;
                              JInt (end_clock d `quot` 1000000);
                              SpellingGame.to_dict
                                (SpellingGame.set_state g RESTARTING)]))
       | None => archive before
       end;
     emitted :=
       emitted before ++
       [Message cid (GameOver result); Typing cid;
        Message cid (SpellingStarted (SpellingGame.root_word fresh)
                       (SpellingGame.deadline fresh)
                       (size (SpellingGame.words fresh)))] |}.

(** Every session scores without running off a roster. *)
Definition world_in_roster (w : World SpellingGame.t) : Prop :=
  ∀ c g, GameManager.get_game w c = Some g →
    Forall in_roster
      ((map_to_list (SpellingGame.other_words g ∪ SpellingGame.words g)).*2).

(** There is a ten-letter target word to draw. *)
Definition root_available (cp : Corpus) : Prop :=
  ∃ bucket, common_words_by_length cp !! 10%nat = Some bucket ∧ bucket ≠ [].

(** ** Sample data *)

Definition slovo : pystr := Eval vm_compute in u "слово".
Definition slava : pystr := Eval vm_compute in u "слава".

Definition wordle_corpus : Corpus :=
  {| common_words := [slovo]; all_words := [slava; slovo];
     common_words_by_length := (λ i, filter (λ w, length w = i) [slovo]) <$> seq 0 24 |}.

Definition wordle_game : WordleGame.t :=
  {| WordleGame.state := CONTINUE; WordleGame.guesses := 0;
     WordleGame.solution := slovo |}.

Definition biblioteka : pystr := Eval vm_compute in u "библиотека".
Definition kot : pystr := Eval vm_compute in u "кот".
Definition leto : pystr := Eval vm_compute in u "лето".
Definition kit : pystr := Eval vm_compute in u "кит".
Definition kabak : pystr := Eval vm_compute in u "кабак".
Definition bilet : pystr := Eval vm_compute in u "билет".

(** A small corpus for the Spelling Bee: [кабак] needs two [к] and two [а],
    the root [библиотека] has one of each. *)
Definition bee_corpus : Corpus :=
  {| common_words := [biblioteka; kot; leto];
     all_words := [biblioteka; bilet; kabak; kit; kot; leto; slovo];
     common_words_by_length :=
       (λ i, filter (λ w, length w = i) [biblioteka; kot; leto]) <$> seq 0 24 |}.

(** The game [SpellingGame()] builds on that corpus when the clock reads
    the epoch and [библиотека] is drawn. *)
Definition bee_game : SpellingGame.t :=
  {| SpellingGame.state := CONTINUE;
     SpellingGame.deadline := 86400;
     SpellingGame.root_word := biblioteka;
     SpellingGame.words := SpellingGame.dict_fromkeys [kot; leto];
     SpellingGame.other_words := SpellingGame.dict_fromkeys [bilet; kit] |}.

(** Messages that arrive as one lower-case token. *)
Definition plain_ops : StrOps :=
  {| str_split := λ s, [s]; str_strip := λ s, s; str_lower := λ s, s |}.

Definition nobody : Z → Guild := λ _ _, None.

(** A guild in which the member with id [500] has the role Native. *)
Definition sample_guild : Z → Guild := λ _ id,
  if decide (id = 500)
  then Some {| display_name := u "Маша"; roles := [u "Native"] |}
  else None.

(** A Wordle channel and a Spelling-Bee channel caught in the pause of
    [stop_game]: the state is Restarting and the new game is not there yet. *)
Definition wordle_restarting : World WordleGame.t :=
  let g := Wordle.set_state wordle_game RESTARTING in
  {| channels := [1]; games := {[1 := Some g]};
     files := {[1 := Json (WordleSnapshot.to_dict g)]};
     previousgame := ∅; sent := [Typing 1] |}.

Definition bee_restarting : World SpellingGame.t :=
  let g := SpellingGame.set_state bee_game RESTARTING in
  {| channels := [2]; games := {[2 := Some g]};
     files := {[2 := Json (SpellingGame.to_dict g)]};
     previousgame := ∅; sent := [Message 2 (GameOver None); Typing 2] |}.

(** A Spelling-Bee channel with a game in progress. *)
Definition bee_running : World SpellingGame.t :=
  {| channels := [2]; games := {[2 := Some bee_game]};
     files := {[2 := Json (SpellingGame.to_dict bee_game)]};
     previousgame := ∅; sent := [] |}.

(** *** The corpus while the bot runs *)

(** The buckets are the target words by length. *)
Definition buckets_by_length (cp : Corpus) : Prop :=
  common_words_by_length cp
  = (λ i, filter (λ w, length w = i) (common_words cp)) <$> seq 0 24.

(** What the games rely on: the buckets follow the target words, and every
    target word is a valid guess. *)
Definition corpus_ok (cp : Corpus) : Prop :=
  buckets_by_length cp ∧ ∀ w, w ∈ common_words cp → w ∈ all_words cp.

(** A word over the alphabet. *)
Definition cyrillic (w : pystr) : Prop := Forall (λ c, c ∈ ALPHABET) w.

(** Alphabet order: the comparison of the sort keys. *)
Definition alphabetical (w1 w2 : pystr) : Prop :=
  ∃ k1 k2, collation_key w1 = Ok k1 ∧ collation_key w2 = Ok k2 ∧ key_le k1 k2 = true.

(** A target word of 24 letters, and a corpus that holds it. *)
Definition long_word : pystr := replicate 24 1072%N.

Definition long_corpus : Corpus :=
  {| common_words := [long_word; slovo]; all_words := [long_word; slovo];
     common_words_by_length :=
       (λ i, filter (λ w, length w = i) [long_word; slovo]) <$> seq 0 24 |}.

(** *** Spelling Bee: what a game keeps *)

(** How an attribution map may differ after the calls [calls]: no word comes
    or goes, an attribution that is there stays, and an unclaimed word is
    either still unclaimed or attributed to one of the callers who named
    it. *)
Definition grows (calls : list (pystr * Z)) (m m' : gmap (list N) (option Z)) : Prop :=
  ∀ w, match m !! w with
       | None => m' !! w = None
       | Some (Some a) => m' !! w = Some (Some a)
       | Some None =>
           m' !! w = Some None ∨ ∃ a, m' !! w = Some (Some a) ∧ (w, a) ∈ calls
       end.

(** The running totals of the scoring loop never count fewer words than
    names. *)
Definition totals_ok (s : SpellingGame.totals) : Prop :=
  Z.of_nat (size (SpellingGame.natives s)) ≤ SpellingGame.natives_score s ∧
  Z.of_nat (size (SpellingGame.learners s)) ≤ SpellingGame.learners_score s ∧
  (0 < SpellingGame.natives_score s → SpellingGame.natives s ≠ ∅) ∧
  (0 < SpellingGame.learners_score s → SpellingGame.learners s ≠ ∅).

(** A corpus whose target words are all too short or too long for Wordle,
    and none of which has ten letters. *)
Definition short_corpus : Corpus :=
  {| common_words := [kot]; all_words := [kot; slovo];
     common_words_by_length := (λ i, filter (λ w, length w = i) [kot]) <$> seq 0 24 |}.

(** *** The cogs: starting up *)

(** The view of a Wordle channel in which the game [g] was just started. *)
Definition wordle_started (cid : Z) (g : WordleGame.t)
    (before : view WordleGame.t) : view WordleGame.t :=
  {| registered := true;
     session := Some (Some g);
     snapshot := Some (Json (WordleSnapshot.to_dict g));
     archive := archive before;
     emitted := emitted before
                ++ [Message cid (WordlePicked (length (WordleGame.solution g)))] |}.

(** What starting up does for a registered channel: a game in the state
    Continue is kept as it is, with everything else of the channel; in any
    other case the channel gets the game of its draws. *)
Definition wordle_recovered (cp : Corpus) (draws : Z → list (nat * nat)) (cid : Z)
    (before after : view WordleGame.t) : Prop :=
  let fresh :=
    ∃ s, pick_solution cp (draws cid) = Some s ∧
         after = wordle_started cid
                   {| WordleGame.state := CONTINUE; WordleGame.guesses := 0;
                      WordleGame.solution := s |} before in
  match session before with
  | Some (Some g) => if decide (WordleGame.state g = CONTINUE) then after = before else fresh
  | _ => fresh
  end.

(** A Wordle cog that comes up with one game to keep, one game that was
    caught in a restart, and one channel without a game. *)
Definition wordle_startup : World WordleGame.t :=
  {| channels := [1; 2; 3];
     games := {[1 := Some wordle_game;
                2 := Some (Wordle.set_state wordle_game RESTARTING);
                3 := None]};
     files := {[1 := Json (WordleSnapshot.to_dict wordle_game);
                2 := Json (WordleSnapshot.to_dict (Wordle.set_state wordle_game RESTARTING))]};
     previousgame := ∅; sent := [] |}.

(** The view of a channel that the cog has forgotten: its archive and what
    was sent to it are what is left. *)
Definition forgotten {G} (before : view G) : view G :=
  {| registered := false; session := None; snapshot := None;
     archive := archive before; emitted := emitted before |}.

(** A guild with a [#wordle] channel. *)
Definition wordle_guild : list GuildChannel :=
  [ {| chan_id := 8; chan_name := u "general" |};
    {| chan_id := 9; chan_name := u "wordle" |} ].

(** A Wordle cog that finds the snapshot of a game in progress, three
    guesses in, for the channel of that guild. *)
Definition wordle_rejoin : World WordleGame.t :=
  {| channels := []; games := ∅;
     files := {[9 := Json (WordleSnapshot.to_dict
                             {| WordleGame.state := CONTINUE; WordleGame.guesses := 3;
                                WordleGame.solution := slava |})]};
     previousgame := ∅; sent := [] |}.

(** A Wordle cog with games in two channels. *)
Definition wordle_two : World WordleGame.t :=
  {| channels := [9; 1];
     games := {[9 := Some wordle_game; 1 := Some wordle_game]};
     files := {[9 := Json (WordleSnapshot.to_dict wordle_game);
                1 := Json (WordleSnapshot.to_dict wordle_game)]};
     previousgame := ∅; sent := [] |}.

(** *** The cogs: games and their snapshots *)

(** Every game of the table belongs to a registered channel and is the
    game that the channel's snapshot holds. *)
Definition managed {G} (to_dict : G → json) (w : World G) : Prop :=
  ∀ c g, games w !! c = Some (Some g) →
         c ∈ channels w ∧ files w !! c = Some (Json (to_dict g)).

(** A chat message of a member. *)
Definition says (c who : Z) (text : pystr) : Incoming :=
  {| in_channel := c; in_author := who; in_from_bot := false;
     in_is_command := false; in_content := text |}.

(** A Wordle channel with the sample game in progress. *)
Definition wordle_running : World WordleGame.t :=
  {| channels := [1]; games := {[1 := Some wordle_game]};
     files := {[1 := Json (WordleSnapshot.to_dict wordle_game)]};
     previousgame := ∅; sent := [] |}.

(** A Spelling-Bee channel whose game holds an attribution to the id [7]:
    the natives' range admits it, their roster does not name it. *)
Definition bee_overrun : World SpellingGame.t :=
  let g := run bee_corpus bee_game [(kot, 7)] in
  {| channels := [2]; games := {[2 := Some g]};
     files := {[2 := Json (SpellingGame.to_dict g)]};
     previousgame := ∅; sent := [] |}.

(** *** Bump reminders *)

(** A reminder, as looked up for a channel, that is due at [now]. *)
Definition due (now : Z) (reminder : option Z) : Prop := default now reminder < now.

Global Instance due_dec now reminder : Decision (due now reminder).
Proof. unfold due. apply _. Defined.

(** [self'] is [self] with the reminder [t] of the service [which] stored
    for the channel [c], later than any reminder that was there. *)
Definition stores (which : BumpReminder.service) (c t : Z)
    (self self' : BumpReminder.t) : Prop :=
  self' = BumpReminder.with_reminders which self
            (<[c := t]> (BumpReminder.reminders which self)) ∧
  ∀ t0, BumpReminder.reminders which self !! c = Some t0 → t0 < t.

(** The notice a registered channel gets from one round of
    [check_reminders]: Disboard goes first. *)
Definition notice_for (now : Z) (self : BumpReminder.t) (c : Z)
    : option BumpReminder.notice :=
  if decide (due now (BumpReminder.reminders_disboard self !! c))
  then Some (BumpReminder.TimeToBumpDisboard c)
  else if decide (due now (BumpReminder.reminders_server_monitoring self !! c))
  then Some (BumpReminder.TimeToBumpServerMonitoring c)
  else None.

(** A cog with two channels: in channel [5] both reminders are due at
    instant [100], in channel [6] none is. *)
Definition bumps_due : BumpReminder.t :=
  {| BumpReminder.channels := [5; 6];
     BumpReminder.reminders_disboard := {[5 := 10; 6 := 500]};
     BumpReminder.reminders_server_monitoring := {[5 := 20]} |}.

(** A guild with a [#bumps] channel. *)
Definition bumps_guild : list GuildChannel :=
  [ {| chan_id := 5; chan_name := u "bumps" |} ].

(** *** The soft-sign quiz *)

Definition den : pystr := Eval vm_compute in u "день".
Definition noch : pystr := Eval vm_compute in u "ночь".

(** A quiz channel in which [день] is the word that was posed last. *)
Definition quiz : SoftSign.t :=
  {| SoftSign.channels := [4]; SoftSign.last_word := {[4 := Some den]} |}.

(** *** The Spelling-Bee cog: attributions that the scoring can name *)

(** Every game of the table holds only attributions within the rosters. *)
Definition sessions_in_roster (w : World SpellingGame.t) : Prop :=
  ∀ c g, games w !! c = Some (Some g) → game_in_roster g.

(** A quiz cog that has no channel registered (the quiz channel was
    renamed before the bot started, say). *)
Definition quiz_unregistered : SoftSign.t :=
  {| SoftSign.channels := []; SoftSign.last_word := ∅ |}.

(* ================================================================== *)
(** * Verification *)

(** ** Loops and counting *)

Section loops.
Context {A St : Type} (body : St → nat → A → res St).

Lemma for_enumerate_from (P : nat → St → Prop) (l : list A) :
  (∀ i x s, l !! i = Some x → P i s → ∃ s', body s i x = Ok s' ∧ P (S i) s') →
  ∀ k s, (k ≤ length l)%nat → P k s →
    ∃ s', for_enumerate body k (drop k l) s = Ok s' ∧ P (length l) s'.
Proof.
  intros Hstep k s Hk.
  remember (length l - k)%nat as d eqn:Hd.
  revert k s Hk Hd. induction d as [|d IH]; intros k s Hk Hd HP.
  - assert (k = length l) as -> by lia.
    rewrite drop_all. simpl. eauto.
  - destruct (lookup_lt_is_Some_2 l k) as [x Hx]; [lia|].
    rewrite (drop_S _ _ _ Hx). simpl.
    destruct (Hstep k x s Hx HP) as (s' & -> & HP'). simpl.
    apply IH; [apply lookup_lt_Some in Hx|..]; auto; lia.
Qed.

Lemma for_enumerate_inv (P : nat → St → Prop) (l : list A) (s : St) :
  (∀ i x s, l !! i = Some x → P i s → ∃ s', body s i x = Ok s' ∧ P (S i) s') →
  P O s →
  ∃ s', for_enumerate body 0 l s = Ok s' ∧ P (length l) s'.
Proof.
  intros Hstep HP.
  destruct (for_enumerate_from P l Hstep 0%nat s) as (s' & H1 & H2); [lia|done|].
  rewrite drop_0 in H1. eauto.
Qed.
End loops.

Section hits.
Context (P : nat → Prop) `{!∀ i, Decision (P i)}.

Lemma hits_0 : hits P 0 = 0.
Proof. reflexivity. Qed.

Lemma hits_S n : hits P (S n) = hits P n + (if decide (P n) then 1 else 0).
Proof.
  unfold hits. rewrite seq_S, filter_app, length_app. simpl.
  rewrite filter_cons, filter_nil. destruct (decide (P n)); simpl; lia.
Qed.

Lemma hits_nonneg n : 0 ≤ hits P n.
Proof. unfold hits. lia. Qed.

Lemma hits_mono n m : (n ≤ m)%nat → hits P n ≤ hits P m.
Proof.
  induction 1 as [|m _ IH]; [lia|]. rewrite hits_S.
  destruct (decide (P m)); lia.
Qed.
End hits.

Lemma hits_le (P Q : nat → Prop) `{!∀ i, Decision (P i)} `{!∀ i, Decision (Q i)} n :
  (∀ i, (i < n)%nat → P i → Q i) → hits P n ≤ hits Q n.
Proof.
  induction n as [|n IH]; intros HPQ; [done|].
  rewrite !hits_S. specialize (IH ltac:(intros; apply HPQ; [lia|done])).
  destruct (decide (P n)) as [HP|HP], (decide (Q n)) as [HQ|HQ];
    try lia. exfalso. apply HQ, HPQ; [lia|done].
Qed.

Lemma hits_ext (P Q : nat → Prop) `{!∀ i, Decision (P i)} `{!∀ i, Decision (Q i)} n :
  (∀ i, (i < n)%nat → P i ↔ Q i) → hits P n = hits Q n.
Proof.
  intros HPQ. apply Z.le_antisymm; apply hits_le; intros i Hi; apply HPQ, Hi.
Qed.

Lemma hits_or (P Q : nat → Prop) `{!∀ i, Decision (P i)} `{!∀ i, Decision (Q i)} n :
  (∀ i, P i → Q i → False) →
  hits (λ i, P i ∨ Q i) n = hits P n + hits Q n.
Proof.
  intros Hdisj. induction n as [|n IH]; [done|].
  rewrite !hits_S, IH.
  destruct (decide (P n)) as [HP|HP], (decide (Q n)) as [HQ|HQ],
    (decide (P n ∨ Q n)) as [HPQ|HPQ]; try lia; exfalso; try tauto.
  eapply Hdisj; eauto.
Qed.

(** Counting the positions that hold a letter is [str.count]. *)
Lemma hits_count (c : letter) (s : pystr) :
  hits (λ j, s !! j = Some c) (length s) = count c s.
Proof.
  induction s as [|x s IH] using rev_ind; [done|].
  rewrite length_app. simpl. rewrite Nat.add_1_r, hits_S.
  unfold count in *. rewrite filter_app, length_app, Nat2Z.inj_add, <- IH.
  rewrite (hits_ext _ (λ j, s !! j = Some c)).
  2:{ intros i Hi. by rewrite lookup_app_l. }
  rewrite list_lookup_middle by done.
  rewrite filter_cons, filter_nil.
  destruct (decide (Some x = Some c)), (decide (x = c)); simpl; try lia; congruence.
Qed.

Ltac res_simpl :=
  cbn [mbind res_bind mret res_ret fmap res_fmap fst snd].
Tactic Notation "res_simpl" "in" hyp(H) :=
  cbn [mbind res_bind mret res_ret fmap res_fmap fst snd] in H.

Lemma random_choice_ok {A} (r : nat) (l : list A) :
  l ≠ [] → ∃ x, random_choice r l = Ok x ∧ x ∈ l.
Proof.
  intros Hl. unfold random_choice, getitem.
  destruct (lookup_lt_is_Some_2 l (r mod length l)) as [x Hx].
  { apply Nat.mod_upper_bound. by destruct l. }
  rewrite Hx. exists x. split; [done|]. by eapply list_elem_of_lookup_2.
Qed.

Lemma getitem_ok {A} (l : list A) i x : l !! i = Some x → getitem l i = Ok x.
Proof. unfold getitem. by intros ->. Qed.

Lemma setitem_ok {A} (l : list A) i x :
  (i < length l)%nat → setitem l i x = Ok (<[i:=x]> l).
Proof. intros. unfold setitem. by rewrite decide_True. Qed.

Lemma tally_decr_ok (tally : gmap N Z) c t :
  tally !! c = Some t → WordleGame.tally_decr tally c = Ok (<[c := t - 1]> tally).
Proof. unfold WordleGame.tally_decr. by intros ->. Qed.

(** ** Wordle: the two passes *)

Lemma tally_init_lookup (s : pystr) (c : letter) :
  WordleGame.tally_init s !! c = if decide (c ∈ s) then Some (count c s) else None.
Proof.
  unfold WordleGame.tally_init.
  assert (∀ l (m : gmap N Z),
    foldl (λ tally x, <[x := count x s]> tally) m l !! c
    = if decide (c ∈ l) then Some (count c s) else m !! c) as Hgen.
  { induction l as [|x l IH] using rev_ind; intros m.
    - rewrite decide_False; [done|]. apply not_elem_of_nil.
    - rewrite foldl_app. cbn [foldl]. destruct (decide (x = c)) as [->|Hne].
      + rewrite lookup_insert_eq. rewrite decide_True; [done|].
        apply elem_of_app. right. apply list_elem_of_singleton. done.
      + rewrite lookup_insert_ne, IH by done. apply decide_ext.
        rewrite elem_of_app, list_elem_of_singleton.
        split; [auto|intros [?|?]; [done|congruence]]. }
  rewrite Hgen. by destruct (decide (c ∈ s)).
Qed.

Section wordle_passes.
Variables solution guess : pystr.
Hypothesis same_length : length guess = length solution.

Local Abbreviation n := (length solution).
Local Abbreviation exact := (exact_at solution guess).
Local Abbreviation credit := (credit_at guess).
Local Abbreviation pass1_inv := (pass1_inv solution guess).
Local Abbreviation pass2_inv := (pass2_inv solution guess).

Lemma pass1_inv_init :
  pass1_inv 0 (replicate (length solution) COLOR_ABSENT, WordleGame.tally_init solution).
Proof.
  split_and!; cbn [fst snd].
  - apply length_replicate.
  - intros j Hj. rewrite lookup_replicate_2 by done.
    rewrite decide_False; [done|lia].
  - intros c. rewrite tally_init_lookup.
    destruct (decide (c ∈ solution)); [|done]. rewrite hits_0. f_equal. lia.
Qed.

Lemma pass1_step i x st :
  guess !! i = Some x → pass1_inv i st →
  ∃ st', WordleGame.pass1_body solution st i x = Ok st' ∧ pass1_inv (S i) st'.
Proof.
  destruct st as [colors tally]. intros Hx (Hlen & Hcol & Htal). cbn [fst snd] in *.
  assert (i < n)%nat as Hi by (apply lookup_lt_Some in Hx; lia).
  destruct (lookup_lt_is_Some_2 solution i Hi) as [s_i Hs].
  unfold WordleGame.pass1_body. rewrite (getitem_ok _ _ _ Hs). res_simpl.
  destruct (decide (x = s_i)) as [<-|Hne].
  - rewrite setitem_ok by lia. res_simpl.
    erewrite tally_decr_ok; [|rewrite Htal, decide_True;
      [done|by eapply list_elem_of_lookup_2]]. res_simpl.
    eexists. split; [done|]. split_and!; cbn [fst snd].
    + by rewrite length_insert.
    + intros j Hj. destruct (decide (j = i)) as [->|Hji].
      * rewrite list_lookup_insert_eq by lia.
        rewrite decide_True; [done|]. split; [lia|congruence].
      * rewrite list_lookup_insert_ne, Hcol by done.
        f_equal. apply decide_ext. split; intros [? ?]; (split; [lia|done]).
    + intros c. destruct (decide (x = c)) as [<-|Hxc].
      * rewrite lookup_insert_eq.
        rewrite decide_True by (by eapply list_elem_of_lookup_2).
        rewrite hits_S, decide_True by done. f_equal. lia.
      * rewrite lookup_insert_ne, Htal, hits_S by done.
        rewrite (decide_False (P := exact c i)); [|intros [? ?]; congruence].
        destruct (decide (c ∈ solution)); [f_equal; lia|done].
  - eexists. split; [done|]. split_and!; cbn [fst snd]; [done|..].
    + intros j Hj. rewrite Hcol by done.
      f_equal. apply decide_ext. split; intros [? ?]; (split; [|done]); [lia|].
      destruct (decide (j = i)) as [->|?]; [congruence|lia].
    + intros c. rewrite Htal, hits_S.
      rewrite (decide_False (P := exact c i)); [|intros [? ?]; congruence].
      destruct (decide (c ∈ solution)); [f_equal; lia|done].
Qed.

Lemma pass1_ok :
  ∃ st1, WordleGame.pass1 solution guess = Ok st1 ∧ pass1_inv n st1.
Proof.
  rewrite <- same_length.
  apply for_enumerate_inv; [|apply pass1_inv_init].
  intros. by apply pass1_step.
Qed.

Lemma exact_le_count c : hits (exact c) n ≤ count c solution.
Proof.
  rewrite <- hits_count. apply hits_le. by intros i _ [_ ?].
Qed.

Lemma pass2_inv_init st1 : pass1_inv n st1 → pass2_inv 0 st1.
Proof.
  destruct st1 as [colors tally]. intros (Hlen & Hcol & Htal). cbn [fst snd] in *.
  split_and!; cbn [fst snd]; [done|..].
  - intros j Hj. rewrite Hcol by done.
    destruct (decide ((j < n)%nat ∧ _)) as [[? ?]|Hn]; split; try done.
    intros ?. exfalso. by apply Hn.
  - intros j _ Hp. destruct (decide (j < n)%nat) as [Hj|Hj].
    + rewrite Hcol in Hp by done. by destruct (decide _).
    + rewrite lookup_ge_None_2 in Hp by lia. done.
  - intros c. rewrite Htal. destruct (decide (c ∈ solution)); [|done].
    eexists. split; [done|]. pose proof (exact_le_count c). rewrite hits_0. lia.
Qed.

Lemma pass2_keep i x st :
  guess !! i = Some x → pass2_inv i st → pass2_inv (S i) st.
Proof.
  intros Hx (Hlen & Hcol & Hnp & Htal). split_and!; [done..| |].
  - intros j Hj. apply Hnp. lia.
  - intros c. specialize (Htal c). rewrite hits_S.
    rewrite (decide_False (P := credit st.1 c i)); [by rewrite Z.add_0_r|].
    intros [_ Hp]. by apply (Hnp i).
Qed.

Lemma pass2_step i x st :
  guess !! i = Some x → pass2_inv i st →
  ∃ st', WordleGame.pass2_body solution st i x = Ok st' ∧ pass2_inv (S i) st'.
Proof.
  intros Hx Hinv. pose proof (pass2_keep i x st Hx Hinv) as Hkeep.
  destruct st as [colors tally]. destruct Hinv as (Hlen & Hcol & Hnp & Htal).
  cbn [fst snd] in *.
  assert (i < n)%nat as Hi by (apply lookup_lt_Some in Hx; lia).
  destruct (lookup_lt_is_Some_2 solution i Hi) as [s_i Hs].
  unfold WordleGame.pass2_body. cbn [fst snd].
  destruct (tally !! x) as [t|] eqn:Ht; [|eauto].
  destruct (decide (0 < t)) as [Hpos|]; [|eauto].
  rewrite (getitem_ok _ _ _ Hs). res_simpl.
  destruct (decide (x ≠ s_i)) as [Hne|]; [|eauto].
  rewrite setitem_ok by lia. res_simpl.
  rewrite (tally_decr_ok _ _ _ Ht). res_simpl.
  eexists. split; [done|].
  assert (∀ c k, (k ≤ i)%nat →
    hits (credit (<[i:=COLOR_PRESENT]> colors) c) k = hits (credit colors c) k) as Hsame.
  { intros c k Hk. apply hits_ext. intros j Hj. unfold credit.
    by rewrite list_lookup_insert_ne by lia. }
  split_and!; cbn [fst snd].
  - by rewrite length_insert.
  - intros j Hj. destruct (decide (j = i)) as [->|Hji].
    + rewrite list_lookup_insert_eq by lia. split; [done|congruence].
    + rewrite list_lookup_insert_ne by done. by apply Hcol.
  - intros j Hj. rewrite list_lookup_insert_ne by lia. apply Hnp. lia.
  - intros c. specialize (Htal c). rewrite hits_S, Hsame by done.
    destruct (decide (x = c)) as [<-|Hxc].
    + rewrite lookup_insert_eq.
      rewrite (decide_True (P := credit _ x i)).
      2:{ split; [done|]. by rewrite list_lookup_insert_eq by lia. }
      destruct (decide (x ∈ solution)).
      * destruct Htal as (t' & Ht' & ? & ?). simplify_eq.
        eexists. split; [done|]. lia.
      * destruct Htal as [? _]. congruence.
    + rewrite lookup_insert_ne by done.
      rewrite (decide_False (P := credit _ c i)); [|intros [? _]; congruence].
      by rewrite Z.add_0_r.
Qed.

Lemma pass2_ok st1 :
  pass2_inv 0 st1 →
  ∃ st2, WordleGame.pass2 solution guess st1 = Ok st2 ∧ pass2_inv n st2.
Proof.
  intros H0. rewrite <- same_length.
  apply for_enumerate_inv; [|done]. intros. by apply pass2_step.
Qed.
End wordle_passes.

(** ** Wordle: the classification of a guess *)

(** C1. For a guess of the solution's length that is in the corpus, [guess]
    returns a picture whose colour list has the solution's length, is Correct
    at a position exactly when the letters agree there, and credits no letter
    (Correct or Present) more often than the solution contains it.  The first
    loop alone decides the Correct positions and gives no Present; the second
    loop then hands out the Present credit. *)
Theorem wordle_guess_classification
    (cp : Corpus) (self : WordleGame.t) (G : pystr) (r1 r2 r3 : nat) :
  let S := WordleGame.solution self in
  length G = length S →
  G ∈ all_words cp →
  ∃ rep self' colors st1 tally2,
    WordleGame.guess cp self G r1 r2 r3 = Ok (rep, self') ∧
    WordleGame.file_obj rep = Some {| img_word := G; img_colors := colors |} ∧
    length colors = length S ∧
    (∀ i, (i < length S)%nat → colors !! i = Some COLOR_CORRECT ↔ G !! i = S !! i) ∧
    (∀ c, credited c G colors ≤ count c S) ∧
    WordleGame.pass1 S G = Ok st1 ∧
    (∀ i, st1.1 !! i ≠ Some COLOR_PRESENT) ∧
    (∀ i, (i < length S)%nat → st1.1 !! i = Some COLOR_CORRECT ↔ G !! i = S !! i) ∧
    WordleGame.pass2 S G st1 = Ok (colors, tally2).
Proof.
  intros S Hlen Hin.
  destruct (pass1_ok S G Hlen) as (st1 & Hp1 & Hinv1).
  pose proof (pass2_inv_init S G Hlen st1 Hinv1) as Hinv2.
  destruct (pass2_ok S G Hlen st1 Hinv2) as ([colors tally2] & Hp2 & Hfin).
  destruct Hinv2 as (_ & Hc1 & Hnp1 & _).
  destruct Hfin as (Hl & Hcol & _ & Htal). cbn [fst snd] in *.
  assert (WordleGame.classify S G = Ok colors) as Hcl.
  { unfold WordleGame.classify. rewrite Hp1. res_simpl. rewrite Hp2. done. }
  assert (∀ c, credited c G colors ≤ count c S) as Hcred.
  { intros c. unfold credited. rewrite Hlen.
    rewrite (hits_ext _ (λ j, exact_at S G c j ∨ credit_at G colors c j)).
    2:{ intros j Hj. specialize (Hcol j Hj). split.
        - intros [Hg [Hc|Hp]]; [left|right]; split; try done.
          rewrite <- Hg. symmetry. by apply Hcol.
        - intros [[Hg Hs]|[Hg Hp]]; (split; [done|]); [left|by right].
          apply Hcol. congruence. }
    rewrite hits_or.
    2:{ intros j [Hg Hs] [_ Hp]. destruct (decide (j < length S)%nat) as [Hj|Hj].
        - assert (colors !! j = Some COLOR_CORRECT) by (apply Hcol; [done|congruence]).
          congruence.
        - rewrite lookup_ge_None_2 in Hs by lia. done. }
    specialize (Htal c). destruct (decide (c ∈ S)) as [Hc|Hc].
    - destruct Htal as (t & _ & Ht & Heq). rewrite <- Heq. lia.
    - destruct Htal as [_ ->].
      rewrite Z.add_0_r. apply exact_le_count. }
  assert (∀ i, st1.1 !! i ≠ Some COLOR_PRESENT) as Hnp
    by (intros i; apply Hnp1; lia).
  unfold WordleGame.guess. fold S.
  rewrite decide_False by (intros ?; done).
  rewrite decide_False by (intros ?; done).
  rewrite Hcl. res_simpl.
  destruct (decide (G ≠ S)).
  - eexists _, _, colors, st1, tally2. split_and!; done.
  - destruct (random_choice_ok r1 WordleGame.praise1) as (m1 & -> & _); [done|].
    destruct (random_choice_ok r2 WordleGame.praise2) as (m2 & -> & _); [done|].
    destruct (random_choice_ok r3 WordleGame.smileys) as (m3 & -> & _); [done|].
    res_simpl. eexists _, _, colors, st1, tally2. split_and!; done.
Qed.

Lemma wordle_guess_classification_witness :
  ∃ rep self' colors st1 tally2,
    WordleGame.guess wordle_corpus wordle_game slava 0 0 0 = Ok (rep, self') ∧
    WordleGame.file_obj rep = Some {| img_word := slava; img_colors := colors |} ∧
    length colors = length slovo ∧
    (∀ i, (i < length slovo)%nat →
       colors !! i = Some COLOR_CORRECT ↔ slava !! i = slovo !! i) ∧
    (∀ c, credited c slava colors ≤ count c slovo) ∧
    WordleGame.pass1 slovo slava = Ok st1 ∧
    (∀ i, st1.1 !! i ≠ Some COLOR_PRESENT) ∧
    (∀ i, (i < length slovo)%nat →
       st1.1 !! i = Some COLOR_CORRECT ↔ slava !! i = slovo !! i) ∧
    WordleGame.pass2 slovo slava st1 = Ok (colors, tally2).
Proof.
  apply (wordle_guess_classification wordle_corpus wordle_game slava 0 0 0).
  - reflexivity.
  - simpl. apply list_elem_of_here.
Defined.

(** ** Spelling Bee: the puzzle of a fresh game *)

Lemma count_nonneg c s : 0 ≤ count c s.
Proof. unfold count. lia. Qed.

Lemma count_pos c s : c ∈ s ↔ 0 < count c s.
Proof.
  unfold count. induction s as [|x s IH].
  - split; [by intros ?%elem_of_nil|simpl; lia].
  - rewrite filter_cons, elem_of_cons. destruct (decide (x = c)) as [->|Hne].
    + simpl. split; [lia|auto].
    + rewrite <- IH. split; [intros [?|?]; [congruence|done]|auto].
Qed.

Lemma code_qualifies root word :
  (MIN_LENGTH ≤ length word ≤ MAX_LENGTH)%nat ∧
  SpellingGame.letters_known root word ∧ ¬ SpellingGame.letter_overused root word
  ↔ qualifies root word.
Proof.
  unfold qualifies, SpellingGame.letters_known, SpellingGame.letter_overused.
  rewrite Forall_forall, Exists_exists. split.
  - intros (Hlen & Hknown & Hover). split; [done|]. split; [done|].
    intros l. destruct (decide (l ∈ root)) as [Hl|Hl].
    + destruct (decide (count l word ≤ count l root)) as [|Hgt]; [done|].
      exfalso. apply Hover. exists l. split; [done|lia].
    + assert (¬ 0 < count l word) by (rewrite <- count_pos; auto).
      pose proof (count_nonneg l root). lia.
  - intros (Hlen & Hknown & Hcount). split; [done|]. split; [done|].
    intros (l & _ & Hlt). specialize (Hcount l). lia.
Qed.

Lemma dict_fromkeys_lookup l w :
  SpellingGame.dict_fromkeys l !! w = if decide (w ∈ l) then Some None else None.
Proof.
  unfold SpellingGame.dict_fromkeys. destruct (decide (w ∈ l)) as [Hw|Hw].
  - destruct (list_to_map ((λ w0, (w0, None)) <$> l) !! w) as [a|] eqn:Hl.
    + apply elem_of_list_to_map_2, list_elem_of_fmap in Hl as (? & ? & _).
      by simplify_eq.
    + apply not_elem_of_list_to_map_2 in Hl. exfalso. apply Hl.
      rewrite <- list_fmap_compose. apply list_elem_of_fmap. eauto.
  - apply not_elem_of_list_to_map_1. rewrite <- list_fmap_compose.
    intros (? & ? & ?)%list_elem_of_fmap. by simplify_eq.
Qed.

(** What the loop over [all_words] leaves in the two lists. *)
Lemma sort_words_spec cp root l acc w :
  let out := foldl (SpellingGame.sort_word cp root) acc l in
  (w ∈ out.1 ↔ w ∈ acc.1 ∨ (w ∈ l ∧ qualifies root w ∧ w ∈ common_words cp)) ∧
  (w ∈ out.2 ↔ w ∈ acc.2 ∨ (w ∈ l ∧ qualifies root w ∧ w ∉ common_words cp)).
Proof.
  revert acc. induction l as [|x l IH]; intros acc; cbn [foldl].
  - split; (split; [auto|intros [?|[?%elem_of_nil _]]; done]).
  - destruct (IH (SpellingGame.sort_word cp root acc x)) as [IH1 IH2].
    cbv zeta. rewrite IH1, IH2. clear IH IH1 IH2.
    pose proof (code_qualifies root x) as Hq.
    unfold SpellingGame.sort_word.
    destruct (decide (¬ (MIN_LENGTH ≤ length x ≤ MAX_LENGTH)%nat)) as [Hlen|Hlen].
    { assert (¬ qualifies root x) by (intros [? _]; done).
      split; rewrite elem_of_cons; naive_solver. }
    apply dec_stable in Hlen.
    destruct (decide (SpellingGame.letters_known root x)) as [Hk|Hk].
    2:{ assert (¬ qualifies root x) by (rewrite <- Hq; tauto).
        split; rewrite elem_of_cons; naive_solver. }
    destruct (decide (SpellingGame.letter_overused root x)) as [Ho|Ho].
    { assert (¬ qualifies root x) by (rewrite <- Hq; tauto).
      split; rewrite elem_of_cons; naive_solver. }
    assert (qualifies root x) by (rewrite <- Hq; tauto).
    destruct (decide (x ∈ common_words cp)); cbn [fst snd];
      split; rewrite ?elem_of_app, ?list_elem_of_singleton, elem_of_cons;
      naive_solver.
Qed.

(** The two maps of a fresh game are [dict.fromkeys] of the two lists the
    loop has built. *)
Lemma fresh_game_maps
    (cp : Corpus) (utc_offset now_us : Z) (r : nat) (g : SpellingGame.t) :
  SpellingGame.fresh cp utc_offset now_us r = Ok g →
  ∃ solution_words acceptable_words,
    SpellingGame.words g = SpellingGame.dict_fromkeys solution_words ∧
    SpellingGame.other_words g = SpellingGame.dict_fromkeys acceptable_words ∧
    (∀ W, W ∈ solution_words ↔
          W ∈ all_words cp ∧ qualifies (SpellingGame.root_word g) W ∧
          W ∈ common_words cp) ∧
    (∀ W, W ∈ acceptable_words ↔
          W ∈ all_words cp ∧ qualifies (SpellingGame.root_word g) W ∧
          W ∉ common_words cp).
Proof.
  unfold SpellingGame.fresh. intros Hfresh.
  destruct (getitem (common_words_by_length cp) 10) as [bucket|]; [|done].
  res_simpl in Hfresh.
  destruct (random_choice r bucket) as [root|]; [|done].
  res_simpl in Hfresh. injection Hfresh as <-. cbn.
  eexists _, _. split; [done|]. split; [done|]. split; intros W.
  - destruct (sort_words_spec cp root (all_words cp) ([], []) W) as [-> _].
    cbn [fst]. split; [intros [?%elem_of_nil|?]; done|auto].
  - destruct (sort_words_spec cp root (all_words cp) ([], []) W) as [_ ->].
    cbn [snd]. split; [intros [?%elem_of_nil|?]; done|auto].
Qed.

(** C2. In a fresh Spelling-Bee game a word is in one of the two maps
    exactly when it is a corpus word that qualifies for the root; a
    qualifying corpus word is a solution word if it is in the common list and
    a bonus word otherwise, never both; and every entry is unclaimed. *)
Theorem spelling_fresh_partition
    (cp : Corpus) (utc_offset now_us : Z) (r : nat) (g : SpellingGame.t) :
  SpellingGame.fresh cp utc_offset now_us r = Ok g →
  let R := SpellingGame.root_word g in
  let placed W := is_Some (SpellingGame.words g !! W) ∨
                  is_Some (SpellingGame.other_words g !! W) in
  (∀ W, placed W ↔ W ∈ all_words cp ∧ qualifies R W) ∧
  (∀ W, W ∈ all_words cp → qualifies R W → W ∈ common_words cp →
        SpellingGame.words g !! W = Some None ∧ SpellingGame.other_words g !! W = None) ∧
  (∀ W, W ∈ all_words cp → qualifies R W → W ∉ common_words cp →
        SpellingGame.other_words g !! W = Some None ∧ SpellingGame.words g !! W = None) ∧
  (∀ W a, SpellingGame.words g !! W = Some a → a = None) ∧
  (∀ W a, SpellingGame.other_words g !! W = Some a → a = None).
Proof.
  intros Hfresh R placed. subst placed.
  destruct (fresh_game_maps cp utc_offset now_us r g Hfresh)
    as (sols & bonus & -> & -> & H1 & H2).
  fold R in H1, H2. split_and!.
  - intros W. rewrite !dict_fromkeys_lookup.
    destruct (decide (W ∈ sols)) as [Hin1|Hin1], (decide (W ∈ bonus)) as [Hin2|Hin2];
      rewrite ?H1, ?H2 in *.
    + split; [tauto|eauto].
    + split; [tauto|eauto].
    + split; [tauto|eauto].
    + split.
      * intros [[? ?]|[? ?]]; done.
      * intros [? ?]. destruct (decide (W ∈ common_words cp)); tauto.
  - intros W ? ? ?. rewrite !dict_fromkeys_lookup.
    rewrite decide_True by (apply H1; auto).
    rewrite decide_False; [done|]. rewrite H2. tauto.
  - intros W ? ? ?. rewrite !dict_fromkeys_lookup.
    rewrite decide_True by (apply H2; auto).
    rewrite decide_False; [done|]. rewrite H1. tauto.
  - intros W a. rewrite dict_fromkeys_lookup. destruct (decide _); congruence.
  - intros W a. rewrite dict_fromkeys_lookup. destruct (decide _); congruence.
Qed.

Lemma spelling_fresh_partition_witness :
  ∃ g, SpellingGame.fresh bee_corpus 0 0 0 = Ok g ∧
    let R := SpellingGame.root_word g in
    let placed W := is_Some (SpellingGame.words g !! W) ∨
                    is_Some (SpellingGame.other_words g !! W) in
    (∀ W, placed W ↔ W ∈ all_words bee_corpus ∧ qualifies R W) ∧
    (∀ W, W ∈ all_words bee_corpus → qualifies R W → W ∈ common_words bee_corpus →
          SpellingGame.words g !! W = Some None ∧ SpellingGame.other_words g !! W = None) ∧
    (∀ W, W ∈ all_words bee_corpus → qualifies R W → W ∉ common_words bee_corpus →
          SpellingGame.other_words g !! W = Some None ∧ SpellingGame.words g !! W = None) ∧
    (∀ W a, SpellingGame.words g !! W = Some a → a = None) ∧
    (∀ W a, SpellingGame.other_words g !! W = Some a → a = None).
Proof.
  eexists. split.
  - vm_compute. reflexivity.
  - apply (spelling_fresh_partition bee_corpus 0 0 0). vm_compute. reflexivity.
Defined.

(** ** Spelling Bee: claiming words *)

Section spelling_guess.
Variable cp : Corpus.
Import SpellingGame.

(** The cases of [guess]. *)
Lemma guess_cases (g : t) (w : pystr) (a : Z) :
  (∃ b, words g !! w = Some (Some b) ∧ guess cp g w a = (u "🔁", g)) ∨
  (words g !! w = Some None ∧
     ∃ g', guess cp g w a = (u "✅", g') ∧
           words g' = <[w := Some a]> (words g) ∧
           other_words g' = other_words g ∧
           (all_values (words g') ∧ state g' = FINISHED ∨
            ¬ all_values (words g') ∧ state g' = state g)) ∨
  (words g !! w = None ∧
     ((∃ b, other_words g !! w = Some (Some b) ∧ guess cp g w a = (u "🔁", g)) ∨
      (other_words g !! w = Some None ∧
         ∃ g', guess cp g w a = (u "📚", g') ∧ words g' = words g ∧
               other_words g' = <[w := Some a]> (other_words g) ∧
               state g' = state g) ∨
      (other_words g !! w = None ∧
         (guess cp g w a = (u "❎", g) ∨ guess cp g w a = (u "❓", g))))).
Proof.
  unfold guess.
  destruct (words g !! w) as [[b|]|] eqn:Hw.
  - left. eauto.
  - right. left. split; [done|].
    destruct (decide (all_values _)) as [Hall|Hall];
      eexists; (split; [done|]); cbn; auto.
  - right. right. split; [done|].
    destruct (other_words g !! w) as [[b|]|] eqn:Ho.
    + left. eauto.
    + right. left. split; [done|]. eexists. split; [done|]. cbn. auto.
    + right. right. split; [done|]. destruct (decide (w ∈ all_words cp)); auto.
Qed.

Lemma guess_keeps_finished (g : t) (w : pystr) (a : Z) :
  state g = FINISHED → state (guess cp g w a).2 = FINISHED.
Proof.
  intros Hfin.
  destruct (guess_cases g w a) as
    [(b & _ & ->)|[(_ & g' & -> & _ & _ & [[_ ?]|[_ ?]])
      |(_ & [(b & _ & ->)|[(_ & g' & -> & _ & _ & ?)|(_ & [-> | ->])]])]];
    cbn [snd]; congruence.
Qed.

Lemma guess_invariant (g : t) (w : pystr) (a : Z) :
  a ≠ 0 →
  (state g = FINISHED ↔ solved g) ∧ ids_nonzero g →
  let g' := (guess cp g w a).2 in
  (state g' = FINISHED ↔ solved g') ∧ ids_nonzero g'.
Proof.
  intros Ha [Hiff Hnz].
  destruct (guess_cases g w a) as
    [(b & _ & ->)|[(Hw & g' & -> & Hws & _ & Hst)
      |(_ & [(b & _ & ->)|[(_ & g' & -> & Hws & _ & Hst)|(_ & [-> | ->])]])]];
    cbn [snd]; try done.
  - assert (ids_nonzero g') as Hnz'.
    { unfold ids_nonzero. rewrite Hws. apply map_Forall_insert_2; [congruence|done]. }
    split; [|done]. destruct Hst as [[Hall ->]|[Hall ->]].
    + split; [intros _|done]. intros k v Hk Hv. subst v.
      by apply (Hall k None).
    + assert (¬ solved g) as Hns.
      { intros Hs. by apply (Hs w None). }
      assert (¬ solved g') as Hns'.
      { intros Hs. apply Hall. intros k v Hk.
        destruct v as [z|]; [|by apply (Hs k None)].
        cbn. intros ->. by apply (Hnz' k (Some 0)). }
      tauto.
  - unfold solved, ids_nonzero. rewrite Hws, Hst. done.
Qed.

Lemma run_snoc (g : t) calls call :
  run cp g (calls ++ [call]) = (guess cp (run cp g calls) call.1 call.2).2.
Proof. unfold run. by rewrite foldl_app. Qed.
End spelling_guess.

(** C3 (as amended). Start from a Continue state in which some solution
    word is still unclaimed and no recorded id is zero, and let contributors
    with non-zero ids guess.  After every call the state is Finished exactly
    when every solution word has an attribution; a call that claims a bonus
    word leaves the state as it was; and from a Finished state no call leads
    anywhere else. *)
Theorem spelling_completion
    (cp : Corpus) (g : SpellingGame.t) (calls : list (pystr * Z)) :
  SpellingGame.state g = CONTINUE →
  (∃ w, SpellingGame.words g !! w = Some None) →
  ids_nonzero g →
  Forall (λ call, call.2 ≠ 0) calls →
  let h := run cp g calls in
  (SpellingGame.state h = FINISHED ↔ solved h) ∧
  (∀ w a, (SpellingGame.guess cp h w a).1 = u "📚" →
          SpellingGame.state (SpellingGame.guess cp h w a).2 = SpellingGame.state h) ∧
  (SpellingGame.state h = FINISHED →
   ∀ w a, SpellingGame.state (SpellingGame.guess cp h w a).2 = FINISHED).
Proof.
  intros Hcont [w0 Hw0] Hnz Hcalls h.
  assert ((SpellingGame.state h = FINISHED ↔ solved h) ∧ ids_nonzero h) as [Hiff _].
  { subst h. induction calls as [|call calls IH] using rev_ind.
    - cbn. split; [|done]. split.
      + rewrite Hcont. done.
      + intros Hs. exfalso. by apply (Hs w0 None).
    - apply Forall_app in Hcalls as [Hcalls Hcall].
      rewrite run_snoc. apply guess_invariant; [|by apply IH].
      by inversion Hcall. }
  split; [done|]. split.
  - intros w a Hbonus.
    destruct (guess_cases cp h w a) as
      [(b & _ & Heq)|[(_ & g' & Heq & _)
        |(_ & [(b & _ & Heq)|[(_ & g' & Heq & _ & _ & ?)|(_ & [Heq | Heq])]])]];
      rewrite Heq in *; cbn [fst snd] in *; done.
  - intros Hfin w a. by apply guess_keeps_finished.
Qed.

Lemma bee_game_fresh : SpellingGame.fresh bee_corpus 0 0 0 = Ok bee_game.
Proof. vm_compute. reflexivity. Qed.

Lemma spelling_completion_witness :
  let h := run bee_corpus bee_game [(kot, 7); (kit, 8); (leto, 9)] in
  (SpellingGame.state h = FINISHED ↔ solved h) ∧
  (∀ w a, (SpellingGame.guess bee_corpus h w a).1 = u "📚" →
          SpellingGame.state (SpellingGame.guess bee_corpus h w a).2
          = SpellingGame.state h) ∧
  (SpellingGame.state h = FINISHED →
   ∀ w a, SpellingGame.state (SpellingGame.guess bee_corpus h w a).2 = FINISHED).
Proof.
  apply (spelling_completion bee_corpus bee_game [(kot, 7); (kit, 8); (leto, 9)]).
  - reflexivity.
  - exists kot. vm_compute. reflexivity.
  - apply (bool_decide_unpack _). vm_compute. reflexivity.
  - repeat constructor; cbn; lia.
Defined.

(** C3 as stated fails.  After [shuffle] has handed every solution word to
    a roster id, the game is still in Continue, and a further guess finds the
    word claimed and returns before the completion test.  A contributor
    whose id is [0] claims a word without ever completing the puzzle. *)
Lemma spelling_completion_counterexample :
  (let g := SpellingGame.shuffle (λ _, Some 3) bee_game in
   SpellingGame.state g = CONTINUE ∧
   SpellingGame.guess bee_corpus g kot 42 = (u "🔁", g) ∧
   solved g ∧ SpellingGame.state g ≠ FINISHED) ∧
  (let h := run bee_corpus bee_game [(kot, 0); (leto, 5)] in
   solved h ∧ SpellingGame.state h = CONTINUE).
Proof.
  split; cbv zeta.
  - split_and!.
    + reflexivity.
    + vm_compute. reflexivity.
    + apply (bool_decide_unpack _). vm_compute. reflexivity.
    + vm_compute. discriminate.
  - split.
    + apply (bool_decide_unpack _). vm_compute. reflexivity.
    + vm_compute. reflexivity.
Qed.

(** ** Spelling Bee: the two maps stay apart *)

Lemma fresh_disjoint cp utc_offset now_us r g :
  SpellingGame.fresh cp utc_offset now_us r = Ok g →
  SpellingGame.words g ##ₘ SpellingGame.other_words g.
Proof.
  intros Hfresh. apply map_disjoint_spec. intros w a b.
  destruct (fresh_game_maps cp utc_offset now_us r g Hfresh)
    as (sols & bonus & -> & -> & H1 & H2).
  rewrite !dict_fromkeys_lookup.
  destruct (decide (w ∈ sols)) as [Hs|]; [|done].
  destruct (decide (w ∈ bonus)) as [Hb|]; [|done].
  apply H1 in Hs. apply H2 in Hb. tauto.
Qed.

Lemma guess_disjoint cp g w a :
  SpellingGame.words g ##ₘ SpellingGame.other_words g →
  SpellingGame.words (SpellingGame.guess cp g w a).2
    ##ₘ SpellingGame.other_words (SpellingGame.guess cp g w a).2.
Proof.
  intros Hd.
  destruct (guess_cases cp g w a) as
    [(b & _ & ->)|[(Hw & g' & -> & Hws & Hos & _)
      |(Hw & [(b & _ & ->)|[(Ho & g' & -> & Hws & Hos & _)|(_ & [-> | ->])]])]];
    cbn [snd]; try done; rewrite Hws, Hos.
  - apply map_disjoint_insert_l_2; [|done].
    destruct (SpellingGame.other_words g !! w) eqn:Ho; [|done].
    exfalso. eapply map_disjoint_spec; eauto.
  - by apply map_disjoint_insert_r_2.
Qed.

Lemma shuffle_disjoint draw g :
  SpellingGame.words g ##ₘ SpellingGame.other_words g →
  SpellingGame.words (SpellingGame.shuffle draw g)
    ##ₘ SpellingGame.other_words (SpellingGame.shuffle draw g).
Proof.
  rewrite !map_disjoint_spec. intros Hd w a b. cbn.
  rewrite map_lookup_imap. destruct (SpellingGame.words g !! w) eqn:Hw; [|done].
  intros _ Ho. eapply Hd; eauto.
Qed.

(** C4. In a game whose two maps share no word (as in every game built by
    the constructor and changed by [guess] and [shuffle]), guessing a word
    whose solution or bonus slot is already attributed returns the
    already-claimed signal and leaves the whole game as it was, whoever
    guesses. *)
Theorem spelling_claimed_idempotent
    (cp : Corpus) (g : SpellingGame.t) (W : pystr) (who : Z) :
  SpellingGame.words g ##ₘ SpellingGame.other_words g →
  (∃ a, SpellingGame.words g !! W = Some (Some a)) ∨
  (∃ a, SpellingGame.other_words g !! W = Some (Some a)) →
  SpellingGame.guess cp g W who = (u "🔁", g).
Proof.
  intros Hd Hclaimed. unfold SpellingGame.guess.
  destruct Hclaimed as [[a Ha]|[a Ha]].
  - by rewrite Ha.
  - destruct (SpellingGame.words g !! W) as [b|] eqn:Hw.
    + exfalso. eapply map_disjoint_spec; eauto.
    + by rewrite Ha.
Qed.

Lemma spelling_claimed_idempotent_witness :
  let g := run bee_corpus bee_game [(kit, 8)] in
  SpellingGame.guess bee_corpus g kit 9 = (u "🔁", g).
Proof.
  apply (spelling_claimed_idempotent bee_corpus
           (run bee_corpus bee_game [(kit, 8)]) kit 9).
  - apply (bool_decide_unpack _). vm_compute. reflexivity.
  - right. exists 8. vm_compute. reflexivity.
Defined.

(** ** Spelling Bee: scoring *)

Section scoring.
Variable guild : Guild.
Import SpellingGame.

Lemma cohort_score_cons c a ids :
  cohort_score guild c (a :: ids)
  = (if decide (cohort_of guild a = Some c) then 1 else 0) + cohort_score guild c ids.
Proof.
  unfold cohort_score. rewrite filter_cons.
  destruct (decide (cohort_of guild a = Some c)); cbn [length]; lia.
Qed.

Local Ltac tally_done :=
  eexists; split; [done|];
  split; (destruct (decide (_ = Some _)) as [?|?]; simplify_eq; cbn; lia).

Lemma score_one_ok s a :
  in_roster a →
  ∃ s', score_one guild s a = Ok s' ∧
    natives_score s' = natives_score s
      + (if decide (cohort_of guild a = Some Natives) then 1 else 0) ∧
    learners_score s' = learners_score s
      + (if decide (cohort_of guild a = Some Learners) then 1 else 0).
Proof.
  intros Hroster. unfold score_one, cohort_of.
  destruct a as [id|]; [|tally_done].
  destruct (decide (id = 0)); [tally_done|].
  destruct Hroster as [Hn Hl].
  destruct (decide (1 ≤ id < 20)) as [Hr|].
  { destruct (lookup_lt_is_Some_2 NATIVE_NAMES (Z.to_nat (id - 1))) as [who Hwho].
    { cbn. specialize (Hn Hr). lia. }
    rewrite (getitem_ok _ _ _ Hwho). res_simpl. tally_done. }
  destruct (decide (101 ≤ id < 120)) as [Hr|].
  { destruct (lookup_lt_is_Some_2 LEARNER_NAMES (Z.to_nat (id - 101))) as [who Hwho].
    { cbn. specialize (Hl Hr). lia. }
    rewrite (getitem_ok _ _ _ Hwho). res_simpl. tally_done. }
  destruct (guild id) as [member|]; [|tally_done].
  destruct (decide (Exists _ _)); tally_done.
Qed.

Lemma score_all_ok ids s :
  Forall in_roster ids →
  ∃ s', score_all guild s ids = Ok s' ∧
    natives_score s' = natives_score s + cohort_score guild Natives ids ∧
    learners_score s' = learners_score s + cohort_score guild Learners ids.
Proof.
  revert s. induction ids as [|a ids IH]; intros s Hroster.
  - exists s. unfold cohort_score. cbn. split; [done|lia].
  - apply Forall_cons in Hroster as [Ha Hids].
    destruct (score_one_ok s a Ha) as (s1 & H1 & Hn1 & Hl1).
    destruct (IH s1 Hids) as (s' & H' & Hn' & Hl').
    exists s'. cbn [score_all]. rewrite H1. res_simpl.
    rewrite !cohort_score_cons. split; [done|lia].
Qed.

Lemma winners_and_losers_returns (g : t) :
  Forall in_roster ((map_to_list (other_words g ∪ words g)).*2) →
  ∃ result, winners_and_losers g guild = Ok result.
Proof.
  intros Hroster. unfold winners_and_losers.
  destruct (score_all_ok ((map_to_list (other_words g ∪ words g)).*2)
              {| learners_score := 0; learners := ∅; natives_score := 0; natives := ∅ |}
              Hroster) as (s & -> & _).
  res_simpl. repeat destruct (decide _); eauto.
Qed.
End scoring.




(** The rosters cover what the program itself records in the reserved
    ranges: [shuffle] draws its ids inside them, and a guess records the
    author's id. *)
Lemma shuffle_id_in_roster (k c : nat) :
  in_roster (Some (1 + Z.of_nat (k mod 5)
                   + (if decide (c mod 2 = 0)%nat then 0 else 100))).
Proof.
  pose proof (Nat.mod_upper_bound k 5). cbn [in_roster].
  destruct (decide _); lia.
Qed.

Lemma game_in_roster_ids (g : SpellingGame.t) :
  game_in_roster g →
  Forall in_roster
    ((map_to_list (SpellingGame.other_words g ∪ SpellingGame.words g)).*2).
Proof.
  intros [Hw Ho]. apply Forall_forall. intros a Ha.
  apply list_elem_of_fmap in Ha as ([k a'] & -> & Hka).
  apply elem_of_map_to_list in Hka. cbn [snd].
  apply lookup_union_Some_raw in Hka as [Hka|[_ Hka]].
  - by apply (Ho k).
  - by apply (Hw k).
Qed.

Lemma guess_in_roster cp g w a :
  in_roster (Some a) → game_in_roster g →
  game_in_roster (SpellingGame.guess cp g w a).2.
Proof.
  intros Ha [Hw Ho].
  destruct (guess_cases cp g w a) as
    [(b & _ & ->)|[(_ & g' & -> & Hws & Hos & _)
      |(_ & [(b & _ & ->)|[(_ & g' & -> & Hws & Hos & _)|(_ & [-> | ->])]])]];
    cbn [snd]; try done; unfold game_in_roster; rewrite Hws, Hos; split; try done;
    by apply map_Forall_insert_2.
Qed.

(** ** Spelling Bee: the deadline *)




(** ** The corpus *)

Lemma str_index_ok c s : c ∈ s → ∃ i, str_index c s = Ok i.
Proof.
  induction s as [|x s IH]; [by intros ?%elem_of_nil|].
  intros Hc. cbn [str_index]. destruct (decide (x = c)); [eauto|].
  apply elem_of_cons in Hc as [?|Hc]; [congruence|].
  destruct (IH Hc) as [i ->]. cbn. eauto.
Qed.

Lemma collation_key_ok w :
  Forall (λ c, c ∈ ALPHABET) w → ∃ k, collation_key w = Ok k.
Proof.
  induction 1 as [|c w Hc _ [k IH]]; [by eexists|].
  cbn [collation_key]. destruct (str_index_ok c ALPHABET Hc) as [i ->].
  res_simpl. rewrite IH. res_simpl. eauto.
Qed.

Lemma decorate_words l d : decorate l = Ok d → d.*2 = l.
Proof.
  revert d. induction l as [|w l IH]; intros d; cbn [decorate].
  - by intros [= <-].
  - destruct (collation_key w) as [k|]; [|done]. res_simpl.
    destruct (decorate l) as [d'|]; [|done]. res_simpl.
    intros [= <-]. cbn. by rewrite (IH d').
Qed.

Lemma decorate_ok l :
  Forall (Forall (λ c, c ∈ ALPHABET)) l → ∃ d, decorate l = Ok d.
Proof.
  induction 1 as [|w l Hw _ [d IH]]; [by eexists|].
  cbn [decorate]. destruct (collation_key_ok w Hw) as [k ->].
  res_simpl. rewrite IH. res_simpl. eauto.
Qed.

Lemma sort_by_alphabet_perm l l' : sort_by_alphabet l = Ok l' → l' ≡ₚ l.
Proof.
  unfold sort_by_alphabet. destruct (decorate l) as [d|] eqn:Hd; [|done].
  res_simpl. intros [= <-]. rewrite merge_sort_Permutation.
  by rewrite (decorate_words _ _ Hd).
Qed.

Lemma sort_by_alphabet_ok l :
  Forall (Forall (λ c, c ∈ ALPHABET)) l → ∃ l', sort_by_alphabet l = Ok l'.
Proof.
  intros Hl. unfold sort_by_alphabet. destruct (decorate_ok l Hl) as [d ->].
  res_simpl. eauto.
Qed.

Lemma dict_fromkeys_list_elem l w : w ∈ dict_fromkeys_list l ↔ w ∈ l.
Proof.
  induction l as [|x l IH]; [done|]. cbn [dict_fromkeys_list].
  rewrite !elem_of_cons, list_elem_of_filter, IH.
  destruct (decide (w = x)); naive_solver.
Qed.

Lemma dict_fromkeys_list_NoDup l : NoDup (dict_fromkeys_list l).
Proof.
  induction l as [|x l IH]; [constructor|]. cbn [dict_fromkeys_list].
  constructor; [|by apply NoDup_filter].
  rewrite list_elem_of_filter. naive_solver.
Qed.

Lemma remove_first_elem {A} `{EqDecision A} (x w : A) l :
  NoDup l → w ∈ remove_first x l ↔ w ∈ l ∧ w ≠ x.
Proof.
  induction 1 as [|y l Hy Hl IH]; cbn [remove_first].
  - rewrite elem_of_nil. naive_solver.
  - destruct (decide (y = x)) as [->|Hne]; rewrite ?elem_of_cons, ?IH.
    + split; [|naive_solver]. intros Hw. split; [auto|]. by intros ->.
    + naive_solver.
Qed.

Lemma remove_first_NoDup {A} `{EqDecision A} (x : A) l :
  NoDup l → NoDup (remove_first x l).
Proof.
  induction 1 as [|y l Hy Hl IH]; cbn [remove_first]; [constructor|].
  destruct (decide (y = x)); [done|]. constructor; [|done].
  rewrite remove_first_elem by done. naive_solver.
Qed.

Lemma remove_all_elem (removed l : list pystr) w :
  NoDup l →
  w ∈ foldl (λ cw r, remove_first r cw) l removed ↔ w ∈ l ∧ w ∉ removed.
Proof.
  revert l. induction removed as [|x removed IH]; intros l Hl; cbn [foldl].
  - rewrite elem_of_nil. naive_solver.
  - rewrite IH by (by apply remove_first_NoDup).
    rewrite remove_first_elem, elem_of_cons by done. naive_solver.
Qed.

(** C9 as stated fails: a word on the removed-words list is still in the
    merged list; the list only takes it out of the target words. *)
Lemma corpus_denylist_counterexample :
  ∃ cp, load_corpus [kot; leto] [kit; kot] [kot] = Ok cp ∧
        all_words cp = [kit; kot; leto] ∧
        common_words cp = [leto] ∧
        kot ∈ [kot] ∧ kot ∈ all_words cp.
Proof.
  eexists. split; [vm_compute; reflexivity|].
  split_and!; [reflexivity..| |]; repeat constructor.
Qed.

(** The loading code returns for word files over the alphabet. *)
Lemma load_corpus_returns (twentythousandwords wiktionary_ru removed_words : list pystr) :
  Forall (Forall (λ c, c ∈ ALPHABET)) twentythousandwords →
  Forall (Forall (λ c, c ∈ ALPHABET)) wiktionary_ru →
  ∃ cp, load_corpus twentythousandwords wiktionary_ru removed_words = Ok cp.
Proof.
  intros Hcommon Hall. unfold load_corpus.
  destruct (sort_by_alphabet_ok _ Hcommon) as [common0 Hc0].
  pose proof (sort_by_alphabet_perm _ _ Hc0) as Hp0.
  rewrite Hc0. res_simpl.
  destruct (sort_by_alphabet_ok (dict_fromkeys_list (wiktionary_ru ++ common0)))
    as [all Ha].
  { apply Forall_forall. intros w Hw.
    apply (proj1 (dict_fromkeys_list_elem _ _)) in Hw.
    apply elem_of_app in Hw as [Hw|Hw].
    - by eapply Forall_forall in Hall.
    - rewrite Hp0 in Hw. by eapply Forall_forall in Hcommon. }
  rewrite Ha. res_simpl. eauto.
Qed.

(** C9 (as amended). After loading, the merged list has no duplicates and
    holds exactly the words of the two files; the removed-words list does
    not touch it.  The removed words are taken out of the target list: with
    a target file free of duplicates, the target list holds exactly the
    file's words that are not on the removed-words list. *)
Theorem corpus_merge
    (twentythousandwords wiktionary_ru removed_words : list pystr) (cp : Corpus) :
  load_corpus twentythousandwords wiktionary_ru removed_words = Ok cp →
  NoDup (all_words cp) ∧
  (∀ w, w ∈ all_words cp ↔ w ∈ wiktionary_ru ∨ w ∈ twentythousandwords) ∧
  (NoDup twentythousandwords →
   ∀ w, w ∈ common_words cp ↔ w ∈ twentythousandwords ∧ w ∉ removed_words).
Proof.
  unfold load_corpus. intros Hload.
  destruct (sort_by_alphabet twentythousandwords) as [common0|] eqn:Hc0; [|done].
  pose proof (sort_by_alphabet_perm _ _ Hc0) as Hp0. res_simpl in Hload.
  destruct (sort_by_alphabet (dict_fromkeys_list (wiktionary_ru ++ common0)))
    as [all|] eqn:Ha; [|done].
  pose proof (sort_by_alphabet_perm _ _ Ha) as Hpa. res_simpl in Hload.
  injection Hload as <-. cbn. split_and!.
  - rewrite Hpa. apply dict_fromkeys_list_NoDup.
  - intros w. rewrite Hpa, dict_fromkeys_list_elem, elem_of_app, Hp0. done.
  - intros Hnd w. rewrite remove_all_elem by (by rewrite Hp0).
    by rewrite Hp0.
Qed.

Lemma corpus_merge_witness :
  ∃ cp, load_corpus [kot; leto] [kit; kot] [kot] = Ok cp ∧
    NoDup (all_words cp) ∧
    (∀ w, w ∈ all_words cp ↔ w ∈ [kit; kot] ∨ w ∈ [kot; leto]) ∧
    (NoDup [kot; leto] →
     ∀ w, w ∈ common_words cp ↔ w ∈ [kot; leto] ∧ w ∉ [kot]).
Proof.
  eexists. split.
  - vm_compute. reflexivity.
  - apply (corpus_merge [kot; leto] [kit; kot] [kot]). vm_compute. reflexivity.
Defined.

(** ** Snapshots: writing a game and loading it again *)

Lemma attributions_roundtrip (l : list (list N * option Z)) :
  attributions_of_json (prod_map id attribution_to_json <$> l) = Some l.
Proof.
  induction l as [|[k a] l IH]; [done|].
  cbn [fmap list_fmap prod_map fst snd id attributions_of_json].
  change (list_fmap _ _ (prod_map id attribution_to_json) l)
    with (prod_map id attribution_to_json <$> l).
  rewrite IH. by destruct a.
Qed.

Lemma wordle_of_to_dict (g : WordleGame.t) :
  WordleSnapshot.of_dict (WordleSnapshot.to_dict g) = Some g.
Proof. by destruct g. Qed.

Lemma field_here k v rest : field k ((k, v) :: rest) = Some v.
Proof. cbn [field]. by rewrite decide_True. Qed.

Lemma field_skip k k' v rest : k' ≠ k → field k ((k', v) :: rest) = field k rest.
Proof. intros. cbn [field]. by rewrite decide_False. Qed.

Ltac resolve_keys :=
  repeat (rewrite field_here || rewrite field_skip by (vm_compute; discriminate)).

Lemma spelling_of_to_dict (g : SpellingGame.t) :
  SpellingGame.of_dict (SpellingGame.to_dict g) = Some g.
Proof.
  destruct g as [s d r ws os]. unfold SpellingGame.of_dict, SpellingGame.to_dict.
  resolve_keys. cbn [SpellingGame.state SpellingGame.deadline SpellingGame.root_word
                     SpellingGame.words SpellingGame.other_words].
  rewrite !map_to_list_fmap, !attributions_roundtrip. cbn.
  by rewrite !list_to_map_to_list.
Qed.

(** C10. A game written by [update_game] and built again from the written
    snapshot is the same game, for both variants: the constructor returns a
    game with the same fields, any later guess on it returns what it returns
    on the original and leaves the same game, and a manager that registers
    the channel afresh finds the game in the channel's file. *)
Theorem snapshot_roundtrip (cp : Corpus) (utc_offset : Z) :
  (∀ (g : WordleGame.t) draws,
     ∃ g', WordleGame_init cp (Some (WordleSnapshot.to_dict g)) draws = Returned g' ∧
           g' = g ∧
           ∀ G r1 r2 r3,
             WordleGame.guess cp g' G r1 r2 r3 = WordleGame.guess cp g G r1 r2 r3) ∧
  (∀ (g : SpellingGame.t) now_us r,
     ∃ g', SpellingGame_init cp utc_offset (Some (SpellingGame.to_dict g)) now_us r
             = Returned g' ∧
           g' = g ∧
           ∀ G who, SpellingGame.guess cp g' G who = SpellingGame.guess cp g G who) ∧
  (∀ (w : World WordleGame.t) channel_id g draws,
     let written := (GameManager.update_game WordleSnapshot.to_dict channel_id g w).2 in
     let loaded :=
       GameManager.add_channel (λ j, WordleGame_init cp (Some j) draws)
         channel_id written in
     loaded.1 = Returned () ∧ GameManager.get_game loaded.2 channel_id = Some g) ∧
  (∀ (w : World SpellingGame.t) channel_id g now_us r,
     let written := (GameManager.update_game SpellingGame.to_dict channel_id g w).2 in
     let loaded :=
       GameManager.add_channel (λ j, SpellingGame_init cp utc_offset (Some j) now_us r)
         channel_id written in
     loaded.1 = Returned () ∧ GameManager.get_game loaded.2 channel_id = Some g).
Proof.
  assert (∀ (g : WordleGame.t) draws,
    WordleGame_init cp (Some (WordleSnapshot.to_dict g)) draws = Returned g) as HW.
  { intros g draws. unfold WordleGame_init.
    change (json_truthy (WordleSnapshot.to_dict g)) with true. cbv iota.
    change (WordleSnapshot.to_dict g) with (JObj
      [(u "state", JInt (WordleGame.state g));
       (u "guesses", JInt (WordleGame.guesses g));
       (u "solution", JStr (WordleGame.solution g))]) at 1.
    cbv iota. by rewrite wordle_of_to_dict. }
  assert (∀ (g : SpellingGame.t) now_us r,
    SpellingGame_init cp utc_offset (Some (SpellingGame.to_dict g)) now_us r
    = Returned g) as HS.
  { intros g now_us r. unfold SpellingGame_init.
    change (json_truthy (SpellingGame.to_dict g)) with true. cbv iota.
    pose proof (spelling_of_to_dict g) as Hg.
    unfold SpellingGame.to_dict in *. cbv iota. by rewrite Hg. }
  split_and!.
  - intros g draws. exists g. by rewrite HW.
  - intros g now_us r. exists g. by rewrite HS.
  - intros w channel_id g draws.
    unfold GameManager.add_channel, GameManager.update_game, GameManager.get_game,
      GameManager.with_files, GameManager.with_games, GameManager.with_channels.
    cbn [fst snd files games channels]. rewrite lookup_insert_eq, HW.
    cbn [fst snd files games channels]. by rewrite lookup_insert_eq.
  - intros w channel_id g now_us r.
    unfold GameManager.add_channel, GameManager.update_game, GameManager.get_game,
      GameManager.with_files, GameManager.with_games, GameManager.with_channels.
    cbn [fst snd files games channels]. rewrite lookup_insert_eq, HS.
    cbn [fst snd files games channels]. by rewrite lookup_insert_eq.
Qed.

(** ** The cogs: what a handler leaves alone *)

Section frame.
Context {G : Type} (to_dict : G → json) (cid : Z).
Import GameManager.

Lemma preserves_bind {A B} (c : World G → outcome A * World G)
    (k : A → World G → outcome B * World G) :
  preserves cid c → (∀ a, preserves cid (k a)) → preserves cid (cmd_bind c k).
Proof.
  intros Hc Hk w. unfold cmd_bind. specialize (Hc w).
  destruct (c w) as [[a|e|] w']; cbn [snd] in *; [|done..].
  by rewrite Hk.
Qed.

Lemma preserves_skip : preserves cid (@skip G).
Proof. by intros w. Qed.

Lemma preserves_emit o : outgoing_channel o ≠ cid → preserves cid (@emit G o).
Proof.
  intros Ho w. unfold channel_view, emit.
  cbn [snd games files previousgame sent channels].
  rewrite filter_app, filter_cons, filter_nil, decide_False by done.
  by rewrite app_nil_r.
Qed.

Lemma preserves_mutate c g : c ≠ cid → preserves cid (@mutate G c g).
Proof.
  intros Hc w. unfold channel_view, mutate, with_games.
  cbn [snd games files previousgame sent channels]. by rewrite lookup_insert_ne.
Qed.

Lemma preserves_update c g : c ≠ cid → preserves cid (update_game to_dict c g).
Proof.
  intros Hc w. unfold channel_view, update_game, with_files.
  cbn [snd games files previousgame sent channels]. by rewrite lookup_insert_ne.
Qed.

Lemma preserves_add_game c g : c ≠ cid → preserves cid (add_game to_dict c g).
Proof.
  intros Hc. apply preserves_bind; [by apply preserves_mutate|].
  intros _. by apply preserves_update.
Qed.

Lemma preserves_archive c j :
  c ≠ cid →
  preserves cid (λ w : World G,
    (Returned (), with_previousgame w (<[c := j]> (previousgame w)))).
Proof.
  intros Hc w. unfold channel_view, with_previousgame.
  cbn [snd games files previousgame sent channels]. by rewrite lookup_insert_ne.
Qed.
End frame.

Section spelling_frame.
Context (cp : Corpus) (ops : StrOps) (utc_offset : Z) (guild_of : Z → Guild).
Import GameManager.

Local Abbreviation start_game := (Spelling.start_game cp utc_offset).
Local Abbreviation stop_game := (Spelling.stop_game cp utc_offset guild_of).
Local Abbreviation check_channel := (Spelling.check_channel cp utc_offset guild_of).
Local Abbreviation sweep := (Spelling.sweep cp utc_offset guild_of).

Lemma start_game_other cid d c : c ≠ cid → preserves cid (start_game d c).
Proof.
  intros Hc w. unfold Spelling.start_game.
  destruct (decide (c ∉ channels w)); [done|].
  destruct (SpellingGame_init _ _ _ _ _) as [game| |]; [|done..].
  apply (preserves_bind cid); [by apply preserves_add_game|].
  intros _. by apply preserves_emit.
Qed.

Lemma stop_game_other cid d c : c ≠ cid → preserves cid (stop_game d c).
Proof.
  intros Hc w. unfold Spelling.stop_game.
  destruct (get_game w c) as [game|]; [|done].
  destruct (decide (SpellingGame.state game = RESTARTING)); [done|].
  apply (preserves_bind cid); [by apply preserves_mutate|]. intros _.
  apply (preserves_bind cid); [by apply preserves_update|]. intros _.
  intros w1. destruct (SpellingGame.winners_and_losers _ _) as [result|]; [|done].
  apply (preserves_bind cid).
  { destruct result as [[winners losers]|];
      [by apply preserves_archive|apply preserves_skip]. }
  intros _. apply (preserves_bind cid); [by apply preserves_emit|]. intros _.
  apply (preserves_bind cid); [by apply preserves_emit|]. intros _.
  by apply start_game_other.
Qed.

Lemma check_channel_other cid now_us rnd c :
  c ≠ cid → preserves cid (check_channel now_us rnd c).
Proof.
  intros Hc w. unfold Spelling.check_channel.
  destruct (get_game w c) as [game|]; [|done].
  destruct (decide (SpellingGame.state game ≠ CONTINUE)); [done|].
  destruct (decide _); [|done]. by apply stop_game_other.
Qed.

Lemma check_channel_idle now_us rnd cid w g :
  get_game w cid = Some g → idle now_us g →
  check_channel now_us rnd cid w = (Returned (), w).
Proof.
  intros Hg Hidle. unfold Spelling.check_channel. rewrite Hg.
  destruct (decide (SpellingGame.state g ≠ CONTINUE)); [done|].
  destruct Hidle as [?|?]; [done|]. rewrite decide_False; [done|lia].
Qed.

Lemma get_game_view {G} cid (w w' : World G) :
  channel_view cid w' = channel_view cid w → get_game w' cid = get_game w cid.
Proof. unfold channel_view, get_game. by intros [= _ -> _ _ _]. Qed.

Lemma sweep_idle now_us rnd cid g cs w :
  get_game w cid = Some g → idle now_us g →
  channel_view cid (sweep now_us rnd cs w).2 = channel_view cid w.
Proof.
  intros Hg Hidle. revert w Hg. induction cs as [|c cs IH]; intros w Hg; [done|].
  cbn [Spelling.sweep]. unfold cmd_bind.
  destruct (check_channel now_us rnd c w) as [o w1] eqn:Hstep.
  assert (channel_view cid w1 = channel_view cid w) as Hview.
  { destruct (decide (c = cid)) as [->|Hc].
    - rewrite (check_channel_idle _ _ _ _ _ Hg Hidle) in Hstep. by simplify_eq.
    - pose proof (check_channel_other cid now_us rnd c Hc w) as H1.
      by rewrite Hstep in H1. }
  destruct o as [[]|e|]; cbn [snd]; [|done..].
  rewrite IH; [done|]. by rewrite (get_game_view _ _ _ Hview).
Qed.
End spelling_frame.

(** ** The Restarting guard *)

(** C8. While a channel's session is Restarting, a further [stop_game], an
    administrative stop and an incoming guess return at once and leave the
    cog exactly as it was (no state change, no file written, nothing sent,
    no new game), in both variants; the deadline sweep leaves everything the
    cog holds for that channel as it was. *)
Theorem restarting_absorbs
    (cp : Corpus) (ops : StrOps) (utc_offset : Z) (guild_of : Z → Guild) :
  (∀ (w : World WordleGame.t) channel_id g,
     GameManager.get_game w channel_id = Some g →
     WordleGame.state g = RESTARTING →
     (∀ draws, Wordle.stop_game cp draws channel_id w = (Returned (), w)) ∧
     (∀ draws, Wordle.stopW cp draws channel_id w = (Returned (), w)) ∧
     (∀ m r1 r2 r3 draws, in_channel m = channel_id →
        Wordle.on_message cp ops m r1 r2 r3 draws w = (Returned (), w))) ∧
  (∀ (w : World SpellingGame.t) channel_id g,
     GameManager.get_game w channel_id = Some g →
     SpellingGame.state g = RESTARTING →
     (∀ d, Spelling.stop_game cp utc_offset guild_of d channel_id w = (Returned (), w)) ∧
     (∀ d, Spelling.stopSB cp utc_offset guild_of d channel_id w = (Returned (), w)) ∧
     (∀ m d, in_channel m = channel_id →
        Spelling.on_message cp ops utc_offset guild_of m d w = (Returned (), w)) ∧
     (∀ now_us rnd,
        channel_view channel_id
          (Spelling.check_deadline cp utc_offset guild_of now_us rnd w).2
        = channel_view channel_id w)).
Proof.
  split.
  - intros w cid g Hg Hst. split_and!.
    + intros draws. unfold Wordle.stop_game. rewrite Hg.
      by rewrite decide_True.
    + intros draws. unfold Wordle.stopW. rewrite Hg.
      rewrite decide_True; [done|]. by rewrite Hst.
    + intros m r1 r2 r3 draws <-. unfold Wordle.on_message. cbv zeta.
      destruct (decide (in_channel m ∉ channels w)); [done|].
      destruct (in_from_bot m); [done|]. destruct (in_is_command m); [done|].
      rewrite Hg. rewrite decide_True; [done|]. by rewrite Hst.
  - intros w cid g Hg Hst.
    assert (∀ d, Spelling.stop_game cp utc_offset guild_of d cid w = (Returned (), w))
      as Hstop.
    { intros d. unfold Spelling.stop_game. rewrite Hg. by rewrite decide_True. }
    split_and!; [done|done| |].
    + intros m d <-. unfold Spelling.on_message. cbv zeta.
      destruct (decide (in_channel m ∉ channels w)); [done|].
      destruct (in_from_bot m); [done|]. destruct (in_is_command m); [done|].
      rewrite Hg. rewrite decide_True; [done|]. by rewrite Hst.
    + intros now_us rnd. unfold Spelling.check_deadline.
      apply (sweep_idle _ _ _ _ _ _ g); [done|]. left. by rewrite Hst.
Qed.

Lemma restarting_absorbs_witness :
  Wordle.stop_game wordle_corpus [] 1 wordle_restarting
    = (Returned (), wordle_restarting) ∧
  Spelling.stop_game bee_corpus 0 nobody
    {| end_clock := 0; start_clock := 0; root_draw := 0 |} 2 bee_restarting
    = (Returned (), bee_restarting).
Proof.
  destruct (restarting_absorbs wordle_corpus plain_ops 0 nobody) as [HW _].
  destruct (restarting_absorbs bee_corpus plain_ops 0 nobody) as [_ HS].
  split.
  - refine (proj1 (HW wordle_restarting 1
                     (Wordle.set_state wordle_game RESTARTING) _ _) []);
      vm_compute; reflexivity.
  - refine (proj1 (HS bee_restarting 2
                     (SpellingGame.set_state bee_game RESTARTING) _ _) _);
      vm_compute; reflexivity.
Defined.

(** ** The deadline sweep *)

Lemma fresh_in_roster cp utc_offset now_us r g :
  SpellingGame.fresh cp utc_offset now_us r = Ok g →
  Forall in_roster
    ((map_to_list (SpellingGame.other_words g ∪ SpellingGame.words g)).*2).
Proof.
  intros Hfresh.
  destruct (fresh_game_maps cp utc_offset now_us r g Hfresh)
    as (sols & bonus & -> & -> & _).
  apply Forall_forall. intros a Ha.
  apply list_elem_of_fmap in Ha as ([k a'] & -> & Hka).
  apply elem_of_map_to_list in Hka. cbn [snd].
  apply lookup_union_Some_raw in Hka as [Hka|[_ Hka]];
    rewrite dict_fromkeys_lookup in Hka; destruct (decide _); by simplify_eq.
Qed.

Section spelling_sweep.
Context (cp : Corpus) (utc_offset : Z) (guild_of : Z → Guild).
Import GameManager.

Local Abbreviation stop_game := (Spelling.stop_game cp utc_offset guild_of).
Local Abbreviation check_channel := (Spelling.check_channel cp utc_offset guild_of).
Local Abbreviation sweep := (Spelling.sweep cp utc_offset guild_of).

Lemma stop_game_run d cid w g result fresh :
  cid ∈ channels w →
  get_game w cid = Some g →
  SpellingGame.state g ≠ RESTARTING →
  SpellingGame.winners_and_losers (SpellingGame.set_state g RESTARTING) (guild_of cid)
    = Ok result →
  SpellingGame.fresh cp utc_offset (start_clock d) (root_draw d) = Ok fresh →
  ∃ w', stop_game d cid w = (Returned (), w') ∧
        channel_view cid w' = restarted d cid g result fresh (channel_view cid w).
Proof.
  intros Hreg Hg Hst Hres Hfresh. unfold Spelling.stop_game.
  rewrite Hg, decide_False by done. unfold cmd_bind at 1 2.
  unfold mutate at 1, update_game at 1. cbv beta iota. rewrite Hres.
  unfold Spelling.start_game, SpellingGame_init. rewrite Hfresh.
  destruct result as [[winners losers]|];
    unfold cmd_bind, emit, skip, add_game, cmd_bind, mutate, update_game,
      with_previousgame, with_files, with_games;
    cbn [fst snd channels games files previousgame sent outcome_of_res];
    rewrite decide_False by (intros Hn; by apply Hn);
    (eexists; split; [reflexivity|]);
    unfold channel_view, restarted;
    cbn [channels games files previousgame sent registered session snapshot
         archive emitted].
  all: rewrite bool_decide_eq_true_2 by done.
  all: rewrite !lookup_insert_eq, !filter_app, !filter_cons, !filter_nil.
  all: cbn [outgoing_channel]; rewrite !decide_True by done.
  all: by rewrite <- !app_assoc.
Qed.

Lemma stop_game_unregistered d cid w g result :
  cid ∉ channels w →
  get_game w cid = Some g →
  SpellingGame.state g ≠ RESTARTING →
  SpellingGame.winners_and_losers (SpellingGame.set_state g RESTARTING) (guild_of cid)
    = Ok result →
  ∃ w', stop_game d cid w = (Returned (), w') ∧
        get_game w' cid = Some (SpellingGame.set_state g RESTARTING).
Proof.
  intros Hreg Hg Hst Hres. unfold Spelling.stop_game.
  rewrite Hg, decide_False by done. unfold cmd_bind at 1 2.
  unfold mutate at 1, update_game at 1. cbv beta iota. rewrite Hres.
  unfold Spelling.start_game.
  destruct result as [[winners losers]|];
    unfold cmd_bind, emit, skip, with_previousgame, with_files, with_games;
    cbn [fst snd channels games files previousgame sent];
    rewrite decide_True by done;
    (eexists; split; [reflexivity|]);
    unfold get_game; cbn [games]; by rewrite lookup_insert_eq.
Qed.

Lemma fresh_ok now_us r :
  root_available cp → ∃ g, SpellingGame.fresh cp utc_offset now_us r = Ok g.
Proof.
  intros (bucket & Hb & Hne). unfold SpellingGame.fresh.
  rewrite (getitem_ok _ _ _ Hb). res_simpl.
  destruct (random_choice_ok r bucket Hne) as (root & -> & _). res_simpl. eauto.
Qed.

Lemma fresh_not_due now_us clock r g :
  SpellingGame.fresh cp utc_offset clock r = Ok g →
  now_us ≤ clock →
  now_us + 1000000 < SpellingGame.deadline g * 1000000.
Proof.
  unfold SpellingGame.fresh. intros Hfresh Hclock.
  destruct (getitem (common_words_by_length cp) 10) as [bucket|]; [|done].
  res_simpl in Hfresh.
  destruct (random_choice r bucket) as [root|]; [|done].
  res_simpl in Hfresh. injection Hfresh as <-.
  cbn [SpellingGame.deadline]. unfold SpellingGame.new_deadline. cbv zeta.
  Z.to_euclidean_division_equations. lia.
Qed.

Lemma get_game_other {A} c' (w : World SpellingGame.t)
    (k : World SpellingGame.t → outcome A * World SpellingGame.t) :
  preserves c' k → get_game (k w).2 c' = get_game w c'.
Proof. intros Hk. apply (get_game_view c'), Hk. Qed.

Lemma stop_game_returns d c w :
  world_in_roster w → root_available cp →
  (stop_game d c w).1 = Returned () ∧ world_in_roster (stop_game d c w).2.
Proof.
  intros Hw Hroot.
  destruct (get_game w c) as [g|] eqn:Hg.
  2:{ unfold Spelling.stop_game. by rewrite Hg. }
  destruct (decide (SpellingGame.state g = RESTARTING)) as [Hst|Hst].
  { unfold Spelling.stop_game. by rewrite Hg, decide_True. }
  destruct (winners_and_losers_returns (guild_of c)
              (SpellingGame.set_state g RESTARTING) (Hw c g Hg))
    as (result & Hres).
  assert (∀ w' g', (stop_game d c w) = (Returned (), w') →
            get_game w' c = Some g' →
            SpellingGame.other_words g' ∪ SpellingGame.words g'
              = SpellingGame.other_words g ∪ SpellingGame.words g ∨
            (∃ now_us r, SpellingGame.fresh cp utc_offset now_us r = Ok g') →
            (stop_game d c w).1 = Returned () ∧ world_in_roster (stop_game d c w).2)
    as Hfin.
  { intros w' g' Hrun Hg' Hcase. split; [by rewrite Hrun|].
    intros c' g'' Hg''. destruct (decide (c' = c)) as [->|Hne].
    - rewrite Hrun in Hg''. cbn [snd] in Hg''. simplify_eq.
      destruct Hcase as [->|(now_us & r & Hfresh)]; [by apply (Hw c g)|].
      by eapply fresh_in_roster.
    - apply (Hw c'). rewrite <- Hg''. symmetry.
      apply get_game_other. apply stop_game_other. congruence. }
  destruct (decide (c ∈ channels w)) as [Hreg|Hreg].
  - destruct (fresh_ok (start_clock d) (root_draw d) Hroot) as [fresh Hfresh].
    destruct (stop_game_run d c w g result fresh Hreg Hg Hst Hres Hfresh)
      as (w' & Hrun & Hview).
    apply (Hfin w' fresh Hrun); [|eauto].
    unfold get_game. change (games w' !! c) with (session (channel_view c w')).
    by rewrite Hview.
  - destruct (stop_game_unregistered d c w g result Hreg Hg Hst Hres)
      as (w' & Hrun & Hg').
    apply (Hfin w' _ Hrun Hg'). by left.
Qed.

Lemma check_channel_returns now_us rnd c w :
  world_in_roster w → root_available cp →
  (check_channel now_us rnd c w).1 = Returned () ∧
  world_in_roster (check_channel now_us rnd c w).2.
Proof.
  intros Hw Hroot. unfold Spelling.check_channel.
  destruct (get_game w c) as [g|]; [|done].
  destruct (decide (SpellingGame.state g ≠ CONTINUE)); [done|].
  destruct (decide _); [|done]. by apply stop_game_returns.
Qed.

Lemma sweep_returns now_us rnd cs w :
  world_in_roster w → root_available cp →
  (sweep now_us rnd cs w).1 = Returned ().
Proof.
  intros Hw Hroot. revert w Hw. induction cs as [|c cs IH]; intros w Hw; [done|].
  cbn [Spelling.sweep]. unfold cmd_bind.
  destruct (check_channel_returns now_us rnd c w Hw Hroot) as [Hret Hw'].
  destruct (check_channel now_us rnd c w) as [o w1]. cbn [fst snd] in *.
  subst o. by apply IH.
Qed.

Lemma sweep_due now_us rnd cid g cs w :
  cid ∈ cs → cid ∈ channels w →
  get_game w cid = Some g →
  SpellingGame.state g = CONTINUE →
  SpellingGame.deadline g * 1000000 ≤ now_us + 1000000 →
  world_in_roster w → root_available cp →
  now_us ≤ start_clock (rnd cid) →
  ∃ result fresh,
    SpellingGame.winners_and_losers (SpellingGame.set_state g RESTARTING)
      (guild_of cid) = Ok result ∧
    SpellingGame.fresh cp utc_offset (start_clock (rnd cid)) (root_draw (rnd cid))
      = Ok fresh ∧
    channel_view cid (sweep now_us rnd cs w).2
      = restarted (rnd cid) cid g result fresh (channel_view cid w).
Proof.
  intros Hcs Hreg Hg Hst Hdue Hw Hroot Hclock.
  destruct (winners_and_losers_returns (guild_of cid)
              (SpellingGame.set_state g RESTARTING) (Hw cid g Hg))
    as (result & Hres).
  destruct (fresh_ok (start_clock (rnd cid)) (root_draw (rnd cid)) Hroot)
    as [fresh Hfresh].
  exists result, fresh. split; [done|]. split; [done|].
  revert w Hreg Hg Hw. induction cs as [|c cs IH]; intros w Hreg Hg Hw.
  { by apply elem_of_nil in Hcs. }
  cbn [Spelling.sweep]. unfold cmd_bind.
  destruct (decide (c = cid)) as [->|Hne].
  - assert (check_channel now_us rnd cid w = stop_game (rnd cid) cid w) as ->.
    { unfold Spelling.check_channel. rewrite Hg.
      rewrite decide_False by (intros Hn; by apply Hn).
      rewrite decide_True; [done|lia]. }
    destruct (stop_game_run (rnd cid) cid w g result fresh Hreg Hg)
      as (w' & -> & Hview); [by rewrite Hst|done..|].
    rewrite <- Hview. apply (sweep_idle _ _ _ _ _ _ fresh).
    + unfold get_game. change (games w' !! cid) with (session (channel_view cid w')).
      by rewrite Hview.
    + right. by eapply fresh_not_due.
  - destruct (check_channel_returns now_us rnd c w Hw Hroot) as [Hret Hw'].
    pose proof (check_channel_other cp utc_offset guild_of cid now_us rnd c Hne w)
      as Hview.
    destruct (check_channel now_us rnd c w) as [o w1]. cbn [fst snd] in *.
    subst o. rewrite <- Hview. apply IH.
    + apply elem_of_cons in Hcs as [?|?]; [congruence|done].
    + assert (registered (channel_view cid w1) = registered (channel_view cid w))
        as Hr by (by rewrite Hview).
      cbn in Hr. eapply bool_decide_eq_true_1. rewrite Hr.
      by apply bool_decide_eq_true_2.
    + by rewrite (get_game_view _ _ _ Hview).
    + done.
Qed.
End spelling_sweep.

(** C7 as stated fails: a tick half a second before the deadline restarts
    the game, and no step of the restart passes through Finished (the sweep
    calls [stop_game], which goes from Continue to Restarting). *)
Lemma deadline_sweep_counterexample :
  let now_us := 86400 * 1000000 - 500000 in
  let rnd := λ _ : Z, {| end_clock := now_us; start_clock := now_us; root_draw := 0 |} in
  let tick := Spelling.check_deadline bee_corpus 0 nobody now_us rnd bee_running in
  GameManager.get_game bee_running 2 = Some bee_game ∧
  SpellingGame.state bee_game = CONTINUE ∧
  now_us < SpellingGame.deadline bee_game * 1000000 ∧
  tick.1 = Returned () ∧
  sent tick.2 = [Message 2 (GameOver None); Typing 2;
                 Message 2 (SpellingStarted biblioteka (82800 + 86400) 2)] ∧
  (SpellingGame.deadline <$> GameManager.get_game tick.2 2) = Some (82800 + 86400).
Proof. cbv zeta. split_and!; vm_compute; done. Qed.

(** C7 (as amended). For a registered channel with a Continue session and
    deadline [D]: a tick more than a second before [D] leaves everything the
    cog holds for the channel as it was; a tick from one second before [D]
    on goes through [stop_game] and on to a new game.  When every session
    scores within the rosters, a root word can be drawn and the new game is
    built no earlier than the tick read the clock, the sweep returns and the
    channel ends with the new Continue game, its snapshot, the old game
    archived in the state Restarting (if anyone scored) and the three
    messages of the restart. *)
Theorem deadline_sweep
    (cp : Corpus) (utc_offset : Z) (guild_of : Z → Guild)
    (w : World SpellingGame.t) (channel_id : Z) (g : SpellingGame.t)
    (now_us : Z) (rnd : Z → draws) :
  channel_id ∈ channels w →
  GameManager.get_game w channel_id = Some g →
  SpellingGame.state g = CONTINUE →
  let tick := Spelling.check_deadline cp utc_offset guild_of now_us rnd w in
  (now_us + 1000000 < SpellingGame.deadline g * 1000000 →
     channel_view channel_id tick.2 = channel_view channel_id w) ∧
  (SpellingGame.deadline g * 1000000 ≤ now_us + 1000000 →
   world_in_roster w → root_available cp →
   now_us ≤ start_clock (rnd channel_id) →
     tick.1 = Returned () ∧
     ∃ result fresh,
       SpellingGame.winners_and_losers (SpellingGame.set_state g RESTARTING)
         (guild_of channel_id) = Ok result ∧
       SpellingGame.fresh cp utc_offset (start_clock (rnd channel_id))
         (root_draw (rnd channel_id)) = Ok fresh ∧
       channel_view channel_id tick.2
         = restarted (rnd channel_id) channel_id g result fresh
             (channel_view channel_id w)).
Proof.
  intros Hreg Hg Hst tick. subst tick. unfold Spelling.check_deadline. split.
  - intros Hearly. apply (sweep_idle _ _ _ _ _ _ g); [done|]. by right.
  - intros Hdue Hw Hroot Hclock. split.
    + by apply sweep_returns.
    + by apply sweep_due.
Qed.

Lemma deadline_sweep_witness :
  let rnd := λ _ : Z, {| end_clock := 86400000000; start_clock := 86400000000;
                         root_draw := 0 |} in
  let tick := Spelling.check_deadline bee_corpus 0 nobody 86400000000 rnd bee_running in
  (86400000000 + 1000000 < SpellingGame.deadline bee_game * 1000000 →
     channel_view 2 tick.2 = channel_view 2 bee_running) ∧
  (SpellingGame.deadline bee_game * 1000000 ≤ 86400000000 + 1000000 →
   world_in_roster bee_running → root_available bee_corpus →
   86400000000 ≤ start_clock (rnd 2) →
     tick.1 = Returned () ∧
     ∃ result fresh,
       SpellingGame.winners_and_losers (SpellingGame.set_state bee_game RESTARTING)
         (nobody 2) = Ok result ∧
       SpellingGame.fresh bee_corpus 0 (start_clock (rnd 2)) (root_draw (rnd 2))
         = Ok fresh ∧
       channel_view 2 tick.2
         = restarted (rnd 2) 2 bee_game result fresh (channel_view 2 bee_running)).
Proof.
  apply (deadline_sweep bee_corpus 0 nobody bee_running 2 bee_game).
  - apply list_elem_of_here.
  - vm_compute. reflexivity.
  - reflexivity.
Defined.

(* ================================================================== *)
(** * Further properties *)

(** ** Wordle: how much credit a letter gets *)

Lemma hits_pos_ex (P : nat → Prop) `{!∀ i, Decision (P i)} n :
  0 < hits P n → ∃ j, (j < n)%nat ∧ P j.
Proof.
  induction n as [|n IH]; [rewrite hits_0; lia|].
  rewrite hits_S. destruct (decide (P n)) as [HP|HP].
  - intros _. exists n. split; [lia|done].
  - intros Hpos. destruct IH as (j & Hj & HPj); [lia|].
    exists j. split; [lia|done].
Qed.

(** What one round of the second loop does. *)
Lemma pass2_body_cases solution st i x st' :
  WordleGame.pass2_body solution st i x = Ok st' →
  (st' = st ∧
   (st.2 !! x = None ∨ (∃ t, st.2 !! x = Some t ∧ t ≤ 0) ∨ solution !! i = Some x)) ∨
  (∃ t, st.2 !! x = Some t ∧ 0 < t ∧
        st' = (<[i:=COLOR_PRESENT]> st.1, <[x:=t - 1]> st.2)).
Proof.
  unfold WordleGame.pass2_body. destruct (st.2 !! x) as [t|] eqn:Ht.
  2:{ intros [= <-]. left. auto. }
  destruct (decide (0 < t)) as [Hpos|Hpos].
  2:{ intros [= <-]. left. split; [done|]. right. left. exists t. split; [done|lia]. }
  unfold getitem. destruct (solution !! i) as [s_i|] eqn:Hs; [|done]. res_simpl.
  destruct (decide (x ≠ s_i)) as [Hne|Heq].
  2:{ intros [= <-]. left. split; [done|]. right. right.
      apply dec_stable in Heq. by subst. }
  unfold setitem. destruct (decide (i < length st.1)%nat); [|done]. res_simpl.
  rewrite (tally_decr_ok _ _ _ Ht). res_simpl. intros [= <-]. right. eauto.
Qed.

Section wordle_credit.
Variables solution guess : pystr.
Hypothesis same_length : length guess = length solution.

(** After the second loop a position left Absent means that the tally of
    its letter has run out. *)
Lemma pass2_absent st1 :
  pass2_inv solution guess 0 st1 →
  ∃ st2, WordleGame.pass2 solution guess st1 = Ok st2 ∧
    pass2_inv solution guess (length solution) st2 ∧
    (∀ j c, (j < length solution)%nat → guess !! j = Some c →
       st2.1 !! j = Some COLOR_ABSENT →
       st2.2 !! c = None ∨ ∃ t, st2.2 !! c = Some t ∧ t ≤ 0).
Proof.
  intros H0. rewrite <- same_length. unfold WordleGame.pass2.
  pose (Q := λ (i : nat) (st : list color * gmap N Z),
    pass2_inv solution guess i st ∧
    ∀ j c, (j < i)%nat → guess !! j = Some c → st.1 !! j = Some COLOR_ABSENT →
      st.2 !! c = None ∨ ∃ t, st.2 !! c = Some t ∧ t ≤ 0).
  destruct (for_enumerate_inv (WordleGame.pass2_body solution) Q guess st1)
    as (st2 & Hrun & Hinv & Habs).
  - intros i x st Hx [Hinv Habs].
    destruct (pass2_step solution guess same_length i x st Hx Hinv) as (st' & Hbody & Hinv').
    exists st'. split; [done|]. split; [done|].
    intros j c Hj Hc Hcol.
    destruct (pass2_body_cases _ _ _ _ _ Hbody) as [[-> Hwhy]|(t & Ht & Hpos & ->)].
    + destruct (decide (j = i)) as [->|Hji]; [|apply (Habs j c); [lia|done..]].
      assert (c = x) as -> by congruence.
      destruct Hwhy as [?|[?|Hs]]; [by left|by right|].
      destruct Hinv as (_ & Hcorrect & _).
      assert (st.1 !! i = Some COLOR_CORRECT) as Hcc.
      { apply Hcorrect; [|congruence]. apply lookup_lt_Some in Hs. done. }
      congruence.
    + cbn [fst snd] in *. destruct (decide (j = i)) as [->|Hji].
      * destruct Hinv as (Hlen & _). apply lookup_lt_Some in Hx.
        rewrite list_lookup_insert_eq in Hcol by lia. done.
      * rewrite list_lookup_insert_ne in Hcol by done.
        destruct (Habs j c) as [Hn|(t' & Ht' & Hle)]; [lia|done..| |].
        -- left. rewrite lookup_insert_ne; [done|]. intros ->. congruence.
        -- right. exists t'. split; [|done].
           rewrite lookup_insert_ne; [done|]. intros ->.
           rewrite Ht in Ht'. simplify_eq. lia.
  - split; [done|]. intros j c Hj. lia.
  - exists st2. rewrite same_length in *. done.
Qed.
End wordle_credit.

Lemma classify_facts (solution guess : pystr) :
  length guess = length solution →
  ∃ colors tally,
    WordleGame.classify solution guess = Ok colors ∧
    pass2_inv solution guess (length solution) (colors, tally) ∧
    (∀ j c, (j < length solution)%nat → guess !! j = Some c →
       colors !! j = Some COLOR_ABSENT →
       tally !! c = None ∨ ∃ t, tally !! c = Some t ∧ t ≤ 0).
Proof.
  intros Hlen.
  destruct (pass1_ok solution guess Hlen) as (st1 & Hp1 & Hinv1).
  pose proof (pass2_inv_init solution guess Hlen st1 Hinv1) as Hinv0.
  destruct (pass2_absent solution guess Hlen st1 Hinv0)
    as ([colors tally] & Hp2 & Hinv2 & Habs).
  exists colors, tally. split; [|done].
  unfold WordleGame.classify. rewrite Hp1. res_simpl. rewrite Hp2. done.
Qed.

(** The credit of a letter is its exact matches plus its Present marks. *)
Lemma credited_split (solution guess : pystr) colors tally c :
  length guess = length solution →
  pass2_inv solution guess (length solution) (colors, tally) →
  credited c guess colors
  = hits (exact_at solution guess c) (length solution)
    + hits (credit_at guess colors c) (length solution).
Proof.
  intros Hlen (_ & Hcol & _). cbn [fst snd] in *.
  unfold credited. rewrite Hlen.
  rewrite (hits_ext _ (λ j, exact_at solution guess c j ∨ credit_at guess colors c j)).
  - apply hits_or. intros j [Hg Hs] [_ Hp].
    destruct (decide (j < length solution)%nat) as [Hj|Hj].
    + assert (colors !! j = Some COLOR_CORRECT) by (apply Hcol; [done|congruence]).
      congruence.
    + rewrite lookup_ge_None_2 in Hs by lia. done.
  - intros j Hj. specialize (Hcol j Hj). split.
    + intros [Hg [Hc|Hp]]; [left|right]; split; try done.
      rewrite <- Hg. symmetry. by apply Hcol.
    + intros [[Hg Hs]|[Hg Hp]]; (split; [done|]); [left|by right].
      apply Hcol. congruence.
Qed.

(** What [guess] returns for a guess that passes both checks. *)
Lemma guess_accepted (cp : Corpus) (self : WordleGame.t) (G : pystr)
    (r1 r2 r3 : nat) colors :
  length G = length (WordleGame.solution self) →
  G ∈ all_words cp →
  WordleGame.classify (WordleGame.solution self) G = Ok colors →
  ∃ rep self',
    WordleGame.guess cp self G r1 r2 r3 = Ok (rep, self') ∧
    WordleGame.file_obj rep = Some {| img_word := G; img_colors := colors |} ∧
    WordleGame.guesses self' = WordleGame.guesses self + 1 ∧
    WordleGame.solution self' = WordleGame.solution self ∧
    ((G ≠ WordleGame.solution self ∧ WordleGame.state self' = WordleGame.state self ∧
      WordleGame.emoji rep = None ∧ WordleGame.msg rep = None) ∨
     (G = WordleGame.solution self ∧ WordleGame.state self' = FINISHED ∧
      is_Some (WordleGame.msg rep))).
Proof.
  intros Hlen Hin Hcl. unfold WordleGame.guess.
  rewrite decide_False by (intros ?; done).
  rewrite decide_False by (intros ?; done).
  rewrite Hcl. res_simpl.
  destruct (decide (G ≠ WordleGame.solution self)) as [Hne|Heq].
  - eexists _, _. split; [done|]. cbn [WordleGame.file_obj WordleGame.guesses WordleGame.solution WordleGame.state WordleGame.emoji WordleGame.msg].
    split_and!; try done. by left.
  - apply dec_stable in Heq.
    destruct (random_choice_ok r1 WordleGame.praise1) as (m1 & -> & _); [done|].
    destruct (random_choice_ok r2 WordleGame.praise2) as (m2 & -> & _); [done|].
    destruct (random_choice_ok r3 WordleGame.smileys) as (m3 & -> & _); [done|].
    res_simpl. eexists _, _. split; [done|]. cbn [WordleGame.file_obj WordleGame.guesses WordleGame.solution WordleGame.state WordleGame.emoji WordleGame.msg].
    split_and!; try done. right. split_and!; [done..|]. eauto.
Qed.

(** X1. For a guess of the solution's length that is in the corpus, the
    picture that [guess] returns credits every letter (Correct or Present)
    exactly as often as the smaller of its number of occurrences in the guess
    and in the solution. *)
Theorem wordle_credit_is_min
    (cp : Corpus) (self : WordleGame.t) (G : pystr) (r1 r2 r3 : nat) :
  let S := WordleGame.solution self in
  length G = length S →
  G ∈ all_words cp →
  ∃ rep self' colors,
    WordleGame.guess cp self G r1 r2 r3 = Ok (rep, self') ∧
    WordleGame.file_obj rep = Some {| img_word := G; img_colors := colors |} ∧
    ∀ c, credited c G colors = Z.min (count c G) (count c S).
Proof.
  intros S Hlen Hin.
  destruct (classify_facts S G Hlen) as (colors & tally & Hcl & Hinv & Habs).
  destruct (guess_accepted cp self G r1 r2 r3 colors Hlen Hin Hcl)
    as (rep & self' & Hg & Hfile & _).
  exists rep, self', colors. split; [done|]. split; [done|]. intros c.
  rewrite (credited_split S G colors tally c Hlen Hinv).
  pose proof Hinv as (Hl & Hcol & _ & Htal). cbn [fst snd] in *.
  specialize (Htal c).
  set (E := hits (exact_at S G c) (length S)) in *.
  set (P := hits (credit_at G colors c) (length S)) in *.
  set (A := hits (λ j, G !! j = Some c ∧ colors !! j = Some COLOR_ABSENT) (length S)).
  assert (0 ≤ E) as HE by apply hits_nonneg.
  assert (0 ≤ P) as HP by apply hits_nonneg.
  assert (0 ≤ A) as HA by apply hits_nonneg.
  assert (E + P + A = count c G) as Hsum.
  { rewrite <- hits_count, Hlen. subst E P A.
    rewrite <- hits_or.
    2:{ intros j [Hg' Hs] [_ Hp]. destruct (decide (j < length S)%nat) as [Hj|Hj].
        - assert (colors !! j = Some COLOR_CORRECT) by (apply Hcol; [done|congruence]).
          congruence.
        - rewrite lookup_ge_None_2 in Hs by lia. done. }
    rewrite <- hits_or.
    2:{ intros j [[_ Hs]|[_ Hp]] [Hg' Ha]; [|congruence].
        destruct (decide (j < length S)%nat) as [Hj|Hj].
        - assert (colors !! j = Some COLOR_CORRECT) by (apply Hcol; [done|congruence]).
          congruence.
        - rewrite lookup_ge_None_2 in Hs by lia. done. }
    apply hits_ext. intros j Hj. split.
    - intros [[[Hg' _]|[Hg' _]]|[Hg' _]]; done.
    - intros Hg'. destruct (lookup_lt_is_Some_2 colors j) as [col Hc]; [lia|].
      destruct col.
      + right. done.
      + left. right. done.
      + left. left. split; [done|]. rewrite <- Hg'. symmetry. by apply Hcol. }
  destruct (decide (A = 0)) as [HA0|HA0].
  - assert (E + P ≤ count c S).
    { destruct (decide (c ∈ S)).
      - destruct Htal as (t & _ & ? & ?). lia.
      - destruct Htal as [_ HP0]. fold P in HP0.
        pose proof (exact_le_count S G c) as Hle. fold E in Hle. lia. }
    lia.
  - assert (0 < A) as HApos by lia.
    destruct (hits_pos_ex _ _ HApos) as (j & Hj & Hg' & Ha).
    destruct (Habs j c Hj Hg' Ha) as [Hnone|(t & Ht & Hle)].
    + destruct (decide (c ∈ S)) as [Hc|Hc].
      * destruct Htal as (t & Ht & _). congruence.
      * destruct Htal as [_ HP0]. fold P in HP0.
        assert (count c S = 0) as Hz.
        { pose proof (count_nonneg c S). pose proof (proj2 (count_pos c S)). 
          destruct (decide (0 < count c S)); [exfalso; auto|lia]. }
        pose proof (exact_le_count S G c) as Hle. fold E in Hle. lia.
    + destruct (decide (c ∈ S)) as [Hc|Hc].
      * destruct Htal as (t' & Ht' & ? & ?). simplify_eq. lia.
      * destruct Htal as [? _]. congruence.
Qed.

Lemma wordle_credit_is_min_witness :
  ∃ rep self' colors,
    WordleGame.guess wordle_corpus wordle_game slava 0 0 0 = Ok (rep, self') ∧
    WordleGame.file_obj rep = Some {| img_word := slava; img_colors := colors |} ∧
    ∀ c, credited c slava colors = Z.min (count c slava) (count c slovo).
Proof.
  apply (wordle_credit_is_min wordle_corpus wordle_game slava 0 0 0).
  - reflexivity.
  - simpl. apply list_elem_of_here.
Defined.

(** ** Wordle: winning, and guesses that are turned away *)

Lemma all_correct_iff (solution guess : pystr) colors :
  length guess = length solution →
  length colors = length solution →
  (∀ j, (j < length solution)%nat →
     colors !! j = Some COLOR_CORRECT ↔ guess !! j = solution !! j) →
  Forall (λ c, c = COLOR_CORRECT) colors ↔ guess = solution.
Proof.
  intros Hlen Hl Hcol. split.
  - intros Hall. apply list_eq. intros i.
    destruct (decide (i < length solution)%nat) as [Hi|Hi].
    + apply Hcol; [done|].
      destruct (lookup_lt_is_Some_2 colors i) as [c Hc]; [lia|].
      rewrite Hc. f_equal. by apply (proj1 (Forall_lookup _ _) Hall i).
    + rewrite !lookup_ge_None_2 by lia. done.
  - intros ->. apply Forall_lookup. intros i c Hc.
    assert (i < length solution)%nat as Hi
      by (rewrite <- Hl; by apply lookup_lt_Some in Hc).
    assert (colors !! i = Some COLOR_CORRECT) by (by apply Hcol).
    congruence.
Qed.

(** X2. For a guess of the solution's length that is in the corpus, the
    picture is Correct at every position exactly when the guess is the
    solution; that guess ends the game, and any other accepted guess leaves
    the state as it was and carries neither a reaction nor a text. *)
Theorem wordle_win_is_all_correct
    (cp : Corpus) (self : WordleGame.t) (G : pystr) (r1 r2 r3 : nat) :
  let S := WordleGame.solution self in
  length G = length S →
  G ∈ all_words cp →
  ∃ rep self' colors,
    WordleGame.guess cp self G r1 r2 r3 = Ok (rep, self') ∧
    WordleGame.file_obj rep = Some {| img_word := G; img_colors := colors |} ∧
    (Forall (λ c, c = COLOR_CORRECT) colors ↔ G = S) ∧
    (G = S → WordleGame.state self' = FINISHED ∧ is_Some (WordleGame.msg rep)) ∧
    (G ≠ S → WordleGame.state self' = WordleGame.state self ∧
             WordleGame.emoji rep = None ∧ WordleGame.msg rep = None).
Proof.
  intros S Hlen Hin.
  destruct (classify_facts S G Hlen) as (colors & tally & Hcl & Hinv & _).
  destruct (guess_accepted cp self G r1 r2 r3 colors Hlen Hin Hcl)
    as (rep & self' & Hg & Hfile & _ & _ & Hcase).
  destruct Hinv as (Hl & Hcol & _). cbn [fst snd] in *.
  exists rep, self', colors. split_and!; [done..| | |].
  - by apply all_correct_iff.
  - intros Heq. destruct Hcase as [(Hne & _)|(_ & ? & ?)]; [done|]. done.
  - intros Hne. destruct Hcase as [(_ & ? & ? & ?)|(Heq & _)]; done.
Qed.

Lemma wordle_win_is_all_correct_witness :
  ∃ rep self' colors,
    WordleGame.guess wordle_corpus wordle_game slovo 0 0 0 = Ok (rep, self') ∧
    WordleGame.file_obj rep = Some {| img_word := slovo; img_colors := colors |} ∧
    (Forall (λ c, c = COLOR_CORRECT) colors ↔ slovo = slovo) ∧
    (slovo = slovo → WordleGame.state self' = FINISHED ∧ is_Some (WordleGame.msg rep)) ∧
    (slovo ≠ slovo → WordleGame.state self' = CONTINUE ∧
             WordleGame.emoji rep = None ∧ WordleGame.msg rep = None).
Proof.
  apply (wordle_win_is_all_correct wordle_corpus wordle_game slovo 0 0 0).
  - reflexivity.
  - simpl. apply list_elem_of_further, list_elem_of_here.
Defined.

(** X3. [guess] never raises.  It leaves the solution alone; a guess of the
    right length that is in the corpus gets a picture and is counted once;
    any other guess gets a reaction only, and the game is as it was. *)
Theorem wordle_guess_returns
    (cp : Corpus) (self : WordleGame.t) (G : pystr) (r1 r2 r3 : nat) :
  ∃ rep self',
    WordleGame.guess cp self G r1 r2 r3 = Ok (rep, self') ∧
    WordleGame.solution self' = WordleGame.solution self ∧
    ((length G = length (WordleGame.solution self) ∧ G ∈ all_words cp ∧
      is_Some (WordleGame.file_obj rep) ∧
      WordleGame.guesses self' = WordleGame.guesses self + 1) ∨
     ((length G ≠ length (WordleGame.solution self) ∨ G ∉ all_words cp) ∧
      self' = self ∧ WordleGame.file_obj rep = None ∧
      WordleGame.msg rep = None ∧ is_Some (WordleGame.emoji rep))).
Proof.
  destruct (decide (length G = length (WordleGame.solution self))) as [Hlen|Hlen].
  - destruct (decide (G ∈ all_words cp)) as [Hin|Hin].
    + destruct (classify_facts _ G Hlen) as (colors & tally & Hcl & _).
      destruct (guess_accepted cp self G r1 r2 r3 colors Hlen Hin Hcl)
        as (rep & self' & Hg & Hfile & Hn & Hs & _).
      exists rep, self'. split_and!; [done..|]. left.
      split_and!; [done..| |done]. rewrite Hfile. eauto.
    + unfold WordleGame.guess.
      rewrite decide_False by (intros ?; done).
      rewrite decide_True by done.
      eexists _, _. split_and!; [done..|]. right.
      cbn [WordleGame.file_obj WordleGame.msg WordleGame.emoji].
      split_and!; [by right|done..|eauto].
  - unfold WordleGame.guess. rewrite decide_True by done.
    eexists _, _. split_and!; [done..|]. right.
    cbn [WordleGame.file_obj WordleGame.msg WordleGame.emoji].
    split_and!; [by left|done..|eauto].
Qed.

(** ** The corpus: order, and word files with foreign characters *)

Lemma key_le_total k1 k2 : key_le k1 k2 = true ∨ key_le k2 k1 = true.
Proof.
  revert k2. induction k1 as [|a k1 IH]; intros [|b k2]; cbn [key_le]; auto.
  destruct (Nat.ltb_spec a b), (Nat.ltb_spec b a); auto; lia.
Qed.

Lemma key_le_trans k1 k2 k3 :
  key_le k1 k2 = true → key_le k2 k3 = true → key_le k1 k3 = true.
Proof.
  revert k2 k3. induction k1 as [|a k1 IH]; intros [|b k2] [|c k3]; cbn [key_le];
    try done.
  destruct (Nat.ltb_spec a b), (Nat.ltb_spec b a), (Nat.ltb_spec b c),
    (Nat.ltb_spec c b), (Nat.ltb_spec a c), (Nat.ltb_spec c a);
    try done; try lia; eauto.
Qed.

Global Instance keyed_le_total : Total keyed_le.
Proof. intros x y. apply key_le_total. Qed.

Global Instance keyed_le_trans : Transitive keyed_le.
Proof. intros x y z. apply key_le_trans. Qed.

Lemma str_index_cases c s :
  (c ∈ s ∧ (∃ i, str_index c s = Ok i)) ∨ ((c ∉ s) ∧ str_index c s = Raise ValueError).
Proof.
  destruct (decide (c ∈ s)) as [Hc|Hc]; [left; split; [done|by apply str_index_ok]|].
  right. split; [done|]. induction s as [|x s IH]; [done|].
  cbn [str_index]. apply not_elem_of_cons in Hc as [Hne Hc].
  rewrite decide_False by done. rewrite (IH Hc). done.
Qed.

Lemma collation_key_cases w :
  (cyrillic w ∧ ∃ k, collation_key w = Ok k) ∨
  (¬ cyrillic w ∧ collation_key w = Raise ValueError).
Proof.
  induction w as [|c w IH].
  - left. split; [constructor|by eexists].
  - cbn [collation_key].
    destruct (str_index_cases c ALPHABET) as [[Hc [i ->]]|[Hc ->]].
    + res_simpl. destruct IH as [[Hw [k ->]]|[Hw ->]].
      * left. split; [by constructor|]. res_simpl. eauto.
      * right. split; [|done]. intros Hcw. apply Hw. by inversion Hcw.
    + right. split; [|done]. intros Hcw. apply Hc. by inversion Hcw.
Qed.

Lemma decorate_cases l :
  (Forall cyrillic l ∧
   ∃ d, decorate l = Ok d ∧ Forall (λ x, collation_key x.2 = Ok x.1) d) ∨
  (¬ Forall cyrillic l ∧ decorate l = Raise ValueError).
Proof.
  induction l as [|w l IH].
  - left. split; [constructor|]. eexists. split; [done|constructor].
  - cbn [decorate].
    destruct (collation_key_cases w) as [[Hw [k Hk]]|[Hw ->]].
    + rewrite Hk. res_simpl. destruct IH as [[Hl (d & -> & Hd)]|[Hl ->]].
      * left. split; [by constructor|]. res_simpl. eexists. split; [done|].
        by constructor.
      * right. split; [|done]. intros Hwl. apply Hl. by inversion Hwl.
    + right. split; [|done]. intros Hwl. apply Hw. by inversion Hwl.
Qed.

Lemma StronglySorted_and {A} (R : relation A) (P : A → Prop) l :
  StronglySorted R l → Forall P l →
  StronglySorted (λ x y, R x y ∧ P x ∧ P y) l.
Proof.
  induction 1 as [|x l Hs IH Hx]; intros HP; [constructor|].
  inversion HP as [|?? Hpx Hpl]; subst. constructor; [by apply IH|].
  apply Forall_forall. intros y Hy. split_and!.
  - by eapply Forall_forall in Hx.
  - done.
  - by eapply Forall_forall in Hpl.
Qed.

Lemma sort_by_alphabet_cases l :
  (Forall cyrillic l ∧
   ∃ l', sort_by_alphabet l = Ok l' ∧ l' ≡ₚ l ∧ StronglySorted alphabetical l') ∨
  (¬ Forall cyrillic l ∧ sort_by_alphabet l = Raise ValueError).
Proof.
  unfold sort_by_alphabet.
  destruct (decorate_cases l) as [[Hl (d & Hd & Hkeys)]|[Hl ->]]; [|by right].
  left. split; [done|]. rewrite Hd. res_simpl. eexists. split; [done|]. split.
  - rewrite merge_sort_Permutation. by rewrite (decorate_words _ _ Hd).
  - eapply (StronglySorted_fmap snd
      (λ x y, keyed_le x y ∧ collation_key x.2 = Ok x.1 ∧ collation_key y.2 = Ok y.1)).
    + intros x y (Hle & Hx & Hy). exists x.1, y.1. done.
    + apply StronglySorted_and.
      * apply (StronglySorted_merge_sort keyed_le).
      * rewrite merge_sort_Permutation. done.
Qed.

Lemma remove_first_in {A} `{EqDecision A} (x w : A) l :
  w ∈ remove_first x l → w ∈ l.
Proof.
  induction l as [|y l IH]; cbn [remove_first]; [done|].
  destruct (decide (y = x)); rewrite ?elem_of_cons; naive_solver.
Qed.

Lemma remove_first_sorted {A} `{EqDecision A} (R : relation A) (x : A) l :
  StronglySorted R l → StronglySorted R (remove_first x l).
Proof.
  induction 1 as [|y l Hs IH Hy]; cbn [remove_first]; [constructor|].
  destruct (decide (y = x)); [done|]. constructor; [done|].
  apply Forall_forall. intros w Hw%remove_first_in.
  by eapply Forall_forall in Hy.
Qed.

Lemma remove_all_in (removed l : list pystr) w :
  w ∈ foldl (λ cw r, remove_first r cw) l removed → w ∈ l.
Proof.
  revert l. induction removed as [|x removed IH]; intros l; cbn [foldl]; [done|].
  intros Hw%IH. by eapply remove_first_in.
Qed.

Lemma remove_all_sorted (R : relation pystr) (removed l : list pystr) :
  StronglySorted R l →
  StronglySorted R (foldl (λ cw r, remove_first r cw) l removed).
Proof.
  revert l. induction removed as [|x removed IH]; intros l Hl; cbn [foldl]; [done|].
  apply IH. by apply remove_first_sorted.
Qed.

(** What the loading code does, in full. *)
Lemma load_corpus_cases (twentythousandwords wiktionary_ru removed_words : list pystr) :
  (Forall cyrillic (twentythousandwords ++ wiktionary_ru) ∧
   ∃ cp, load_corpus twentythousandwords wiktionary_ru removed_words = Ok cp ∧
     StronglySorted alphabetical (all_words cp) ∧
     StronglySorted alphabetical (common_words cp) ∧
     corpus_ok cp) ∨
  (¬ Forall cyrillic (twentythousandwords ++ wiktionary_ru) ∧
   load_corpus twentythousandwords wiktionary_ru removed_words = Raise ValueError).
Proof.
  unfold load_corpus.
  destruct (sort_by_alphabet_cases twentythousandwords)
    as [[Hc (common0 & -> & Hp0 & Hs0)]|[Hc ->]].
  2:{ right. split; [|done]. intros Hall. apply Hc.
      by apply Forall_app in Hall as [? _]. }
  res_simpl.
  destruct (sort_by_alphabet_cases (dict_fromkeys_list (wiktionary_ru ++ common0)))
    as [[Ha (all & -> & Hpa & Hsa)]|[Ha ->]].
  2:{ right. split; [|done]. intros Hall. apply Ha.
      apply Forall_app in Hall as [Htw Hwk].
      apply Forall_forall. intros w Hw.
      apply (proj1 (dict_fromkeys_list_elem _ _)) in Hw.
      apply elem_of_app in Hw as [Hw|Hw].
      - by eapply Forall_forall in Hwk.
      - rewrite Hp0 in Hw. by eapply Forall_forall in Htw. }
  res_simpl. left. split.
  - apply Forall_app. split; [done|].
    apply Forall_forall. intros w Hw. eapply Forall_forall in Ha; [done|].
    apply dict_fromkeys_list_elem, elem_of_app. by left.
  - eexists. split; [done|].
    cbn [all_words common_words common_words_by_length].
    split; [done|]. split; [by apply remove_all_sorted|].
    split; [reflexivity|].
    cbn [all_words common_words common_words_by_length].
    intros w Hw%remove_all_in.
    rewrite Hpa. apply dict_fromkeys_list_elem, elem_of_app. by right.
Qed.

(** X4. A word file with a character outside the alphabet stops the
    loading with [ValueError], whatever the removed-words file holds; word
    files over the alphabet load.  No other exception comes out of the
    loading code. *)
Theorem corpus_foreign_character
    (twentythousandwords wiktionary_ru removed_words : list pystr) :
  (load_corpus twentythousandwords wiktionary_ru removed_words = Raise ValueError
   ↔ ∃ w c, (w ∈ twentythousandwords ∨ w ∈ wiktionary_ru) ∧ c ∈ w ∧ c ∉ ALPHABET) ∧
  (∀ e, load_corpus twentythousandwords wiktionary_ru removed_words = Raise e →
        e = ValueError).
Proof.
  destruct (load_corpus_cases twentythousandwords wiktionary_ru removed_words)
    as [[Hall (cp & -> & _)]|[Hall ->]].
  - split; [|done]. split; [done|]. intros (w & c & Hw & Hc & Hnot).
    exfalso. apply Hnot.
    assert (w ∈ twentythousandwords ++ wiktionary_ru) as Hin
      by (apply elem_of_app; tauto).
    eapply Forall_forall in Hall; [|done].
    by eapply Forall_forall in Hall.
  - split; [|by intros e [= <-]]. split; [|done]. intros _.
    apply not_Forall_Exists in Hall; [|apply _].
    apply Exists_exists in Hall as (w & Hw & Hnot).
    apply not_Forall_Exists in Hnot; [|apply _].
    apply Exists_exists in Hnot as (c & Hc & Hnc).
    exists w, c. apply elem_of_app in Hw. split; [done|]. split; done.
Qed.

(** X5. After loading, the merged list and the target list are both in the
    order of the alphabet of the game (with [ё] after [е]), every target
    word is a valid guess, and the buckets are the target words by
    length. *)
Theorem corpus_sorted
    (twentythousandwords wiktionary_ru removed_words : list pystr) (cp : Corpus) :
  load_corpus twentythousandwords wiktionary_ru removed_words = Ok cp →
  StronglySorted alphabetical (all_words cp) ∧
  StronglySorted alphabetical (common_words cp) ∧
  (∀ w, w ∈ common_words cp → w ∈ all_words cp) ∧
  (∀ i bucket, common_words_by_length cp !! i = Some bucket →
     (i < 24)%nat ∧ ∀ w, w ∈ bucket ↔ w ∈ common_words cp ∧ length w = i).
Proof.
  intros Hload.
  destruct (load_corpus_cases twentythousandwords wiktionary_ru removed_words)
    as [[_ (cp' & Hcp & Hsa & Hsc & Hb & Hsub)]|[_ Hr]]; [|congruence].
  assert (cp' = cp) as -> by congruence.
  split_and!; [done..|]. intros i bucket Hi. rewrite Hb in Hi.
  rewrite list_lookup_fmap in Hi.
  destruct (seq 0 24 !! i) as [i'|] eqn:Hseq; [|done].
  apply lookup_seq in Hseq as [-> Hlt]. injection Hi as <-.
  split; [done|]. intros w. rewrite list_elem_of_filter. tauto.
Qed.

Lemma corpus_sorted_witness :
  ∃ cp, load_corpus [leto; kot] [kot; kit] [kot] = Ok cp ∧
    StronglySorted alphabetical (all_words cp) ∧
    StronglySorted alphabetical (common_words cp) ∧
    (∀ w, w ∈ common_words cp → w ∈ all_words cp) ∧
    (∀ i bucket, common_words_by_length cp !! i = Some bucket →
       (i < 24)%nat ∧ ∀ w, w ∈ bucket ↔ w ∈ common_words cp ∧ length w = i).
Proof.
  eexists. split.
  - vm_compute. reflexivity.
  - apply (corpus_sorted [leto; kot] [kot; kit] [kot]). vm_compute. reflexivity.
Defined.

(** ** The [remove] command *)

Lemma filter_remove_first_in {A} `{EqDecision A} (P : A → Prop)
    `{!∀ x, Decision (P x)} (x : A) l :
  P x → filter P (remove_first x l) = remove_first x (filter P l).
Proof.
  intros HP. induction l as [|y l IH]; [done|]. cbn [remove_first].
  destruct (decide (y = x)) as [->|Hne].
  - rewrite filter_cons_True by done. cbn [remove_first].
    by rewrite decide_True.
  - rewrite !filter_cons. destruct (decide (P y)); [|done].
    cbn [remove_first]. rewrite decide_False by done. by rewrite IH.
Qed.

Lemma filter_remove_first_out {A} `{EqDecision A} (P : A → Prop)
    `{!∀ x, Decision (P x)} (x : A) l :
  ¬ P x → filter P (remove_first x l) = filter P l.
Proof.
  intros HP. induction l as [|y l IH]; [done|]. cbn [remove_first].
  destruct (decide (y = x)) as [->|Hne].
  - by rewrite filter_cons_False.
  - rewrite !filter_cons. destruct (decide (P y)); by rewrite IH.
Qed.

(** Taking a word out of its bucket gives the buckets of the shorter list. *)
Lemma buckets_remove (common : list pystr) (w : pystr) :
  (length w < 24)%nat →
  <[length w := remove_first w (filter (λ v, length v = length w) common)]>
    ((λ i, filter (λ v, length v = i) common) <$> seq 0 24)
  = (λ i, filter (λ v, length v = i) (remove_first w common)) <$> seq 0 24.
Proof.
  intros Hlt. apply list_eq. intros i.
  destruct (decide (i = length w)) as [->|Hne].
  - rewrite list_lookup_insert_eq by (rewrite length_fmap, length_seq; done).
    rewrite list_lookup_fmap, lookup_seq_lt by done. cbn.
    by rewrite filter_remove_first_in.
  - rewrite list_lookup_insert_ne by done. rewrite !list_lookup_fmap.
    destruct (seq 0 24 !! i) as [i'|] eqn:Hseq; [|done].
    apply lookup_seq in Hseq as [-> _]. cbn.
    rewrite filter_remove_first_out; [done|]. cbn. lia.
Qed.

(** A word of 24 letters or more is in no bucket. *)
Lemma buckets_long (common : list pystr) (w : pystr) :
  (24 ≤ length w)%nat →
  (λ i, filter (λ v, length v = i) (remove_first w common)) <$> seq 0 24
  = (λ i, filter (λ v, length v = i) common) <$> seq 0 24.
Proof.
  intros Hge. apply list_eq. intros i. rewrite !list_lookup_fmap.
  destruct (seq 0 24 !! i) as [i'|] eqn:Hseq; [|done].
  apply lookup_seq in Hseq as [-> Hlt]. cbn.
  rewrite filter_remove_first_out; [done|]. cbn. lia.
Qed.

Lemma list_remove_in {A} `{EqDecision A} (x : A) l :
  x ∈ l → list_remove x l = Ok (remove_first x l).
Proof. intros Hx. unfold list_remove. by rewrite decide_True. Qed.

Lemma list_remove_out {A} `{EqDecision A} (x : A) l :
  x ∉ l → list_remove x l = Raise ValueError.
Proof. intros Hx. unfold list_remove. by rewrite decide_False. Qed.

(** The three ways the command ends on a corpus whose buckets follow the
    target words. *)
Lemma remove_cases (cp : Corpus) (rm : list pystr) (word : pystr) :
  buckets_by_length cp → word ≠ [] →
  ((word ∉ common_words cp) ∧
   remove (Some word) cp rm = (Returned (NotInList word), (cp, rm))) ∨
  (word ∈ common_words cp ∧ (24 ≤ length word)%nat ∧
   remove (Some word) cp rm
   = (Raised IndexError,
      (with_common_words cp (remove_first word (common_words cp)), rm))) ∨
  (word ∈ common_words cp ∧ (length word < 24)%nat ∧
   remove (Some word) cp rm
   = (Returned (Removing word),
      ({| common_words := remove_first word (common_words cp);
          all_words := all_words cp;
          common_words_by_length :=
            (λ i, filter (λ v, length v = i) (remove_first word (common_words cp)))
              <$> seq 0 24 |},
       rm ++ [word]))).
Proof.
  intros Hb Hne. unfold buckets_by_length in Hb.
  unfold remove. rewrite decide_False by done.
  destruct (decide (word ∈ common_words cp)) as [Hin|Hin].
  2:{ left. split; [done|]. by rewrite list_remove_out. }
  right. rewrite list_remove_in by done.
  cbn [with_common_words common_words_by_length].
  unfold getitem. rewrite Hb, list_lookup_fmap.
  destruct (decide (length word < 24)%nat) as [Hlt|Hge].
  - right. split; [done|]. split; [done|].
    rewrite lookup_seq_lt by done. cbn [fmap option_fmap option_map plus].
    rewrite list_remove_in by (apply list_elem_of_filter; done).
    unfold with_buckets. cbn [common_words all_words common_words_by_length].
    by rewrite buckets_remove.
  - left. split; [done|]. split; [lia|].
    rewrite lookup_seq_ge by lia. cbn. unfold with_common_words. by rewrite Hb.
Qed.

Lemma remove_first_subset (cp : Corpus) (w : pystr) :
  (∀ v, v ∈ common_words cp → v ∈ all_words cp) →
  ∀ v, v ∈ remove_first w (common_words cp) → v ∈ all_words cp.
Proof. intros Hsub v Hv. apply Hsub. by eapply remove_first_in. Qed.

Lemma remove_corpus_ok (word : option pystr) (cp : Corpus) (rm : list pystr) :
  corpus_ok cp → corpus_ok (remove word cp rm).2.1.
Proof.
  intros [Hb Hsub]. destruct word as [word|]; [|done].
  destruct (decide (word = [])) as [->|Hne]; [done|].
  destruct (remove_cases cp rm word Hb Hne)
    as [[_ ->]|[(_ & Hge & ->)|(_ & Hlt & ->)]]; [done| |].
  - split.
    + unfold buckets_by_length, with_common_words.
      cbn [snd fst common_words common_words_by_length].
      rewrite buckets_long by done. exact Hb.
    + cbn [snd fst with_common_words common_words all_words].
      by apply remove_first_subset.
  - split; [reflexivity|].
    cbn [snd fst common_words all_words]. by apply remove_first_subset.
Qed.

(** X6. Whatever the command is given and however it ends, the buckets
    still are the target words by length afterwards, every target word is
    still a valid guess, and the merged list is not touched. *)
Theorem remove_keeps_corpus
    (word : option pystr) (cp : Corpus) (removed_words_txt : list pystr) :
  corpus_ok cp →
  corpus_ok (remove word cp removed_words_txt).2.1 ∧
  all_words (remove word cp removed_words_txt).2.1 = all_words cp ∧
  (∀ w, w ∈ common_words (remove word cp removed_words_txt).2.1 → w ∈ common_words cp).
Proof.
  intros Hok. split; [by apply remove_corpus_ok|].
  destruct Hok as [Hb _]. destruct word as [word|]; [|done].
  destruct (decide (word = [])) as [->|Hne]; [done|].
  destruct (remove_cases cp removed_words_txt word Hb Hne)
    as [[_ ->]|[(_ & _ & ->)|(_ & _ & ->)]]; (split; [done|]);
    cbn [snd fst with_common_words common_words]; try done;
    intros w Hw; by eapply remove_first_in.
Qed.

Lemma remove_keeps_corpus_witness :
  corpus_ok (remove (Some slovo) bee_corpus []).2.1 ∧
  all_words (remove (Some slovo) bee_corpus []).2.1 = all_words bee_corpus ∧
  (∀ w, w ∈ common_words (remove (Some slovo) bee_corpus []).2.1 →
        w ∈ common_words bee_corpus).
Proof.
  apply (remove_keeps_corpus (Some slovo) bee_corpus []).
  split; [reflexivity|].
  intros w Hw. apply (bool_decide_unpack _).
  revert w Hw. apply Forall_forall. repeat constructor.
Defined.

(** X7. Removing a target word of fewer than 24 letters is recorded: the
    command answers that it removes the word, appends it to
    [removed_words.txt], and leaves the lists as loading the word files
    with the longer removed-words file builds them. *)
Theorem remove_is_recorded
    (twentythousandwords wiktionary_ru removed_words_txt : list pystr)
    (cp : Corpus) (word : pystr) :
  load_corpus twentythousandwords wiktionary_ru removed_words_txt = Ok cp →
  word ∈ common_words cp →
  (0 < length word < 24)%nat →
  ∃ cp',
    remove (Some word) cp removed_words_txt
    = (Returned (Removing word), (cp', removed_words_txt ++ [word])) ∧
    load_corpus twentythousandwords wiktionary_ru (removed_words_txt ++ [word]) = Ok cp'.
Proof.
  intros Hload Hin [Hpos Hlt].
  destruct (load_corpus_cases twentythousandwords wiktionary_ru removed_words_txt)
    as [[_ (cp0 & Hcp & _ & _ & Hb & _)]|[_ Hr]]; [|congruence].
  assert (cp0 = cp) as -> by congruence.
  assert (word ≠ []) as Hne by (intros ->; cbn in Hpos; lia).
  destruct (remove_cases cp removed_words_txt word Hb Hne)
    as [[Hout _]|[(_ & Hge & _)|(_ & _ & ->)]]; [done|lia|].
  eexists. split; [done|].
  revert Hload. unfold load_corpus.
  destruct (sort_by_alphabet twentythousandwords) as [common0|]; [|done].
  res_simpl.
  destruct (sort_by_alphabet (dict_fromkeys_list (wiktionary_ru ++ common0)))
    as [all|]; [|done].
  res_simpl. intros [= <-]. cbn [common_words all_words].
  by rewrite foldl_app.
Qed.

Lemma remove_is_recorded_witness :
  ∃ cp',
    remove (Some leto) {| common_words := [leto]; all_words := [kit; kot; leto];
                          common_words_by_length :=
                            (λ i, filter (λ w, length w = i) [leto]) <$> seq 0 24 |} [kot]
    = (Returned (Removing leto), (cp', [kot] ++ [leto])) ∧
    load_corpus [kot; leto] [kit; kot] ([kot] ++ [leto]) = Ok cp'.
Proof.
  apply (remove_is_recorded [kot; leto] [kit; kot] [kot]).
  - vm_compute. reflexivity.
  - cbn [common_words]. apply list_elem_of_here.
  - vm_compute. lia.
Defined.

(** X8. A target word of 24 letters or more is taken out of the target
    list, but the command then fails with [IndexError] on the bucket
    table: nothing is written to [removed_words.txt], so the word is back
    after the next start. *)
Theorem remove_long_word_not_recorded
    (twentythousandwords wiktionary_ru removed_words_txt : list pystr)
    (cp : Corpus) (word : pystr) :
  load_corpus twentythousandwords wiktionary_ru removed_words_txt = Ok cp →
  word ∈ common_words cp →
  (24 ≤ length word)%nat →
  ∃ cp',
    remove (Some word) cp removed_words_txt = (Raised IndexError, (cp', removed_words_txt)) ∧
    common_words cp' = remove_first word (common_words cp) ∧
    common_words_by_length cp' = common_words_by_length cp.
Proof.
  intros Hload Hin Hge.
  destruct (load_corpus_cases twentythousandwords wiktionary_ru removed_words_txt)
    as [[_ (cp0 & Hcp & _ & _ & Hb & _)]|[_ Hr]]; [|congruence].
  assert (cp0 = cp) as -> by congruence.
  assert (word ≠ []) as Hne by (intros ->; cbn in Hge; lia).
  destruct (remove_cases cp removed_words_txt word Hb Hne)
    as [[Hout _]|[(_ & _ & ->)|(_ & Hlt & _)]]; [done| |lia].
  eexists. split; [done|]. done.
Qed.

Lemma remove_long_word_not_recorded_witness :
  ∃ cp',
    remove (Some long_word) long_corpus [] = (Raised IndexError, (cp', [])) ∧
    common_words cp' = remove_first long_word (common_words long_corpus) ∧
    common_words_by_length cp' = common_words_by_length long_corpus.
Proof.
  apply (remove_long_word_not_recorded [long_word; slovo] [] []).
  - vm_compute. reflexivity.
  - cbn [common_words long_corpus]. apply list_elem_of_here.
  - vm_compute. lia.
Defined.

(** ** Wordle: the word of a fresh game *)

Lemma random_choices_range (x : nat) :
  (4 ≤ random_choices x LENGTH_WEIGHTS ≤ 8)%nat.
Proof.
  unfold random_choices.
  change (list_sum LENGTH_WEIGHTS) with 25%nat.
  pose proof (Nat.mod_upper_bound x 25 ltac:(done)) as Hlt.
  generalize dependent (x mod 25)%nat. intros m Hlt.
  do 25 (destruct m as [|m]; [vm_compute; lia|]). lia.
Qed.

Lemma random_choice_in {A} (r : nat) (l : list A) x :
  random_choice r l = Ok x → x ∈ l.
Proof.
  unfold random_choice, getitem.
  destruct (l !! (r mod length l)%nat) as [y|] eqn:Hy; [|done].
  intros [= <-]. by eapply list_elem_of_lookup_2.
Qed.

(** A word that the loop comes out with is a non-empty word of the bucket
    of one of the drawn lengths. *)
Lemma pick_solution_in (cp : Corpus) draws s :
  pick_solution cp draws = Some s →
  s ≠ [] ∧
  ∃ x r bucket, (x, r) ∈ draws ∧
    common_words_by_length cp !! random_choices x LENGTH_WEIGHTS = Some bucket ∧
    s ∈ bucket.
Proof.
  induction draws as [|[x r] rest IH]; [done|]. cbn [pick_solution].
  assert (pick_solution cp rest = Some s →
    s ≠ [] ∧ ∃ x0 r0 bucket, (x0, r0) ∈ (x, r) :: rest ∧
      common_words_by_length cp !! random_choices x0 LENGTH_WEIGHTS = Some bucket ∧
      s ∈ bucket) as Hrest.
  { intros (Hne & x0 & r0 & bucket & Hin & Hb & Hs)%IH. split; [done|].
    exists x0, r0, bucket. split; [by apply list_elem_of_further|done]. }
  unfold getitem.
  destruct (common_words_by_length cp !! random_choices x LENGTH_WEIGHTS)
    as [bucket|] eqn:Hb; [|exact Hrest].
  res_simpl. destruct (random_choice r bucket) as [[|c w]|] eqn:Hr; try exact Hrest.
  intros [= <-]. split; [done|]. exists x, r, bucket.
  split; [apply list_elem_of_here|]. split; [done|]. by eapply random_choice_in.
Qed.

Lemma bucket_lookup (cp : Corpus) i bucket :
  buckets_by_length cp →
  common_words_by_length cp !! i = Some bucket →
  (i < 24)%nat ∧ bucket = filter (λ w, length w = i) (common_words cp).
Proof.
  unfold buckets_by_length. intros -> Hi. rewrite list_lookup_fmap in Hi.
  destruct (seq 0 24 !! i) as [i'|] eqn:Hseq; [|done].
  apply lookup_seq in Hseq as [-> Hlt]. by injection Hi as <-.
Qed.

(** What [guess] returns for the solution itself. *)
Lemma guess_win (cp : Corpus) (self : WordleGame.t) (r1 r2 r3 : nat) :
  WordleGame.solution self ∈ all_words cp →
  ∃ rep colors,
    WordleGame.guess cp self (WordleGame.solution self) r1 r2 r3
    = Ok (rep, {| WordleGame.state := FINISHED;
                  WordleGame.guesses := WordleGame.guesses self + 1;
                  WordleGame.solution := WordleGame.solution self |}) ∧
    WordleGame.emoji rep
    = (if decide (4 * (WordleGame.guesses self + 1)
                  ≤ 3 * Z.of_nat (length (WordleGame.solution self)))
       then Some (u "😲")
       else if decide (WordleGame.guesses self + 1
                       ≤ 2 * Z.of_nat (length (WordleGame.solution self)))
       then Some (u "🍬") else None) ∧
    is_Some (WordleGame.msg rep) ∧
    WordleGame.file_obj rep
    = Some {| img_word := WordleGame.solution self; img_colors := colors |} ∧
    Forall (λ c, c = COLOR_CORRECT) colors.
Proof.
  intros Hin.
  destruct (classify_facts (WordleGame.solution self) (WordleGame.solution self) eq_refl)
    as (colors & tally & Hcl & (Hl & Hcol & _) & _). cbn [fst snd] in *.
  unfold WordleGame.guess.
  rewrite decide_False by (intros ?; done).
  rewrite decide_False by (intros ?; done).
  rewrite Hcl. res_simpl.
  rewrite (decide_False (P := _ ≠ _)) by (intros Hne; by apply Hne).
  destruct (random_choice_ok r1 WordleGame.praise1) as (m1 & -> & _); [done|].
  destruct (random_choice_ok r2 WordleGame.praise2) as (m2 & -> & _); [done|].
  destruct (random_choice_ok r3 WordleGame.smileys) as (m3 & -> & _); [done|].
  res_simpl. eexists _, colors. split; [done|].
  cbn [WordleGame.file_obj WordleGame.guesses WordleGame.solution WordleGame.state
       WordleGame.emoji WordleGame.msg].
  split_and!; [done|eauto|done|].
  by apply (proj2 (all_correct_iff (WordleGame.solution self) _ colors eq_refl Hl Hcol)).
Qed.

Lemma WordleGame_init_fresh (cp : Corpus) draws :
  WordleGame_init cp None draws
  = match pick_solution cp draws with
    | Some w => Returned {| WordleGame.state := CONTINUE; WordleGame.guesses := 0;
                            WordleGame.solution := w |}
    | None => Pending
    end.
Proof. done. Qed.

Lemma fresh_wordle_facts (cp : Corpus) draws g :
  corpus_ok cp →
  WordleGame_init cp None draws = Returned g →
  WordleGame.state g = CONTINUE ∧ WordleGame.guesses g = 0 ∧
  WordleGame.solution g ∈ common_words cp ∧
  WordleGame.solution g ∈ all_words cp ∧
  (4 ≤ length (WordleGame.solution g) ≤ 8)%nat.
Proof.
  intros [Hb Hsub]. rewrite WordleGame_init_fresh.
  destruct (pick_solution cp draws) as [w|] eqn:Hpick; [|done].
  intros [= <-]. cbn [WordleGame.state WordleGame.guesses WordleGame.solution].
  destruct (pick_solution_in _ _ _ Hpick) as (_ & x & r & bucket & _ & Hbucket & Hw).
  destruct (bucket_lookup _ _ _ Hb Hbucket) as [_ ->].
  apply list_elem_of_filter in Hw as [Hlen Hw].
  pose proof (random_choices_range x).
  split_and!; [done..|by apply Hsub|lia|lia].
Qed.

(** X9. A fresh Wordle game never comes out of an exception; when the
    constructor returns, the game is in the state Continue with no guesses
    counted, its solution is a target word of 4 to 8 letters, and that word
    is a valid guess: typing it as the first guess wins the game with the
    reaction for a fast win. *)
Theorem wordle_fresh_game (cp : Corpus) (draws : list (nat * nat)) :
  corpus_ok cp →
  (∀ e, WordleGame_init cp None draws ≠ Raised e) ∧
  ∀ g, WordleGame_init cp None draws = Returned g →
    WordleGame.state g = CONTINUE ∧ WordleGame.guesses g = 0 ∧
    WordleGame.solution g ∈ common_words cp ∧
    (4 ≤ length (WordleGame.solution g) ≤ 8)%nat ∧
    ∀ r1 r2 r3, ∃ rep g',
      WordleGame.guess cp g (WordleGame.solution g) r1 r2 r3 = Ok (rep, g') ∧
      WordleGame.state g' = FINISHED ∧ WordleGame.guesses g' = 1 ∧
      WordleGame.emoji rep = Some (u "😲").
Proof.
  intros Hok. split.
  { intros e. rewrite WordleGame_init_fresh. by destruct (pick_solution cp draws). }
  intros g Hg.
  destruct (fresh_wordle_facts cp draws g Hok Hg) as (Hs & Hn & Hc & Ha & Hlen).
  split_and!; [done|done|done|lia|lia|]. intros r1 r2 r3.
  destruct (guess_win cp g r1 r2 r3 Ha) as (rep & colors & Hguess & Hem & _).
  eexists rep, _. split; [exact Hguess|].
  cbn [WordleGame.state WordleGame.guesses]. split; [done|]. split; [lia|].
  rewrite Hem. rewrite decide_True by lia. done.
Qed.

Lemma wordle_fresh_game_witness :
  (∀ e, WordleGame_init wordle_corpus None [(4, 0)]%nat ≠ Raised e) ∧
  ∀ g, WordleGame_init wordle_corpus None [(4, 0)]%nat = Returned g →
    WordleGame.state g = CONTINUE ∧ WordleGame.guesses g = 0 ∧
    WordleGame.solution g ∈ common_words wordle_corpus ∧
    (4 ≤ length (WordleGame.solution g) ≤ 8)%nat ∧
    ∀ r1 r2 r3, ∃ rep g',
      WordleGame.guess wordle_corpus g (WordleGame.solution g) r1 r2 r3 = Ok (rep, g') ∧
      WordleGame.state g' = FINISHED ∧ WordleGame.guesses g' = 1 ∧
      WordleGame.emoji rep = Some (u "😲").
Proof.
  apply (wordle_fresh_game wordle_corpus [(4, 0)]%nat).
  split; [reflexivity|].
  intros w Hw. apply (bool_decide_unpack _).
  revert w Hw. apply Forall_forall. repeat constructor.
Defined.

(** X10. The constructor's loop ends at the first round whose drawn length
    has a target word: the solution then has that length.  Rounds that draw
    a length without target words are skipped. *)
Theorem wordle_fresh_returns
    (cp : Corpus) (x r : nat) (rest : list (nat * nat)) :
  buckets_by_length cp →
  (if decide (Exists (λ v, length v = random_choices x LENGTH_WEIGHTS) (common_words cp))
   then ∃ g, WordleGame_init cp None ((x, r) :: rest) = Returned g ∧
             length (WordleGame.solution g) = random_choices x LENGTH_WEIGHTS
   else WordleGame_init cp None ((x, r) :: rest) = WordleGame_init cp None rest).
Proof.
  intros Hb. rewrite !WordleGame_init_fresh. cbn [pick_solution].
  pose proof (random_choices_range x) as Hrange.
  set (len := random_choices x LENGTH_WEIGHTS) in *.
  assert (common_words_by_length cp !! len
          = Some (filter (λ w, length w = len) (common_words cp))) as Hlook.
  { unfold buckets_by_length in Hb.
    rewrite Hb, list_lookup_fmap, lookup_seq_lt by lia. done. }
  unfold getitem. rewrite Hlook. res_simpl.
  destruct (decide (Exists (λ v, length v = len) (common_words cp)))
    as [(v & Hv & Hlen)%Exists_exists|Hnone].
  - destruct (random_choice_ok r (filter (λ w, length w = len) (common_words cp)))
      as (w & -> & Hw).
    { intros Hnil. assert (v ∈ filter (λ w, length w = len) (common_words cp)) as Hin
        by (by apply list_elem_of_filter).
      rewrite Hnil in Hin. by apply elem_of_nil in Hin. }
    apply list_elem_of_filter in Hw as [Hwl Hw].
    destruct w as [|c w]; [change (0%nat = len) in Hwl; lia|].
    eexists. split; [done|]. done.
  - assert (filter (λ w, length w = len) (common_words cp) = []) as ->.
    { destruct (filter (λ w, length w = len) (common_words cp)) as [|w l] eqn:Hf; [done|].
      exfalso. apply Hnone, Exists_exists. exists w.
      assert (w ∈ filter (λ w, length w = len) (common_words cp)) as Hw
        by (rewrite Hf; apply list_elem_of_here).
      apply list_elem_of_filter in Hw as [? ?]. done. }
    done.
Qed.

Lemma wordle_fresh_returns_witness :
  (if decide (Exists (λ v, length v = random_choices 4 LENGTH_WEIGHTS)
                     (common_words wordle_corpus))
   then ∃ g, WordleGame_init wordle_corpus None [(4, 0)]%nat = Returned g ∧
             length (WordleGame.solution g) = random_choices 4 LENGTH_WEIGHTS
   else WordleGame_init wordle_corpus None [(4, 0)]%nat
        = WordleGame_init wordle_corpus None []).
Proof.
  apply (wordle_fresh_returns wordle_corpus 4 0 []). reflexivity.
Defined.

(** ** Spelling Bee: what a sequence of guesses keeps *)

Lemma grows_refl m : grows [] m m.
Proof. intros w. destruct (m !! w) as [[a|]|]; auto. Qed.

Lemma grows_trans c1 c2 m1 m2 m3 :
  grows c1 m1 m2 → grows c2 m2 m3 → grows (c1 ++ c2) m1 m3.
Proof.
  intros H12 H23 w. specialize (H12 w). specialize (H23 w).
  destruct (m1 !! w) as [[a|]|].
  - by rewrite H12 in H23.
  - destruct H12 as [H12|(a & H12 & Ha)]; rewrite H12 in H23.
    + destruct H23 as [?|(a & ? & Ha)]; [by left|right].
      exists a. split; [done|]. apply elem_of_app. by right.
    + right. exists a. split; [done|]. apply elem_of_app. by left.
  - by rewrite H12 in H23.
Qed.

Lemma grows_insert m w a :
  m !! w = Some None → grows [(w, a)] m (<[w := Some a]> m).
Proof.
  intros Hw w'. destruct (decide (w' = w)) as [->|Hne].
  - rewrite Hw, lookup_insert_eq. right. exists a. split; [done|].
    apply list_elem_of_here.
  - rewrite lookup_insert_ne by done. destruct (m !! w') as [[b|]|]; auto.
Qed.

Lemma grows_more c1 c2 m m' : grows c1 m m' → grows (c1 ++ c2) m m'.
Proof.
  intros H w. specialize (H w). destruct (m !! w) as [[a|]|]; [done| |done].
  destruct H as [?|(a & ? & ?)]; [by left|right]. exists a. split; [done|].
  apply elem_of_app. by left.
Qed.

Lemma guess_keeps (cp : Corpus) (g : SpellingGame.t) (w : pystr) (a : Z) :
  let g' := (SpellingGame.guess cp g w a).2 in
  SpellingGame.root_word g' = SpellingGame.root_word g ∧
  SpellingGame.deadline g' = SpellingGame.deadline g ∧
  grows [(w, a)] (SpellingGame.words g) (SpellingGame.words g') ∧
  grows [(w, a)] (SpellingGame.other_words g) (SpellingGame.other_words g').
Proof.
  cbv zeta. unfold SpellingGame.guess.
  destruct (SpellingGame.words g !! w) as [[b|]|] eqn:Hw.
  - cbn [snd]. split_and!; [done..| |]; apply (grows_more []), grows_refl.
  - destruct (decide _); cbn [snd SpellingGame.set_state SpellingGame.set_words
      SpellingGame.root_word SpellingGame.deadline SpellingGame.words
      SpellingGame.other_words];
      (split_and!; [done..|by apply grows_insert|apply (grows_more []), grows_refl]).
  - destruct (SpellingGame.other_words g !! w) as [[b|]|] eqn:Ho.
    + cbn [snd]. split_and!; [done..| |]; apply (grows_more []), grows_refl.
    + cbn [snd SpellingGame.set_other_words
        SpellingGame.root_word SpellingGame.deadline SpellingGame.words
        SpellingGame.other_words].
      split_and!; [done..|apply (grows_more []), grows_refl|by apply grows_insert].
    + destruct (decide _); cbn [snd];
        (split_and!; [done..| |]; apply (grows_more []), grows_refl).
Qed.

(** X11. Whatever is guessed, in whatever order and by whomever, a game
    keeps its root word and its deadline, no word enters or leaves either
    map, an attribution that is recorded is never replaced, and a word that
    was unclaimed is afterwards unclaimed or attributed to a caller who
    guessed it. *)
Theorem spelling_first_claim_stays
    (cp : Corpus) (g : SpellingGame.t) (calls : list (pystr * Z)) :
  let h := run cp g calls in
  SpellingGame.root_word h = SpellingGame.root_word g ∧
  SpellingGame.deadline h = SpellingGame.deadline g ∧
  grows calls (SpellingGame.words g) (SpellingGame.words h) ∧
  grows calls (SpellingGame.other_words g) (SpellingGame.other_words h).
Proof.
  cbv zeta. induction calls as [|[w a] calls IH] using rev_ind.
  - cbn. split_and!; [done..| |]; apply grows_refl.
  - rewrite run_snoc. cbn [fst snd].
    destruct IH as (Hr & Hd & Hw & Ho).
    destruct (guess_keeps cp (run cp g calls) w a) as (Hr' & Hd' & Hw' & Ho').
    split_and!; [congruence|congruence| |]; by eapply grows_trans.
Qed.

(** ** Spelling Bee: the teams of the scoring *)

Section teams.
Variable guild : Guild.
Import SpellingGame.

Lemma size_add (who : pystr) (X : gset (list N)) :
  (size ({[who]} ∪ X) ≤ 1 + size X)%nat.
Proof.
  rewrite size_union_alt, size_singleton.
  apply Nat.add_le_mono_l, subseteq_size. set_solver.
Qed.

Lemma add_native_ok who s : totals_ok s → totals_ok (add_native who s).
Proof.
  intros (Hn & Hl & Hne & Hle). unfold totals_ok, add_native.
  cbn [natives natives_score learners learners_score].
  pose proof (size_add who (natives s)).
  split_and!; [lia|done| |done]. intros _. set_solver.
Qed.

Lemma add_learner_ok who s : totals_ok s → totals_ok (add_learner who s).
Proof.
  intros (Hn & Hl & Hne & Hle). unfold totals_ok, add_learner.
  cbn [natives natives_score learners learners_score].
  pose proof (size_add who (learners s)).
  split_and!; [done|lia|done|]. intros _. set_solver.
Qed.

Lemma score_one_totals s a s' :
  score_one guild s a = Ok s' → totals_ok s → totals_ok s'.
Proof.
  unfold score_one. intros Hrun Hs.
  destruct a as [id|]; [|by simplify_eq].
  destruct (decide (id = 0)); [by simplify_eq|].
  destruct (decide (1 ≤ id < 20)).
  { destruct (getitem NATIVE_NAMES _) as [who|]; [|done].
    res_simpl in Hrun. injection Hrun as <-. by apply add_native_ok. }
  destruct (decide (101 ≤ id < 120)).
  { destruct (getitem LEARNER_NAMES _) as [who|]; [|done].
    res_simpl in Hrun. injection Hrun as <-. by apply add_learner_ok. }
  destruct (guild id) as [member|]; [|by simplify_eq].
  destruct (decide (Exists _ _)); injection Hrun as <-;
    [by apply add_native_ok|by apply add_learner_ok].
Qed.

Lemma score_all_totals ids s s' :
  score_all guild s ids = Ok s' → totals_ok s → totals_ok s'.
Proof.
  revert s. induction ids as [|a ids IH]; intros s; cbn [score_all].
  - by intros [= <-].
  - destruct (score_one guild s a) as [s1|] eqn:H1; [|done]. res_simpl.
    intros Hrest Hs. apply (IH s1 Hrest). by eapply score_one_totals.
Qed.

Lemma elements_length_size (X : gset (list N)) : length (elements X) = size X.
Proof. done. Qed.

Lemma elements_nil_iff (X : gset (list N)) : elements X = [] ↔ X = ∅.
Proof.
  split; [|intros ->; apply elements_empty].
  intros H. apply leibniz_equiv. by apply elements_empty_inv; rewrite H.
Qed.
End teams.

(** X12. When the scoring returns a pair of teams, the pair is well formed:
    one team is the natives and the other the learners, the winners have
    at least one word and at least one member, no team has more members
    than words, a team without words has no members, and no name is listed
    twice. *)
Theorem teams_well_formed (guild : Guild) (g : SpellingGame.t) :
  Forall in_roster
    ((map_to_list (SpellingGame.other_words g ∪ SpellingGame.words g)).*2) →
  ∃ result, SpellingGame.winners_and_losers g guild = Ok result ∧
    ∀ winners losers, result = Some (winners, losers) →
      ((name winners = u "learners" ∧ name losers = u "natives") ∨
       (name winners = u "natives" ∧ name losers = u "learners")) ∧
      0 ≤ score losers ≤ score winners ∧ 1 ≤ score winners ∧
      (1 ≤ length (members winners))%nat ∧
      Z.of_nat (length (members winners)) ≤ score winners ∧
      Z.of_nat (length (members losers)) ≤ score losers ∧
      (score losers = 0 → members losers = []) ∧
      NoDup (members winners) ∧ NoDup (members losers).
Proof.
  intros Hroster.
  destruct (winners_and_losers_returns guild g Hroster) as [result Hres].
  exists result. split; [done|]. intros winners losers ->.
  revert Hres. unfold SpellingGame.winners_and_losers.
  destruct (SpellingGame.score_all guild _ _) as [s|] eqn:Hs; [|done]. res_simpl.
  assert (totals_ok s) as (Hn & Hl & Hne & Hle).
  { eapply score_all_totals; [exact Hs|]. unfold totals_ok. cbn.
    rewrite size_empty. split_and!; (lia || done). }
  destruct (decide (_ ∧ _)) as [|Hnz]; [done|].
  assert (∀ X : gset (list N), X ≠ ∅ → (1 ≤ length (elements X))%nat) as Hpos.
  { intros X HX. destruct (elements X) eqn:HeX; [|cbn; lia].
    exfalso. by apply HX, elements_nil_iff. }
  assert (∀ (X : gset (list N)) z, Z.of_nat (size X) ≤ z → z = 0 → elements X = [])
    as Hzero.
  { intros X z Hle' ->. assert (size X = 0%nat) as Hsz by lia.
    by apply elements_nil_iff, leibniz_equiv, size_empty_inv. }
  destruct (decide (_ >= _)%Z) as [Hge|Hlt]; intros [= <- <-];
    cbn [name score members]; rewrite !elements_length_size.
  - split_and!; [by left|lia|lia|lia| |done|done|by apply Hzero
                 |apply NoDup_elements|apply NoDup_elements].
    rewrite <- elements_length_size. apply Hpos, Hle. lia.
  - split_and!; [by right|lia|lia|lia| |done|done|by apply Hzero
                 |apply NoDup_elements|apply NoDup_elements].
    rewrite <- elements_length_size. apply Hpos, Hne. lia.
Qed.

Lemma teams_well_formed_witness :
  let g := run bee_corpus bee_game [(kot, 3); (kit, 500)] in
  ∃ result, SpellingGame.winners_and_losers g (sample_guild 2) = Ok result ∧
    ∀ winners losers, result = Some (winners, losers) →
      ((name winners = u "learners" ∧ name losers = u "natives") ∨
       (name winners = u "natives" ∧ name losers = u "learners")) ∧
      0 ≤ score losers ≤ score winners ∧ 1 ≤ score winners ∧
      (1 ≤ length (members winners))%nat ∧
      Z.of_nat (length (members winners)) ≤ score winners ∧
      Z.of_nat (length (members losers)) ≤ score losers ∧
      (score losers = 0 → members losers = []) ∧
      NoDup (members winners) ∧ NoDup (members losers).
Proof.
  apply (teams_well_formed (sample_guild 2)
           (run bee_corpus bee_game [(kot, 3); (kit, 500)])).
  apply (bool_decide_unpack _). vm_compute. reflexivity.
Defined.

(** X13. With no target word of 4 to 8 letters (the words may have been
    removed while the bot runs) the constructor's loop never ends: however
    many rounds of draws it is given, it has not returned. *)
Theorem wordle_fresh_loops (cp : Corpus) (draws : list (nat * nat)) :
  buckets_by_length cp →
  Forall (λ v, ¬ (4 ≤ length v ≤ 8)%nat) (common_words cp) →
  WordleGame_init cp None draws = Pending.
Proof.
  intros Hb Hnone. rewrite WordleGame_init_fresh.
  destruct (pick_solution cp draws) as [s|] eqn:Hpick; [|done].
  exfalso.
  destruct (pick_solution_in _ _ _ Hpick) as (_ & x & r & bucket & _ & Hbucket & Hs).
  destruct (bucket_lookup _ _ _ Hb Hbucket) as [_ ->].
  apply list_elem_of_filter in Hs as [Hlen Hs].
  pose proof (random_choices_range x).
  eapply Forall_forall in Hnone; [|exact Hs]. apply Hnone. lia.
Qed.

Lemma wordle_fresh_loops_witness :
  WordleGame_init short_corpus None [(4, 0); (20, 3); (7, 1)]%nat = Pending.
Proof.
  apply (wordle_fresh_loops short_corpus).
  - reflexivity.
  - repeat constructor. vm_compute. lia.
Defined.

(** ** Spelling Bee: the root word of a fresh game *)

Lemma fresh_cases (cp : Corpus) (utc_offset now_us : Z) (r : nat) :
  (root_available cp ∧
   ∃ bucket root lists,
     common_words_by_length cp !! 10%nat = Some bucket ∧ root ∈ bucket ∧
     lists = foldl (SpellingGame.sort_word cp root) ([], []) (all_words cp) ∧
     SpellingGame.fresh cp utc_offset now_us r
     = Ok {| SpellingGame.state := CONTINUE;
             SpellingGame.deadline := SpellingGame.new_deadline utc_offset now_us;
             SpellingGame.root_word := root;
             SpellingGame.words := SpellingGame.dict_fromkeys lists.1;
             SpellingGame.other_words := SpellingGame.dict_fromkeys lists.2 |}) ∨
  (¬ root_available cp ∧
   SpellingGame.fresh cp utc_offset now_us r = Raise IndexError).
Proof.
  unfold SpellingGame.fresh, getitem.
  destruct (common_words_by_length cp !! 10%nat) as [bucket|] eqn:Hb.
  2:{ right. split; [|done]. intros (b & Hb' & _). congruence. }
  res_simpl. destruct (decide (bucket = [])) as [->|Hne].
  { right. split; [|done]. intros (b & Hb' & Hb''). congruence. }
  left. split; [by exists bucket|].
  destruct (random_choice_ok r bucket Hne) as (root & Hroot & Hin).
  unfold random_choice, getitem in Hroot.
  destruct (bucket !! (r mod length bucket)%nat) as [root'|] eqn:Hl; [|done].
  injection Hroot as ->. unfold random_choice, getitem. rewrite Hl. res_simpl.
  eexists bucket, root, _. done.
Qed.

(** X14. The Spelling-Bee constructor raises [IndexError] exactly when
    there is no ten-letter target word to draw, and raises nothing else.
    When it returns, on a corpus whose buckets follow the target words, the
    game is in the state Continue, its root is a target word of ten letters,
    and the root itself is in neither map. *)
Theorem spelling_fresh_root (cp : Corpus) (utc_offset now_us : Z) (r : nat) :
  (SpellingGame.fresh cp utc_offset now_us r = Raise IndexError ↔ ¬ root_available cp) ∧
  (∀ e, SpellingGame.fresh cp utc_offset now_us r = Raise e → e = IndexError) ∧
  (∀ g, SpellingGame.fresh cp utc_offset now_us r = Ok g →
     root_available cp ∧ SpellingGame.state g = CONTINUE ∧
     (buckets_by_length cp →
      length (SpellingGame.root_word g) = 10%nat ∧
      SpellingGame.root_word g ∈ common_words cp ∧
      SpellingGame.words g !! SpellingGame.root_word g = None ∧
      SpellingGame.other_words g !! SpellingGame.root_word g = None)).
Proof.
  destruct (fresh_cases cp utc_offset now_us r)
    as [[Hroot (bucket & root & lists & Hb & Hin & Hlists & Hfresh)]|[Hroot Hfresh]].
  - split_and!.
    + rewrite Hfresh. split; [done|tauto].
    + intros e. by rewrite Hfresh.
    + intros g Hg. split; [done|].
      destruct (fresh_game_maps cp utc_offset now_us r g Hg)
        as (sols & bonus & Hw & Ho & Hsols & Hbonus).
      rewrite Hfresh in Hg. injection Hg as <-.
      cbn [SpellingGame.state SpellingGame.root_word] in *.
      split; [done|]. intros Hbuckets.
      destruct (bucket_lookup _ _ _ Hbuckets Hb) as [_ ->].
      apply list_elem_of_filter in Hin as [Hlen Hin].
      assert (∀ l, (∀ W, W ∈ l → qualifies root W) →
                SpellingGame.dict_fromkeys l !! root = None) as Hout.
      { intros l Hl. rewrite dict_fromkeys_lookup. destruct (decide (root ∈ l)) as [Hr|]; [|done].
        destruct (Hl root Hr) as ([_ Hmax] & _). unfold MAX_LENGTH in Hmax. lia. }
      split_and!; [done|done| |].
      * rewrite Hw. apply Hout. intros W HW. by apply Hsols in HW as (_ & ? & _).
      * rewrite Ho. apply Hout. intros W HW. by apply Hbonus in HW as (_ & ? & _).
  - split_and!.
    + by rewrite Hfresh.
    + intros e. rewrite Hfresh. by intros [= <-].
    + intros g. by rewrite Hfresh.
Qed.

(** ** The Wordle cog: starting up *)

Section wordle_startup.
Context (cp : Corpus).
Import GameManager.

Lemma wordle_start_game_other cid draws c :
  c ≠ cid → preserves cid (Wordle.start_game cp draws c).
Proof.
  intros Hc w. unfold Wordle.start_game.
  destruct (decide (c ∉ channels w)); [done|].
  destruct (WordleGame_init _ _ _) as [game| |]; [|done..].
  apply (preserves_bind cid); [by apply preserves_add_game|].
  intros _. by apply preserves_emit.
Qed.

Lemma wordle_start_game_run draws c w s :
  c ∈ channels w →
  pick_solution cp draws = Some s →
  ∃ w', Wordle.start_game cp draws c w = (Returned (), w') ∧
    channels w' = channels w ∧
    channel_view c w'
    = wordle_started c {| WordleGame.state := CONTINUE; WordleGame.guesses := 0;
                          WordleGame.solution := s |} (channel_view c w).
Proof.
  intros Hreg Hpick. unfold Wordle.start_game.
  rewrite decide_False by (intros Hn; by apply Hn).
  rewrite WordleGame_init_fresh, Hpick.
  unfold cmd_bind, emit, add_game, cmd_bind, mutate, update_game, with_files, with_games.
  cbn [fst snd channels games files previousgame sent].
  eexists. split; [reflexivity|]. split; [done|].
  unfold channel_view, wordle_started.
  cbn [channels games files previousgame sent registered session snapshot
       archive emitted WordleGame.solution].
  rewrite bool_decide_eq_true_2 by done.
  rewrite !lookup_insert_eq, filter_app, filter_cons, filter_nil.
  cbn [outgoing_channel]. by rewrite decide_True.
Qed.

Lemma get_game_session (w : World WordleGame.t) c :
  get_game w c
  = match session (channel_view c w) with Some (Some g) => Some g | _ => None end.
Proof. done. Qed.

Lemma wordle_load_channel_other cid draws c :
  c ≠ cid → preserves cid (Wordle.load_channel cp draws c).
Proof.
  intros Hc w. unfold Wordle.load_channel.
  destruct (get_game w c) as [game|].
  - destruct (decide _); [by apply wordle_start_game_other|done].
  - by apply wordle_start_game_other.
Qed.

Lemma wordle_load_channel_run draws c w :
  c ∈ channels w →
  is_Some (pick_solution cp (draws c)) →
  ∃ w', Wordle.load_channel cp draws c w = (Returned (), w') ∧
    channels w' = channels w ∧
    wordle_recovered cp draws c (channel_view c w) (channel_view c w').
Proof.
  intros Hreg [s Hpick]. unfold Wordle.load_channel, wordle_recovered. cbv zeta.
  rewrite get_game_session.
  destruct (session (channel_view c w)) as [[g|]|] eqn:Hsess.
  - destruct (decide (WordleGame.state g ≠ CONTINUE)) as [Hst|Hst].
    + destruct (wordle_start_game_run (draws c) c w s Hreg Hpick) as (w' & -> & ? & ?).
      exists w'. split; [done|]. split; [done|].
      rewrite decide_False by done. by exists s.
    + apply dec_stable in Hst. exists w. split; [done|]. split; [done|].
      by rewrite decide_True.
  - destruct (wordle_start_game_run (draws c) c w s Hreg Hpick) as (w' & -> & ? & ?).
    exists w'. split; [done|]. split; [done|]. by exists s.
  - destruct (wordle_start_game_run (draws c) c w s Hreg Hpick) as (w' & -> & ? & ?).
    exists w'. split; [done|]. split; [done|]. by exists s.
Qed.

(** A channel that has been seen to is not touched again. *)
Lemma wordle_recovered_again draws c v v1 v2 :
  wordle_recovered cp draws c v v1 →
  wordle_recovered cp draws c v1 v2 →
  wordle_recovered cp draws c v v2.
Proof.
  unfold wordle_recovered. cbv zeta. intros H1 H2.
  assert ((∃ s, pick_solution cp (draws c) = Some s ∧
             v1 = wordle_started c
                    {| WordleGame.state := CONTINUE; WordleGame.guesses := 0;
                       WordleGame.solution := s |} v) → v2 = v1) as Hfresh.
  { intros (s & _ & ->). cbn [wordle_started session WordleGame.state] in H2.
    by rewrite decide_True in H2. }
  destruct (session v) as [[g|]|] eqn:Hv.
  - destruct (decide (WordleGame.state g = CONTINUE)) as [Hst|Hst].
    + subst v1. rewrite Hv in H2. by rewrite decide_True in H2.
    + by rewrite (Hfresh H1).
  - by rewrite (Hfresh H1).
  - by rewrite (Hfresh H1).
Qed.

Lemma wordle_load_channels_run draws cs w :
  (∀ c, c ∈ cs → c ∈ channels w ∧ is_Some (pick_solution cp (draws c))) →
  ∃ w', Wordle.load_channels cp draws cs w = (Returned (), w') ∧
    channels w' = channels w ∧
    (∀ c, c ∈ cs →
       wordle_recovered cp draws c (channel_view c w) (channel_view c w')) ∧
    (∀ c, c ∉ cs → channel_view c w' = channel_view c w).
Proof.
  revert w. induction cs as [|c cs IH]; intros w Hcs.
  { exists w. split_and!; [done..| |done]. by intros c ?%elem_of_nil. }
  destruct (Hcs c) as [Hreg Hpick]; [apply list_elem_of_here|].
  destruct (wordle_load_channel_run draws c w Hreg Hpick) as (w1 & Hrun1 & Hch1 & Hrec1).
  destruct (IH w1) as (w' & Hrun & Hch & Hrec & Hframe).
  { intros c' Hc'. rewrite Hch1. apply Hcs. by apply list_elem_of_further. }
  assert (∀ c', c' ≠ c → channel_view c' w1 = channel_view c' w) as Hother.
  { intros c' Hne. pose proof (wordle_load_channel_other c' draws c ltac:(congruence) w) as H.
    by rewrite Hrun1 in H. }
  exists w'. cbn [Wordle.load_channels]. unfold cmd_bind. rewrite Hrun1.
  split_and!; [done|congruence| |].
  - intros c' Hc'. destruct (decide (c' = c)) as [->|Hne].
    + destruct (decide (c ∈ cs)) as [Hin|Hout].
      * eapply wordle_recovered_again; [exact Hrec1|]. by apply Hrec.
      * by rewrite (Hframe c Hout).
    + apply elem_of_cons in Hc' as [?|Hc']; [done|].
      rewrite <- (Hother c' Hne). by apply Hrec.
  - intros c' Hc'. apply not_elem_of_cons in Hc' as [Hne Hc'].
    rewrite (Hframe c' Hc'). by apply Hother.
Qed.
End wordle_startup.

(** X15. When every registered channel has draws that give a word,
    [cog_load] of the Wordle cog returns; it keeps, untouched, every game
    that is in the state Continue, and gives every other registered channel
    (no game, or a game caught Finished or Restarting) a new game with its
    snapshot and announcement, so that afterwards every registered channel
    has a game in the state Continue; channels that are not registered are
    left as they were. *)
Theorem wordle_cog_load_recovers
    (cp : Corpus) (draws : Z → list (nat * nat)) (w : World WordleGame.t) :
  (∀ c, c ∈ channels w → is_Some (pick_solution cp (draws c))) →
  ∃ w', Wordle.cog_load cp draws w = (Returned (), w') ∧
    channels w' = channels w ∧
    (∀ c, c ∈ channels w →
       wordle_recovered cp draws c (channel_view c w) (channel_view c w') ∧
       ∃ g, GameManager.get_game w' c = Some g ∧ WordleGame.state g = CONTINUE) ∧
    (∀ c, c ∉ channels w → channel_view c w' = channel_view c w).
Proof.
  intros Hdraws. unfold Wordle.cog_load.
  destruct (wordle_load_channels_run cp draws (channels w) w)
    as (w' & Hrun & Hch & Hrec & Hframe).
  { intros c Hc. split; [done|by apply Hdraws]. }
  exists w'. split_and!; [done..| |done].
  intros c Hc. specialize (Hrec c Hc). split; [done|].
  rewrite get_game_session. unfold wordle_recovered in Hrec. cbv zeta in Hrec.
  assert ((∃ s, pick_solution cp (draws c) = Some s ∧
             channel_view c w'
             = wordle_started c
                 {| WordleGame.state := CONTINUE; WordleGame.guesses := 0;
                    WordleGame.solution := s |} (channel_view c w)) →
          ∃ g, match session (channel_view c w') with
               | Some (Some g) => Some g | _ => None end = Some g ∧
               WordleGame.state g = CONTINUE) as Hfresh.
  { intros (s & _ & ->). cbn [wordle_started session]. eauto. }
  destruct (session (channel_view c w)) as [[g|]|] eqn:Hsess; [|by apply Hfresh..].
  destruct (decide (WordleGame.state g = CONTINUE)); [|by apply Hfresh].
  rewrite Hrec, Hsess. eauto.
Qed.

Lemma wordle_cog_load_recovers_witness :
  ∃ w', Wordle.cog_load wordle_corpus (λ _, [(4, 0)]%nat) wordle_startup = (Returned (), w') ∧
    channels w' = channels wordle_startup ∧
    (∀ c, c ∈ channels wordle_startup →
       wordle_recovered wordle_corpus (λ _, [(4, 0)]%nat) c
         (channel_view c wordle_startup) (channel_view c w') ∧
       ∃ g, GameManager.get_game w' c = Some g ∧ WordleGame.state g = CONTINUE) ∧
    (∀ c, c ∉ channels wordle_startup → channel_view c w' = channel_view c wordle_startup).
Proof.
  apply (wordle_cog_load_recovers wordle_corpus (λ _, [(4, 0)]%nat) wordle_startup).
  intros c _. vm_compute. eauto.
Defined.

(** ** The Wordle cog: guilds that come and go *)

Section wordle_guilds.
Context (cp : Corpus).
Import GameManager.

Lemma wordle_start_game_world draws c (w : World WordleGame.t) s :
  c ∈ channels w →
  pick_solution cp draws = Some s →
  let g := {| WordleGame.state := CONTINUE; WordleGame.guesses := 0;
              WordleGame.solution := s |} in
  Wordle.start_game cp draws c w
  = (Returned (),
     {| channels := channels w;
        games := <[c := Some g]> (games w);
        files := <[c := Json (WordleSnapshot.to_dict g)]> (files w);
        previousgame := previousgame w;
        sent := sent w ++ [Message c (WordlePicked (length s))] |}).
Proof.
  intros Hreg Hpick. cbv zeta. unfold Wordle.start_game.
  rewrite decide_False by (intros Hn; by apply Hn).
  by rewrite WordleGame_init_fresh, Hpick.
Qed.

Lemma remove_channel_other {G} cid c : c ≠ cid → preserves cid (@remove_channel G c).
Proof.
  intros Hc w. unfold remove_channel, channel_view.
  destruct (decide (c ∈ channels w)) as [Hin|Hin];
    unfold with_files, with_games, with_channels;
    cbn [snd channels games files previousgame sent];
    rewrite ?lookup_delete_ne by done; [|done].
  f_equal. apply bool_decide_ext. split.
  - apply remove_first_in.
  - intros Hcid. clear Hin. induction (channels w) as [|y l IH]; [done|].
    cbn [remove_first]. destruct (decide (y = c)) as [->|Hy].
    + apply elem_of_cons in Hcid as [?|?]; [congruence|done].
    + apply elem_of_cons in Hcid as [->|?]; [apply list_elem_of_here|].
      apply list_elem_of_further. by apply IH.
Qed.

Lemma remove_channel_forgets {G} c (w : World G) :
  NoDup (channels w) → c ∈ channels w →
  channel_view c (remove_channel c w).2 = forgotten (channel_view c w).
Proof.
  intros Hnd Hc. unfold remove_channel, channel_view, forgotten.
  rewrite decide_True by done.
  unfold with_files, with_games, with_channels.
  cbn [snd channels games files previousgame sent registered session snapshot
       archive emitted].
  rewrite !lookup_delete_eq. f_equal.
  apply bool_decide_eq_false_2. rewrite remove_first_elem by done. tauto.
Qed.

Lemma remove_channel_channels {G} c (w : World G) :
  NoDup (channels w) →
  NoDup (channels (remove_channel c w).2) ∧
  ∀ c', c' ∈ channels (remove_channel c w).2 ↔ c' ∈ channels w ∧ c' ≠ c.
Proof.
  intros Hnd. unfold remove_channel.
  destruct (decide (c ∈ channels w)) as [Hin|Hin];
    cbn [snd with_files with_games with_channels channels].
  - split; [by apply remove_first_NoDup|]. intros c'. by apply remove_first_elem.
  - split; [done|]. intros c'. split; [|tauto]. intros Hc'. split; [done|congruence].
Qed.

Lemma on_guild_remove_run (guild_channels : list GuildChannel) (w : World WordleGame.t) :
  NoDup (channels w) →
  ∃ w', Wordle.on_guild_remove guild_channels w = (Returned (), w') ∧
    (∀ c, c ∈ chan_id <$> guild_channels → c ∈ channels w →
       channel_view c w' = forgotten (channel_view c w)) ∧
    (∀ c, c ∉ chan_id <$> guild_channels ∨ c ∉ channels w →
       channel_view c w' = channel_view c w).
Proof.
  revert w. induction guild_channels as [|ch rest IH]; intros w Hnd.
  { exists w. split; [done|]. split; [|done]. by intros c ?%elem_of_nil. }
  cbn [Wordle.on_guild_remove fmap list_fmap]. unfold cmd_bind.
  set (c0 := chan_id ch).
  destruct (decide (c0 ∈ channels w)) as [Hin|Hin].
  - pose proof (remove_channel_channels c0 w Hnd) as [Hnd1 Hch1].
    pose proof (remove_channel_forgets c0 w Hnd Hin) as Hforget.
    pose proof (λ cid (H : c0 ≠ cid), @remove_channel_other WordleGame.t cid c0 H w)
      as Hother.
    destruct (remove_channel c0 w) as [o w1] eqn:Hrun.
    assert (o = Returned ()) as -> by (by injection Hrun as <- _).
    cbn [snd] in *.
    destruct (IH w1 Hnd1) as (w' & -> & Hgone & Hframe).
    exists w'. split; [done|]. split.
    + intros c Hc Hreg. destruct (decide (c = c0)) as [->|Hne].
      * rewrite Hframe; [done|]. right. rewrite Hch1. tauto.
      * apply elem_of_cons in Hc as [?|Hc]; [done|].
        rewrite Hgone; [|done|by apply Hch1]. by rewrite Hother.
    + intros c Hc. destruct (decide (c = c0)) as [->|Hne].
      * destruct Hc as [Hc|Hc]; [|done]. exfalso. apply Hc, list_elem_of_here.
      * rewrite Hframe; [by apply Hother|].
        destruct Hc as [Hc|Hc]; [left|right].
        -- by apply not_elem_of_cons in Hc as [_ ?].
        -- rewrite Hch1. tauto.
  - unfold skip. destruct (IH w Hnd) as (w' & -> & Hgone & Hframe).
    exists w'. split; [done|]. split.
    + intros c Hc Hreg. apply elem_of_cons in Hc as [->|Hc]; [done|]. by apply Hgone.
    + intros c Hc. apply Hframe. destruct Hc as [Hc|Hc]; [left|by right].
      by apply not_elem_of_cons in Hc as [_ ?].
Qed.
End wordle_guilds.

(** X16. Joining a guild that has a [#wordle] channel registers the channel
    and always starts a new game in it: whether the channel had no snapshot,
    an unreadable one, or the snapshot of a game in progress, the game of the
    channel afterwards is the new one, the snapshot is overwritten with it
    and the new word is announced.  (Starting up, by contrast, keeps a game
    that is in progress.) *)
Theorem wordle_join_starts_afresh
    (cp : Corpus) (resume_draws draws : list (nat * nat))
    (guild_channels : list GuildChannel) (w : World WordleGame.t)
    (channel : GuildChannel) (s : pystr) :
  utils_get Wordle.CHANNEL_NAME guild_channels = Some channel →
  chan_id channel ≠ 0 →
  (∀ j, files w !! chan_id channel = Some (Json j) →
        ∃ g, WordleGame_init cp (Some j) resume_draws = Returned g) →
  pick_solution cp draws = Some s →
  let g := {| WordleGame.state := CONTINUE; WordleGame.guesses := 0;
              WordleGame.solution := s |} in
  ∃ w', Wordle.on_guild_join cp resume_draws draws guild_channels w = (Returned (), w') ∧
    channels w' = channels w ++ [chan_id channel] ∧
    GameManager.get_game w' (chan_id channel) = Some g ∧
    files w' !! chan_id channel = Some (Json (WordleSnapshot.to_dict g)) ∧
    sent w' = sent w ++ [Message (chan_id channel) (WordlePicked (length s))].
Proof.
  intros Hget Hid Hfile Hpick g.
  unfold Wordle.on_guild_join, Wordle.guild_setup, cmd_bind. rewrite Hget.
  assert (∀ w1 : World WordleGame.t,
    channels w1 = channels w ++ [chan_id channel] → sent w1 = sent w →
    ∃ w', (if decide (chan_id channel ≠ 0)
           then Wordle.start_game cp draws (chan_id channel) else skip) w1
          = (Returned (), w') ∧
      channels w' = channels w ++ [chan_id channel] ∧
      GameManager.get_game w' (chan_id channel) = Some g ∧
      files w' !! chan_id channel = Some (Json (WordleSnapshot.to_dict g)) ∧
      sent w' = sent w ++ [Message (chan_id channel) (WordlePicked (length s))])
    as Hstart.
  { intros w1 Hch Hsent. rewrite decide_True by done.
    rewrite (wordle_start_game_world cp draws (chan_id channel) w1 s); [|
      rewrite Hch; apply elem_of_app; right; apply list_elem_of_here|done].
    eexists. split; [done|]. unfold GameManager.get_game.
    cbn [channels games files sent]. rewrite !lookup_insert_eq, Hch, Hsent. done. }
  unfold GameManager.add_channel.
  destruct (files w !! chan_id channel) as [[|j]|] eqn:Hf.
  - by apply Hstart.
  - destruct (Hfile j eq_refl) as [g0 ->]. by apply Hstart.
  - by apply Hstart.
Qed.

Lemma wordle_join_starts_afresh_witness :
  let g := {| WordleGame.state := CONTINUE; WordleGame.guesses := 0;
              WordleGame.solution := slovo |} in
  ∃ w', Wordle.on_guild_join wordle_corpus [] [(4, 0)]%nat wordle_guild wordle_rejoin
        = (Returned (), w') ∧
    channels w' = channels wordle_rejoin ++ [9] ∧
    GameManager.get_game w' 9 = Some g ∧
    files w' !! 9 = Some (Json (WordleSnapshot.to_dict g)) ∧
    sent w' = sent wordle_rejoin ++ [Message 9 (WordlePicked (length slovo))].
Proof.
  apply (wordle_join_starts_afresh wordle_corpus [] [(4, 0)]%nat wordle_guild
           wordle_rejoin {| chan_id := 9; chan_name := u "wordle" |} slovo).
  - vm_compute. reflexivity.
  - cbn. lia.
  - intros j Hj. vm_compute in Hj. injection Hj as <-. eexists. vm_compute. reflexivity.
  - vm_compute. reflexivity.
Defined.

(** X17. When a guild goes away, the Wordle cog forgets every channel of
    that guild that it had registered: the channel is no longer registered
    and has neither a game nor a snapshot (what was sent stays).  Channels
    of other guilds, and channels of the guild that were never registered,
    are left exactly as they were. *)
Theorem wordle_guild_remove_forgets
    (guild_channels : list GuildChannel) (w : World WordleGame.t) :
  NoDup (channels w) →
  ∃ w', Wordle.on_guild_remove guild_channels w = (Returned (), w') ∧
    (∀ c, c ∈ chan_id <$> guild_channels → c ∈ channels w →
       channel_view c w' = forgotten (channel_view c w) ∧
       (c ∉ channels w') ∧ GameManager.get_game w' c = None ∧ files w' !! c = None) ∧
    (∀ c, c ∉ chan_id <$> guild_channels ∨ c ∉ channels w →
       channel_view c w' = channel_view c w).
Proof.
  intros Hnd. destruct (on_guild_remove_run guild_channels w Hnd)
    as (w' & Hrun & Hgone & Hframe).
  exists w'. split; [done|]. split; [|done].
  intros c Hc Hreg. specialize (Hgone c Hc Hreg). split; [done|].
  unfold channel_view, forgotten in Hgone.
  injection Hgone as Hr Hs Hf _ _.
  split_and!.
  - by apply bool_decide_eq_false_1 in Hr.
  - unfold GameManager.get_game. by rewrite Hs.
  - done.
Qed.

Lemma wordle_guild_remove_forgets_witness :
  ∃ w', Wordle.on_guild_remove wordle_guild wordle_two = (Returned (), w') ∧
    (∀ c, c ∈ chan_id <$> wordle_guild → c ∈ channels wordle_two →
       channel_view c w' = forgotten (channel_view c wordle_two) ∧
       (c ∉ channels w') ∧ GameManager.get_game w' c = None ∧ files w' !! c = None) ∧
    (∀ c, c ∉ chan_id <$> wordle_guild ∨ c ∉ channels wordle_two →
       channel_view c w' = channel_view c wordle_two).
Proof.
  apply (wordle_guild_remove_forgets wordle_guild wordle_two).
  apply (bool_decide_unpack _). vm_compute. reflexivity.
Defined.

(** ** The cogs: every change of a game is written *)

Section managed.
Context {G : Type} (to_dict : G → json).
Import GameManager.

Lemma bind_mutate {A} c g (k : World G → outcome A * World G) w :
  cmd_bind (mutate c g) (λ _, k) w = k (with_games w (<[c := Some g]> (games w))).
Proof. done. Qed.

Lemma bind_update {A} c g (k : World G → outcome A * World G) w :
  cmd_bind (update_game to_dict c g) (λ _, k) w
  = k (with_files w (<[c := Json (to_dict g)]> (files w))).
Proof. done. Qed.

Lemma bind_emit {A} o (k : World G → outcome A * World G) w :
  cmd_bind (emit o) (λ _, k) w
  = k {| channels := channels w; games := games w; files := files w;
         previousgame := previousgame w; sent := sent w ++ [o] |}.
Proof. done. Qed.

Lemma bind_skip {A} (k : World G → outcome A * World G) w :
  cmd_bind skip (λ _, k) w = k w.
Proof. done. Qed.

Lemma managed_get (w : World G) c g :
  managed to_dict w → get_game w c = Some g →
  c ∈ channels w ∧ files w !! c = Some (Json (to_dict g)).
Proof.
  intros Hw. unfold get_game.
  destruct (games w !! c) as [[g'|]|] eqn:Hg; [|done..].
  intros [= <-]. by apply Hw.
Qed.

Lemma managed_ext (w w' : World G) :
  channels w' = channels w → games w' = games w → files w' = files w →
  managed to_dict w → managed to_dict w'.
Proof. unfold managed. by intros -> -> ->. Qed.

Lemma managed_insert (w w' : World G) c g :
  c ∈ channels w →
  channels w' = channels w →
  games w' = <[c := Some g]> (games w) →
  files w' = <[c := Json (to_dict g)]> (files w) →
  managed to_dict w → managed to_dict w'.
Proof.
  unfold managed. intros Hc -> -> -> Hw c' g'. destruct (decide (c' = c)) as [->|Hne].
  - rewrite !lookup_insert_eq. intros [= <-]. done.
  - rewrite !lookup_insert_ne by done. apply Hw.
Qed.

Lemma remove_first_other {A} `{EqDecision A} (x y : A) l :
  y ≠ x → y ∈ l → y ∈ remove_first x l.
Proof.
  intros Hne. induction l as [|z l IH]; [done|]. cbn [remove_first].
  destruct (decide (z = x)) as [->|Hz].
  - intros [?|?]%elem_of_cons; [congruence|done].
  - intros [->|?]%elem_of_cons; [apply list_elem_of_here|].
    apply list_elem_of_further. by apply IH.
Qed.

Lemma managed_remove_channel c (w : World G) :
  managed to_dict w → managed to_dict (remove_channel c w).2.
Proof.
  intros Hw. unfold remove_channel, managed.
  destruct (decide (c ∈ channels w)) as [Hin|Hin];
    cbn [snd with_files with_games with_channels channels games files];
    intros c' g' Hg'; (destruct (decide (c' = c)) as [->|Hne]).
  - by rewrite lookup_delete_eq in Hg'.
  - rewrite lookup_delete_ne in Hg' by done. rewrite lookup_delete_ne by done.
    destruct (Hw c' g' Hg') as [? ?]. split; [by apply remove_first_other|done].
  - by destruct (Hw c g' Hg').
  - rewrite lookup_delete_ne by done. by apply Hw.
Qed.
End managed.

Section wordle_managed.
Context (cp : Corpus) (ops : StrOps).
Import GameManager.

Local Abbreviation managed_w := (managed WordleSnapshot.to_dict).

Lemma wordle_start_game_managed draws c w :
  managed_w w → managed_w (Wordle.start_game cp draws c w).2.
Proof.
  intros Hw. unfold Wordle.start_game.
  destruct (decide (c ∉ channels w)) as [|Hreg]; [done|].
  apply dec_stable in Hreg.
  destruct (WordleGame_init cp None draws) as [game| |]; [|done..].
  unfold add_game, cmd_bind, mutate, update_game, emit. cbn [fst snd].
  by eapply (managed_insert _ w _ c game).
Qed.

Lemma wordle_stop_game_managed draws c w :
  managed_w w → managed_w (Wordle.stop_game cp draws c w).2.
Proof.
  intros Hw. unfold Wordle.stop_game.
  destruct (get_game w c) as [game|] eqn:Hg; [|done].
  destruct (decide (WordleGame.state game = RESTARTING)); [done|].
  destruct (managed_get _ w c game Hw Hg) as [Hreg _].
  rewrite bind_mutate, bind_update, bind_emit.
  apply wordle_start_game_managed.
  by eapply (managed_insert _ w _ c).
Qed.

Lemma wordle_stopW_managed draws c w :
  managed_w w → managed_w (Wordle.stopW cp draws c w).2.
Proof.
  intros Hw. unfold Wordle.stopW.
  destruct (get_game w c) as [game|] eqn:Hg; [|done].
  destruct (decide (WordleGame.state game ≠ CONTINUE)); [done|].
  destruct (managed_get _ w c game Hw Hg) as [Hreg _].
  rewrite bind_mutate, bind_update, bind_emit.
  apply wordle_stop_game_managed.
  by eapply (managed_insert _ w _ c).
Qed.

Lemma wordle_on_message_managed m r1 r2 r3 draws w :
  managed_w w → managed_w (Wordle.on_message cp ops m r1 r2 r3 draws w).2.
Proof.
  intros Hw. unfold Wordle.on_message. cbv zeta.
  destruct (decide (in_channel m ∉ channels w)) as [|Hreg]; [done|].
  apply dec_stable in Hreg.
  destruct (in_from_bot m); [done|]. destruct (in_is_command m); [done|].
  destruct (get_game w (in_channel m)) as [game|] eqn:Hg; [|done].
  destruct (decide (WordleGame.state game ≠ CONTINUE)); [done|].
  destruct (decide (1 < length _)%nat); [done|].
  destruct (decide (_ ∨ _)); [done|].
  destruct (WordleGame.guess cp game _ r1 r2 r3) as [[reply game']|e]; [|done].
  rewrite bind_mutate.
  assert (∀ w1 : World WordleGame.t,
    channels w1 = channels w →
    games w1 = <[in_channel m := Some game']> (games w) →
    files w1 = files w →
    managed_w
      (cmd_bind (update_game WordleSnapshot.to_dict (in_channel m) game')
         (λ _, if decide (WordleGame.state game' = FINISHED)
               then Wordle.stop_game cp draws (in_channel m) else skip) w1).2) as Hrest.
  { intros w1 Hc1 Hg1 Hf1. rewrite bind_update.
    assert (managed_w (with_files w1
              (<[in_channel m := Json (WordleSnapshot.to_dict game')]> (files w1))))
      as Hw1.
    { eapply (managed_insert _ w _ (in_channel m) game'); [done..| |done].
      cbn [with_files files]. by rewrite Hf1. }
    destruct (decide (WordleGame.state game' = FINISHED)); [|done].
    by apply wordle_stop_game_managed. }
  destruct (WordleGame.emoji reply) as [e|];
    destruct (WordleGame.file_obj reply) as [f|];
    destruct (WordleGame.msg reply) as [msg|];
    rewrite ?bind_emit, ?bind_skip; by apply Hrest.
Qed.

Lemma wordle_load_channels_managed draws cs w :
  managed_w w → managed_w (Wordle.load_channels cp draws cs w).2.
Proof.
  revert w. induction cs as [|c cs IH]; intros w Hw; [done|].
  cbn [Wordle.load_channels]. unfold cmd_bind.
  assert (managed_w (Wordle.load_channel cp draws c w).2) as H1.
  { unfold Wordle.load_channel. destruct (get_game w c) as [game|].
    - destruct (decide _); [by apply wordle_start_game_managed|done].
    - by apply wordle_start_game_managed. }
  destruct (Wordle.load_channel cp draws c w) as [[[]|e|] w1]; cbn [snd] in *;
    [by apply IH|done..].
Qed.

Lemma wordle_on_guild_remove_managed guild_channels w :
  managed_w w → managed_w (Wordle.on_guild_remove guild_channels w).2.
Proof.
  revert w. induction guild_channels as [|ch rest IH]; intros w Hw; [done|].
  cbn [Wordle.on_guild_remove]. unfold cmd_bind.
  destruct (decide (chan_id ch ∈ channels w)).
  - pose proof (managed_remove_channel WordleSnapshot.to_dict (chan_id ch) w Hw) as H1.
    destruct (remove_channel (chan_id ch) w) as [[[]|err|] w1] eqn:Hrun; cbn [snd] in *;
      [by apply IH|done..].
  - by apply IH.
Qed.
End wordle_managed.

(** X18. Every handler of the Wordle cog keeps the table, the registry and
    the snapshots in step (as long as sending to the chat does not fail): if
    every game of the table belongs to a registered channel and equals the
    game in the channel's snapshot when the handler is called, the same holds
    when it returns, raises, or is still drawing a word. *)
Theorem wordle_snapshots_in_step
    (cp : Corpus) (ops : StrOps) (w : World WordleGame.t) :
  managed WordleSnapshot.to_dict w →
  (∀ m r1 r2 r3 draws,
     managed WordleSnapshot.to_dict (Wordle.on_message cp ops m r1 r2 r3 draws w).2) ∧
  (∀ draws c, managed WordleSnapshot.to_dict (Wordle.stopW cp draws c w).2) ∧
  (∀ draws c, managed WordleSnapshot.to_dict (Wordle.stop_game cp draws c w).2) ∧
  (∀ draws c, managed WordleSnapshot.to_dict (Wordle.start_game cp draws c w).2) ∧
  (∀ draws, managed WordleSnapshot.to_dict (Wordle.cog_load cp draws w).2) ∧
  (∀ guild_channels,
     managed WordleSnapshot.to_dict (Wordle.on_guild_remove guild_channels w).2).
Proof.
  intros Hw. split_and!.
  - intros. by apply wordle_on_message_managed.
  - intros. by apply wordle_stopW_managed.
  - intros. by apply wordle_stop_game_managed.
  - intros. by apply wordle_start_game_managed.
  - intros. by apply wordle_load_channels_managed.
  - intros. by apply wordle_on_guild_remove_managed.
Qed.

Lemma wordle_snapshots_in_step_witness :
  managed WordleSnapshot.to_dict
    (Wordle.on_message wordle_corpus plain_ops (says 1 77 slava) 0 0 0 [] wordle_running).2.
Proof.
  refine (proj1 (wordle_snapshots_in_step wordle_corpus plain_ops wordle_running _)
            (says 1 77 slava) 0%nat 0%nat 0%nat []).
  intros c g Hg. destruct (decide (c = 1)) as [->|Hne].
  - vm_compute in Hg. injection Hg as <-. split; [apply list_elem_of_here|].
    vm_compute. reflexivity.
  - unfold wordle_running in Hg. cbn [games] in Hg.
    by rewrite lookup_singleton_ne in Hg.
Defined.

Section spelling_managed.
Context (cp : Corpus) (ops : StrOps) (utc_offset : Z) (guild_of : Z → Guild).
Import GameManager.

Local Abbreviation managed_s := (managed SpellingGame.to_dict).

Lemma spelling_start_game_managed d c w :
  managed_s w → managed_s (Spelling.start_game cp utc_offset d c w).2.
Proof.
  intros Hw. unfold Spelling.start_game.
  destruct (decide (c ∉ channels w)) as [|Hreg]; [done|].
  apply dec_stable in Hreg.
  destruct (SpellingGame_init cp utc_offset None _ _) as [game| |]; [|done..].
  unfold add_game, cmd_bind, mutate, update_game, emit. cbn [fst snd].
  by eapply (managed_insert _ w _ c game).
Qed.

Lemma spelling_stop_game_managed d c w :
  managed_s w → managed_s (Spelling.stop_game cp utc_offset guild_of d c w).2.
Proof.
  intros Hw. unfold Spelling.stop_game.
  destruct (get_game w c) as [game|] eqn:Hg; [|done].
  destruct (decide (SpellingGame.state game = RESTARTING)); [done|].
  destruct (managed_get _ w c game Hw Hg) as [Hreg _].
  rewrite bind_mutate, bind_update.
  set (w1 := with_files _ _).
  assert (managed_s w1) as Hw1 by (by eapply (managed_insert _ w _ c)).
  clearbody w1.
  destruct (SpellingGame.winners_and_losers _ _) as [result|e]; [|done].
  destruct result as [[winners losers]|].
  - unfold cmd_bind at 1. cbv beta iota. rewrite bind_emit, bind_emit.
    apply spelling_start_game_managed. by eapply managed_ext.
  - rewrite bind_skip, bind_emit, bind_emit.
    apply spelling_start_game_managed. by eapply managed_ext.
Qed.

Lemma spelling_shuffle_managed draw c w :
  managed_s w → managed_s (Spelling.shuffle draw c w).2.
Proof.
  intros Hw. unfold Spelling.shuffle.
  destruct (get_game w c) as [game|] eqn:Hg; [|done].
  destruct (managed_get _ w c game Hw Hg) as [Hreg _].
  cbv zeta. unfold cmd_bind, mutate, update_game. cbn [fst snd].
  by eapply (managed_insert _ w _ c).
Qed.

Lemma spelling_on_message_managed m d w :
  managed_s w → managed_s (Spelling.on_message cp ops utc_offset guild_of m d w).2.
Proof.
  intros Hw. unfold Spelling.on_message. cbv zeta.
  destruct (decide (in_channel m ∉ channels w)) as [|Hreg]; [done|].
  apply dec_stable in Hreg.
  destruct (in_from_bot m); [done|]. destruct (in_is_command m); [done|].
  destruct (get_game w (in_channel m)) as [game|] eqn:Hg; [|done].
  destruct (decide (SpellingGame.state game ≠ CONTINUE)); [done|].
  destruct (decide (1 < length _)%nat); [done|].
  destruct (decide (not_cyrillic _)); [done|].
  destruct (SpellingGame.guess cp game _ (in_author m)) as [emoji game'].
  rewrite bind_mutate, bind_emit, bind_update.
  set (w1 := with_files _ _).
  assert (managed_s w1) as Hw1 by (by eapply (managed_insert _ w _ (in_channel m))).
  clearbody w1.
  destruct (decide (SpellingGame.state game' = FINISHED)); [|done].
  by apply spelling_stop_game_managed.
Qed.

Lemma spelling_sweep_managed now_us rnd cs w :
  managed_s w → managed_s (Spelling.sweep cp utc_offset guild_of now_us rnd cs w).2.
Proof.
  revert w. induction cs as [|c cs IH]; intros w Hw; [done|].
  cbn [Spelling.sweep]. unfold cmd_bind.
  assert (managed_s (Spelling.check_channel cp utc_offset guild_of now_us rnd c w).2)
    as H1.
  { unfold Spelling.check_channel. destruct (get_game w c) as [game|]; [|done].
    destruct (decide _); [done|]. destruct (decide _); [|done].
    by apply spelling_stop_game_managed. }
  destruct (Spelling.check_channel _ _ _ _ _ _ _) as [[[]|err|] w1]; cbn [snd] in *;
    [by apply IH|done..].
Qed.

Lemma spelling_load_channels_managed rnd cs w :
  managed_s w → managed_s (Spelling.load_channels cp utc_offset rnd cs w).2.
Proof.
  revert w. induction cs as [|c cs IH]; intros w Hw; [done|].
  cbn [Spelling.load_channels]. unfold cmd_bind.
  assert (managed_s (Spelling.load_channel cp utc_offset rnd c w).2) as H1.
  { unfold Spelling.load_channel. destruct (get_game w c) as [game|].
    - destruct (decide _); [by apply spelling_start_game_managed|done].
    - by apply spelling_start_game_managed. }
  destruct (Spelling.load_channel _ _ _ _ _) as [[[]|err|] w1]; cbn [snd] in *;
    [by apply IH|done..].
Qed.
End spelling_managed.

(** X19. Every handler of the Spelling-Bee cog keeps the table, the
    registry and the snapshots in step (as long as sending to the chat does
    not fail): if every game of the table belongs to a registered channel
    and equals the game in the channel's snapshot when the handler is called,
    the same holds afterwards, also when the scoring or the construction of
    the next game raises in the middle of a restart. *)
Theorem spelling_snapshots_in_step
    (cp : Corpus) (ops : StrOps) (utc_offset : Z) (guild_of : Z → Guild)
    (w : World SpellingGame.t) :
  managed SpellingGame.to_dict w →
  (∀ m d, managed SpellingGame.to_dict
            (Spelling.on_message cp ops utc_offset guild_of m d w).2) ∧
  (∀ d c, managed SpellingGame.to_dict
            (Spelling.stopSB cp utc_offset guild_of d c w).2) ∧
  (∀ d c, managed SpellingGame.to_dict
            (Spelling.stop_game cp utc_offset guild_of d c w).2) ∧
  (∀ d c, managed SpellingGame.to_dict (Spelling.start_game cp utc_offset d c w).2) ∧
  (∀ draw c, managed SpellingGame.to_dict (Spelling.shuffle draw c w).2) ∧
  (∀ now_us rnd, managed SpellingGame.to_dict
                   (Spelling.check_deadline cp utc_offset guild_of now_us rnd w).2) ∧
  (∀ rnd, managed SpellingGame.to_dict (Spelling.cog_load cp utc_offset rnd w).2).
Proof.
  intros Hw. split_and!.
  - intros. by apply spelling_on_message_managed.
  - intros. by apply spelling_stop_game_managed.
  - intros. by apply spelling_stop_game_managed.
  - intros. by apply spelling_start_game_managed.
  - intros. by apply spelling_shuffle_managed.
  - intros. by apply spelling_sweep_managed.
  - intros. by apply spelling_load_channels_managed.
Qed.

Lemma spelling_snapshots_in_step_witness :
  managed SpellingGame.to_dict
    (Spelling.on_message bee_corpus plain_ops 0 nobody (says 2 77 kot)
       {| end_clock := 0; start_clock := 0; root_draw := 0 |} bee_running).2.
Proof.
  refine (proj1 (spelling_snapshots_in_step bee_corpus plain_ops 0 nobody bee_running _)
            (says 2 77 kot) {| end_clock := 0; start_clock := 0; root_draw := 0 |}).
  intros c g Hg. destruct (decide (c = 2)) as [->|Hne].
  - unfold bee_running in *. cbn [games files channels] in *.
    rewrite lookup_singleton_eq in Hg. injection Hg as <-.
    split; [apply list_elem_of_here|]. by rewrite lookup_singleton_eq.
  - unfold bee_running in Hg. cbn [games] in Hg.
    by rewrite lookup_singleton_ne in Hg.
Defined.

(** ** The Wordle cog: a win and the next game *)

(** X20. A member's message that is the solution of the channel's game
    wins it and takes the channel straight to the next game: the handler
    returns, the picture is all Correct and goes out with the winning text
    (after the reaction, if there is one), the bot types, and a new game
    with the drawn word is in the table and in the snapshot, announced by
    the length of its word. *)
Theorem wordle_win_restarts
    (cp : Corpus) (ops : StrOps) (m : Incoming) (r1 r2 r3 : nat)
    (draws : list (nat * nat)) (w : World WordleGame.t) (g : WordleGame.t) (s : pystr) :
  let c := in_channel m in
  c ∈ channels w →
  in_from_bot m = false →
  in_is_command m = false →
  GameManager.get_game w c = Some g →
  WordleGame.state g = CONTINUE →
  (length (str_split ops (in_content m)) ≤ 1)%nat →
  str_lower ops (str_strip ops (in_content m)) = WordleGame.solution g →
  WordleGame.solution g ≠ [] →
  ¬ not_cyrillic (WordleGame.solution g) →
  WordleGame.solution g ∈ all_words cp →
  pick_solution cp draws = Some s →
  let next := {| WordleGame.state := CONTINUE; WordleGame.guesses := 0;
                 WordleGame.solution := s |} in
  ∃ w' text colors reaction,
    Wordle.on_message cp ops m r1 r2 r3 draws w = (Returned (), w') ∧
    Forall (λ col, col = COLOR_CORRECT) colors ∧
    (reaction = [] ∨ ∃ e, reaction = [Reaction c e]) ∧
    sent w' = sent w ++ reaction
              ++ [Message c (GuessFeedback (Some text)
                               {| img_word := WordleGame.solution g;
                                  img_colors := colors |});
                  Typing c;
                  Message c (WordlePicked (length s))] ∧
    channels w' = channels w ∧
    previousgame w' = previousgame w ∧
    GameManager.get_game w' c = Some next ∧
    files w' !! c = Some (Json (WordleSnapshot.to_dict next)).
Proof.
  intros c Hreg Hbot Hcmd Hg Hst Hsplit Hguess Hne Hcyr Hin Hpick next.
  destruct (guess_win cp g r1 r2 r3 Hin)
    as ([em msg file] & colors & Hrun & _ & [text Hmsg] & Hfile & Hall).
  cbn [WordleGame.emoji WordleGame.msg WordleGame.file_obj] in *. subst msg file.
  unfold Wordle.on_message. cbv zeta. fold c.
  rewrite decide_False by (intros Hn; by apply Hn).
  rewrite Hbot, Hcmd, Hg.
  rewrite decide_False by (intros Hn; by apply Hn).
  rewrite decide_False by lia.
  rewrite Hguess.
  rewrite decide_False by (intros [?|?]; done).
  rewrite Hrun. cbn [WordleGame.emoji WordleGame.msg WordleGame.file_obj].
  set (g1 := {| WordleGame.state := FINISHED;
                WordleGame.guesses := WordleGame.guesses g + 1;
                WordleGame.solution := WordleGame.solution g |}).
  assert (∀ w1 : World WordleGame.t,
    channels w1 = channels w → games w1 = <[c := Some g1]> (games w) →
    files w1 = files w → previousgame w1 = previousgame w →
    ∃ w',
      cmd_bind (GameManager.emit
                  (Message c (GuessFeedback (Some text)
                     {| img_word := WordleGame.solution g; img_colors := colors |})))
        (λ _, cmd_bind (GameManager.update_game WordleSnapshot.to_dict c g1)
           (λ _, if decide (WordleGame.state g1 = FINISHED)
                 then Wordle.stop_game cp draws c else skip)) w1
      = (Returned (), w') ∧
      sent w' = sent w1
                ++ [Message c (GuessFeedback (Some text)
                                 {| img_word := WordleGame.solution g;
                                    img_colors := colors |});
                    Typing c;
                    Message c (WordlePicked (length s))] ∧
      channels w' = channels w ∧
      previousgame w' = previousgame w ∧
      GameManager.get_game w' c = Some next ∧
      files w' !! c = Some (Json (WordleSnapshot.to_dict next))) as Hrest.
  { intros w1 Hc1 Hg1 Hf1 Hp1.
    rewrite bind_emit, bind_update. rewrite decide_True by done.
    unfold Wordle.stop_game, GameManager.get_game.
    cbn [GameManager.with_files games]. rewrite Hg1, lookup_insert_eq.
    rewrite decide_False by done.
    rewrite bind_mutate, bind_update, bind_emit.
    rewrite (wordle_start_game_world cp draws c _ s);
      [|cbn [GameManager.with_files GameManager.with_games channels]; by rewrite Hc1|done].
    eexists. split; [done|].
    cbn [GameManager.with_files GameManager.with_games channels games files
         previousgame sent].
    rewrite !lookup_insert_eq, <- !app_assoc. done. }
  rewrite bind_mutate. destruct em as [e|].
  - rewrite bind_emit.
    edestruct Hrest as (w' & -> & Hsent & ? & ? & ? & ?); [done..|].
    exists w', text, colors, [Reaction c e]. split_and!; [done|done|eauto| |done..].
    rewrite Hsent. cbn [sent]. by rewrite <- !app_assoc.
  - rewrite bind_skip.
    edestruct Hrest as (w' & -> & Hsent & ? & ? & ? & ?); [done..|].
    exists w', text, colors, []. split_and!; [done|done|by left| |done..].
    rewrite Hsent. done.
Qed.

Lemma wordle_win_restarts_witness :
  let next := {| WordleGame.state := CONTINUE; WordleGame.guesses := 0;
                 WordleGame.solution := slovo |} in
  ∃ w' text colors reaction,
    Wordle.on_message wordle_corpus plain_ops (says 1 77 slovo) 0 0 0 [(4, 0)]%nat
      wordle_running = (Returned (), w') ∧
    Forall (λ col, col = COLOR_CORRECT) colors ∧
    (reaction = [] ∨ ∃ e, reaction = [Reaction 1 e]) ∧
    sent w' = sent wordle_running ++ reaction
              ++ [Message 1 (GuessFeedback (Some text)
                               {| img_word := slovo; img_colors := colors |});
                  Typing 1;
                  Message 1 (WordlePicked (length slovo))] ∧
    channels w' = channels wordle_running ∧
    previousgame w' = previousgame wordle_running ∧
    GameManager.get_game w' 1 = Some next ∧
    files w' !! 1 = Some (Json (WordleSnapshot.to_dict next)).
Proof.
  apply (wordle_win_restarts wordle_corpus plain_ops (says 1 77 slovo) 0 0 0
           [(4, 0)]%nat wordle_running wordle_game slovo).
  - apply list_elem_of_here.
  - reflexivity.
  - reflexivity.
  - vm_compute. reflexivity.
  - reflexivity.
  - cbn. lia.
  - reflexivity.
  - discriminate.
  - apply (bool_decide_unpack _). vm_compute. reflexivity.
  - cbn. apply list_elem_of_further, list_elem_of_here.
  - vm_compute. reflexivity.
Defined.

(** ** The Spelling-Bee cog: a restart that does not get through *)

(** X21. [stop_game] marks the game Restarting and writes it before it
    scores.  When the scoring raises, nothing has been sent and nothing is
    archived; when the scoring returns but there is no ten-letter target word
    for the next game, the result has been announced and the constructor's
    [IndexError] comes out.  Either way the exception leaves the channel with
    the old game in the state Restarting, in the table and in the snapshot,
    and no new game. *)
Theorem spelling_restart_stalls
    (cp : Corpus) (utc_offset : Z) (guild_of : Z → Guild) (d : draws) (c : Z)
    (w : World SpellingGame.t) (g : SpellingGame.t) :
  c ∈ channels w →
  GameManager.get_game w c = Some g →
  SpellingGame.state g ≠ RESTARTING →
  let g' := SpellingGame.set_state g RESTARTING in
  (∀ e, SpellingGame.winners_and_losers g' (guild_of c) = Raise e →
     Spelling.stop_game cp utc_offset guild_of d c w
     = (Raised e,
        {| channels := channels w;
           games := <[c := Some g']> (games w);
           files := <[c := Json (SpellingGame.to_dict g')]> (files w);
           previousgame := previousgame w;
           sent := sent w |})) ∧
  (∀ result, SpellingGame.winners_and_losers g' (guild_of c) = Ok result →
     ¬ root_available cp →
     ∃ w', Spelling.stop_game cp utc_offset guild_of d c w = (Raised IndexError, w') ∧
       GameManager.get_game w' c = Some g' ∧
       files w' !! c = Some (Json (SpellingGame.to_dict g')) ∧
       sent w' = sent w ++ [Message c (GameOver result); Typing c] ∧
       (result = None → previousgame w' = previousgame w)).
Proof.
  intros Hreg Hg Hst g'. split.
  - intros e Hscore. unfold Spelling.stop_game.
    rewrite Hg, decide_False by done.
    rewrite bind_mutate, bind_update. fold g'. by rewrite Hscore.
  - intros result Hscore Hroot. unfold Spelling.stop_game.
    rewrite Hg, decide_False by done.
    rewrite bind_mutate, bind_update. fold g'. rewrite Hscore.
    assert (∀ w1 : World SpellingGame.t, c ∈ channels w1 →
      Spelling.start_game cp utc_offset d c w1 = (Raised IndexError, w1)) as Hstart.
    { intros w1 Hc1. unfold Spelling.start_game.
      rewrite decide_False by (intros Hn; by apply Hn).
      unfold SpellingGame_init.
      destruct (fresh_cases cp utc_offset (start_clock d) (root_draw d))
        as [[? _]|[_ ->]]; done. }
    destruct result as [[winners losers]|].
    + unfold cmd_bind at 1. cbv beta iota. rewrite bind_emit, bind_emit.
      rewrite Hstart by done. eexists. split; [done|].
      unfold GameManager.get_game.
      cbn [GameManager.with_previousgame GameManager.with_files
           GameManager.with_games channels games files previousgame sent].
      rewrite !lookup_insert_eq, <- app_assoc. done.
    + rewrite bind_skip, bind_emit, bind_emit.
      rewrite Hstart by done. eexists. split; [done|].
      unfold GameManager.get_game.
      cbn [GameManager.with_files GameManager.with_games channels games files
           previousgame sent].
      rewrite !lookup_insert_eq, <- app_assoc. done.
Qed.

Lemma spelling_restart_stalls_witness :
  let d := {| end_clock := 0; start_clock := 0; root_draw := 0 |} in
  let g := run bee_corpus bee_game [(kot, 7)] in
  let g' := SpellingGame.set_state g RESTARTING in
  Spelling.stop_game bee_corpus 0 nobody d 2 bee_overrun
  = (Raised IndexError,
     {| channels := channels bee_overrun;
        games := <[2 := Some g']> (games bee_overrun);
        files := <[2 := Json (SpellingGame.to_dict g')]> (files bee_overrun);
        previousgame := previousgame bee_overrun;
        sent := sent bee_overrun |}).
Proof.
  refine (proj1 (spelling_restart_stalls bee_corpus 0 nobody
                   {| end_clock := 0; start_clock := 0; root_draw := 0 |} 2
                   bee_overrun (run bee_corpus bee_game [(kot, 7)]) _ _ _)
            IndexError _).
  - apply list_elem_of_here.
  - unfold bee_overrun, GameManager.get_game. cbn [games].
    by rewrite lookup_singleton_eq.
  - vm_compute. discriminate.
  - vm_compute. reflexivity.
Defined.

(** ** Bump reminders *)

Section bumps.
Import BumpReminder.
Context (parse_countdown : pystr → option Z).

Lemma schedule_cases now msg which delta self :
  match schedule now msg which delta self with
  | Value (false, self') => self' = self
  | Value (true, self') =>
      now ≤ created_at msg + delta ≤ DATETIME_MAX ∧
      stores which (msg_channel msg) (created_at msg + delta) self self'
  | Throw r => r = OverflowError
  end.
Proof.
  unfold schedule. cbv zeta.
  destruct (decide (DATETIME_MAX < _)); [done|].
  destruct (reminders which self !! msg_channel msg) as [t0|] eqn:Hold.
  - destruct (decide (_ ≤ t0)); [done|].
    destruct (decide (_ < now)); [done|].
    split; [lia|]. split; [done|]. intros t1 Ht1. simplify_eq. lia.
  - destruct (decide (_ < now)); [done|].
    split; [lia|]. split; [done|]. intros t1 Ht1. congruence.
Qed.
End bumps.

(** X22. [update_bump_time] only ever moves a reminder forward.  When it
    reports [False] the cog is unchanged.  When it reports [True] it has
    stored, for the channel of the message and one service, a reminder that
    is not in the past and is later than the one that was there; a message of
    Disboard only reaches Disboard's reminder (two hours after the message),
    a message of Server Monitoring only reaches the other one.  When it
    raises, it is [TypeError] on a first embed without description, or the
    [OverflowError] of the date arithmetic. *)
Theorem bump_time_moves_forward
    (parse_countdown : pystr → option Z) (now : Z)
    (msg : BumpReminder.Msg) (self : BumpReminder.t) :
  match BumpReminder.update_bump_time parse_countdown now (BumpReminder.PyMsg msg) self with
  | BumpReminder.Value (false, self') => self' = self
  | BumpReminder.Value (true, self') =>
      ∃ which t,
        now ≤ t ≤ BumpReminder.DATETIME_MAX ∧
        stores which (BumpReminder.msg_channel msg) t self self' ∧
        match which with
        | BumpReminder.Disboard =>
            BumpReminder.author_name msg = BumpReminder.DISBOARD ∧
            t = BumpReminder.created_at msg + BumpReminder.hours 2
        | BumpReminder.ServerMonitoring =>
            BumpReminder.author_name msg = BumpReminder.SERVER_MONITORING
        end
  | BumpReminder.Throw (BumpReminder.Exn e) =>
      e = TypeError ∧ ∃ rest, BumpReminder.embeds msg = None :: rest
  | BumpReminder.Throw BumpReminder.OverflowError => True
  end.
Proof.
  unfold BumpReminder.update_bump_time.
  assert (∀ which delta,
    match which with
    | BumpReminder.Disboard =>
        BumpReminder.author_name msg = BumpReminder.DISBOARD ∧
        delta = BumpReminder.hours 2
    | BumpReminder.ServerMonitoring =>
        BumpReminder.author_name msg = BumpReminder.SERVER_MONITORING
    end →
    match BumpReminder.schedule now msg which delta self with
    | BumpReminder.Value (false, self') => self' = self
    | BumpReminder.Value (true, self') =>
        ∃ which t,
          now ≤ t ≤ BumpReminder.DATETIME_MAX ∧
          stores which (BumpReminder.msg_channel msg) t self self' ∧
          match which with
          | BumpReminder.Disboard =>
              BumpReminder.author_name msg = BumpReminder.DISBOARD ∧
              t = BumpReminder.created_at msg + BumpReminder.hours 2
          | BumpReminder.ServerMonitoring =>
              BumpReminder.author_name msg = BumpReminder.SERVER_MONITORING
          end
    | BumpReminder.Throw (BumpReminder.Exn e) =>
        e = TypeError ∧ ∃ rest, BumpReminder.embeds msg = None :: rest
    | BumpReminder.Throw BumpReminder.OverflowError => True
    end) as Hsched.
  { intros which delta Hwhich.
    pose proof (schedule_cases now msg which delta self) as Hs.
    destruct (BumpReminder.schedule now msg which delta self) as [[[|] self']|r].
    - destruct Hs as [Hrange Hstore]. exists which, (BumpReminder.created_at msg + delta).
      split; [done|]. split; [done|]. destruct which; [|done].
      destruct Hwhich as [? ->]. done.
    - done.
    - by subst r. }
  destruct (decide (BumpReminder.author_name msg = BumpReminder.DISBOARD)) as [Hd|Hd].
  { destruct (BumpReminder.embeds msg) as [|[description|] rest] eqn:He; [done| |].
    - cbn [BumpReminder.contains].
      destruct (str_contains _ _); [|done]. by apply (Hsched BumpReminder.Disboard).
    - cbn [BumpReminder.contains]. split; [done|]. by exists rest. }
  destruct (decide (BumpReminder.author_name msg = BumpReminder.SERVER_MONITORING))
    as [Hs|Hs]; [|done].
  destruct (BumpReminder.embeds msg) as [|[description|] rest] eqn:He; [done| |].
  - cbn [BumpReminder.contains].
    destruct (str_contains _ _); [by apply (Hsched BumpReminder.ServerMonitoring)|].
    destruct (str_contains _ _); [|done]. cbn [mbind option_bind].
    destruct (parse_countdown description) as [delta|]; [|done].
    by apply (Hsched BumpReminder.ServerMonitoring).
  - cbn [BumpReminder.contains]. split; [done|]. by exists rest.
Qed.

Section reminders.
Import BumpReminder.

Lemma notice_for_ext now self self' c :
  reminders_disboard self' !! c = reminders_disboard self !! c →
  reminders_server_monitoring self' !! c = reminders_server_monitoring self !! c →
  notice_for now self' c = notice_for now self c.
Proof. unfold notice_for, due. by intros -> ->. Qed.

Lemma check_channel_step now self sent c :
  let r := check_channel now (self, sent) c in
  channels r.1 = channels self ∧
  r.2 = sent ++ from_option (λ n, [n]) [] (notice_for now self c) ∧
  (∀ c', reminders_disboard r.1 !! c'
         = if decide (c' = c ∧ due now (reminders_disboard self !! c))
           then None else reminders_disboard self !! c') ∧
  (∀ c', reminders_server_monitoring r.1 !! c'
         = if decide (c' = c ∧ ¬ due now (reminders_disboard self !! c) ∧
                      due now (reminders_server_monitoring self !! c))
           then None else reminders_server_monitoring self !! c').
Proof.
  cbv zeta. unfold check_channel, notice_for, due. cbn [fst snd].
  destruct (decide (default now (reminders_disboard self !! c) < now)) as [Hd|Hd].
  - cbn [fst snd with_disboard channels reminders_disboard
         reminders_server_monitoring from_option].
    split_and!; [done..| |].
    + intros c'. destruct (decide (c' = c)) as [->|Hne].
      * rewrite lookup_delete_eq. by rewrite decide_True.
      * rewrite lookup_delete_ne by done. rewrite decide_False; [done|tauto].
    + intros c'. rewrite decide_False; [done|tauto].
  - destruct (decide (default now (reminders_server_monitoring self !! c) < now))
      as [Hs|Hs].
    + cbn [fst snd with_server_monitoring channels reminders_disboard
           reminders_server_monitoring from_option].
      split_and!; [done..| |].
      * intros c'. rewrite decide_False; [done|tauto].
      * intros c'. destruct (decide (c' = c)) as [->|Hne].
        -- rewrite lookup_delete_eq. by rewrite decide_True.
        -- rewrite lookup_delete_ne by done. rewrite decide_False; [done|tauto].
    + cbn [fst snd from_option]. rewrite app_nil_r.
      split_and!; [done..| |]; intros c'; (rewrite decide_False; [done|tauto]).
Qed.

Lemma check_fold now cs self sent :
  NoDup cs →
  let r := foldl (check_channel now) (self, sent) cs in
  channels r.1 = channels self ∧
  r.2 = sent ++ omap (notice_for now self) cs ∧
  (∀ c, reminders_disboard r.1 !! c
        = if decide (c ∈ cs ∧ due now (reminders_disboard self !! c))
          then None else reminders_disboard self !! c) ∧
  (∀ c, reminders_server_monitoring r.1 !! c
        = if decide (c ∈ cs ∧ ¬ due now (reminders_disboard self !! c) ∧
                     due now (reminders_server_monitoring self !! c))
          then None else reminders_server_monitoring self !! c).
Proof.
  cbv zeta. intros Hnd. revert self sent.
  induction Hnd as [|c cs Hc Hnd IH]; intros self sent.
  { cbn. rewrite app_nil_r. split_and!; [done..| |]; intros c;
      (rewrite decide_False; [done|]); by intros [?%elem_of_nil _]. }
  cbn [foldl].
  destruct (check_channel_step now self sent c) as (Hch & Hsent & Hd & Hs).
  destruct (check_channel now (self, sent) c) as [self1 sent1]. cbn [fst snd] in *.
  destruct (IH self1 sent1) as (Hch' & Hsent' & Hd' & Hs').
  assert (∀ c', c' ≠ c →
            reminders_disboard self1 !! c' = reminders_disboard self !! c' ∧
            reminders_server_monitoring self1 !! c'
            = reminders_server_monitoring self !! c') as Hsame.
  { intros c' Hne. rewrite Hd, Hs, !decide_False by tauto. done. }
  split_and!.
  - congruence.
  - rewrite Hsent', Hsent, <- app_assoc. f_equal. cbn [omap list_omap].
    assert (omap (notice_for now self1) cs = omap (notice_for now self) cs) as ->.
    { clear -Hc Hsame. induction cs as [|c' cs IH]; [done|].
      apply not_elem_of_cons in Hc as [Hne Hc]. cbn [omap list_omap].
      destruct (Hsame c') as [H1 H2]; [done|].
      rewrite (notice_for_ext now self self1 c') by done.
      by rewrite IH. }
    by destruct (notice_for now self c).
  - intros c'. rewrite Hd'. destruct (decide (c' = c)) as [->|Hne].
    + rewrite decide_False by tauto. rewrite Hd.
      destruct (decide (due now (reminders_disboard self !! c))) as [Hdue|Hdue].
      * rewrite decide_True by done. rewrite decide_True; [done|].
        split; [apply list_elem_of_here|done].
      * rewrite decide_False by tauto. rewrite decide_False; [done|tauto].
    + destruct (Hsame c' Hne) as [H1 _]. rewrite H1.
      destruct (decide (c' ∈ cs ∧ _)) as [[? ?]|Hn].
      * rewrite decide_True; [done|]. split; [by apply list_elem_of_further|done].
      * rewrite decide_False; [done|]. intros [[?|?]%elem_of_cons ?]; tauto.
  - intros c'. rewrite Hs'. destruct (decide (c' = c)) as [->|Hne].
    + rewrite decide_False by tauto. rewrite Hs.
      destruct (decide (c = c ∧ _)) as [(_ & Hnd' & Hdue)|Hn].
      * rewrite decide_True; [done|]. split; [apply list_elem_of_here|done].
      * rewrite decide_False; [done|]. tauto.
    + destruct (Hsame c' Hne) as [H1 H2]. rewrite H1, H2.
      destruct (decide (c' ∈ cs ∧ _)) as [(? & ? & ?)|Hn].
      * rewrite decide_True; [done|]. split; [by apply list_elem_of_further|done].
      * rewrite decide_False; [done|]. intros ([?|?]%elem_of_cons & ? & ?); tauto.
Qed.
End reminders.

(** X23. One round of [check_reminders] over a registry without duplicates
    sends, in the order of the registry, one notice to every channel with a
    reminder that is due and none to the others; a channel for which both
    services are due gets the Disboard notice, keeps its other reminder, and
    gets that notice at the next round.  A reminder that was announced is
    dropped, every other reminder stays, and reminders of channels that are
    not registered are neither announced nor dropped. *)
Theorem check_reminders_round (now : Z) (self : BumpReminder.t) :
  NoDup (BumpReminder.channels self) →
  let after := (BumpReminder.check_reminders now self).1 in
  let sent := (BumpReminder.check_reminders now self).2 in
  BumpReminder.channels after = BumpReminder.channels self ∧
  sent = omap (notice_for now self) (BumpReminder.channels self) ∧
  (∀ c, BumpReminder.reminders_disboard after !! c
        = if decide (c ∈ BumpReminder.channels self ∧
                     due now (BumpReminder.reminders_disboard self !! c))
          then None else BumpReminder.reminders_disboard self !! c) ∧
  (∀ c, BumpReminder.reminders_server_monitoring after !! c
        = if decide (c ∈ BumpReminder.channels self ∧
                     ¬ due now (BumpReminder.reminders_disboard self !! c) ∧
                     due now (BumpReminder.reminders_server_monitoring self !! c))
          then None else BumpReminder.reminders_server_monitoring self !! c) ∧
  (∀ c later, now ≤ later →
     due now (BumpReminder.reminders_disboard self !! c) →
     due now (BumpReminder.reminders_server_monitoring self !! c) →
     c ∈ BumpReminder.channels self →
     notice_for now self c = Some (BumpReminder.TimeToBumpDisboard c) ∧
     notice_for later after c = Some (BumpReminder.TimeToBumpServerMonitoring c)).
Proof.
  intros Hnd. cbv zeta. unfold BumpReminder.check_reminders.
  destruct (check_fold now (BumpReminder.channels self) self [] Hnd)
    as (Hch & Hsent & Hd & Hs).
  split; [exact Hch|]. split; [exact Hsent|]. split; [exact Hd|]. split; [exact Hs|].
  intros c later Hlater Hdd Hds Hc. unfold notice_for. split.
  - by rewrite decide_True.
  - unfold due in *. rewrite Hd, Hs.
    rewrite (decide_True (P := c ∈ BumpReminder.channels self ∧ _)) by done.
    rewrite (decide_False (P := c ∈ BumpReminder.channels self ∧ _)) by tauto.
    cbn [default]. rewrite (decide_False (P := later < later)) by lia.
    rewrite decide_True; [done|].
    destruct (BumpReminder.reminders_server_monitoring self !! c); cbn [default] in *; lia.
Qed.

Lemma check_reminders_round_witness :
  let after := (BumpReminder.check_reminders 100 bumps_due).1 in
  let sent := (BumpReminder.check_reminders 100 bumps_due).2 in
  BumpReminder.channels after = BumpReminder.channels bumps_due ∧
  sent = omap (notice_for 100 bumps_due) (BumpReminder.channels bumps_due) ∧
  (∀ c, BumpReminder.reminders_disboard after !! c
        = if decide (c ∈ BumpReminder.channels bumps_due ∧
                     due 100 (BumpReminder.reminders_disboard bumps_due !! c))
          then None else BumpReminder.reminders_disboard bumps_due !! c) ∧
  (∀ c, BumpReminder.reminders_server_monitoring after !! c
        = if decide (c ∈ BumpReminder.channels bumps_due ∧
                     ¬ due 100 (BumpReminder.reminders_disboard bumps_due !! c) ∧
                     due 100 (BumpReminder.reminders_server_monitoring bumps_due !! c))
          then None else BumpReminder.reminders_server_monitoring bumps_due !! c) ∧
  (∀ c later, 100 ≤ later →
     due 100 (BumpReminder.reminders_disboard bumps_due !! c) →
     due 100 (BumpReminder.reminders_server_monitoring bumps_due !! c) →
     c ∈ BumpReminder.channels bumps_due →
     notice_for 100 bumps_due c = Some (BumpReminder.TimeToBumpDisboard c) ∧
     notice_for later after c = Some (BumpReminder.TimeToBumpServerMonitoring c)).
Proof.
  apply (check_reminders_round 100 bumps_due).
  apply (bool_decide_unpack _). vm_compute. reflexivity.
Defined.

(** X24. Joining a guild that has a [#bumps] channel always fails:
    [on_guild_join] hands the channel id to [update_bump_time], which reads
    [msg.channel.id] from it and raises [AttributeError].  The channel has
    been registered by then, and no reminder has been touched. *)
Theorem bump_join_raises
    (parse_countdown : pystr → option Z) (now : Z)
    (guild_channels : list GuildChannel) (self : BumpReminder.t)
    (channel : GuildChannel) :
  utils_get BumpReminder.CHANNEL_NAME guild_channels = Some channel →
  chan_id channel ≠ 0 →
  ∃ self',
    BumpReminder.on_guild_join parse_countdown now guild_channels self
    = (BumpReminder.Throw (BumpReminder.Exn AttributeError), self') ∧
    BumpReminder.channels self' = BumpReminder.channels self ++ [chan_id channel] ∧
    BumpReminder.reminders_disboard self' = BumpReminder.reminders_disboard self ∧
    BumpReminder.reminders_server_monitoring self'
    = BumpReminder.reminders_server_monitoring self.
Proof.
  intros Hget Hid. unfold BumpReminder.on_guild_join, BumpReminder.guild_setup.
  rewrite Hget. rewrite decide_True by done.
  cbn [BumpReminder.update_bump_time]. eexists. split; [done|]. done.
Qed.

Lemma bump_join_raises_witness :
  ∃ self',
    BumpReminder.on_guild_join (λ _, None) 0 bumps_guild bumps_due
    = (BumpReminder.Throw (BumpReminder.Exn AttributeError), self') ∧
    BumpReminder.channels self' = BumpReminder.channels bumps_due ++ [5] ∧
    BumpReminder.reminders_disboard self' = BumpReminder.reminders_disboard bumps_due ∧
    BumpReminder.reminders_server_monitoring self'
    = BumpReminder.reminders_server_monitoring bumps_due.
Proof.
  apply (bump_join_raises (λ _, None) 0 bumps_guild bumps_due
           {| chan_id := 5; chan_name := u "bumps" |}).
  - vm_compute. reflexivity.
  - cbn. lia.
Defined.

(** ** The soft-sign quiz *)

Section softsign.
Import SoftSign.
Context (masculine_nouns feminine_nouns common : list pystr).

Local Abbreviation soft_nouns := (SoftSign.soft_nouns masculine_nouns feminine_nouns common).
Local Abbreviation pose_question :=
  (SoftSign.pose_question masculine_nouns feminine_nouns common).
Local Abbreviation guess := (SoftSign.guess masculine_nouns feminine_nouns common).

Lemma soft_nouns_elem w :
  w ∈ soft_nouns ↔ (w ∈ masculine_nouns ∨ w ∈ feminine_nouns) ∧ w ∈ common.
Proof.
  unfold SoftSign.soft_nouns.
  rewrite elem_of_elements, elem_of_intersection, !elem_of_list_to_set, elem_of_app.
  done.
Qed.

Lemma pose_new r c source self :
  soft_nouns ≠ [] →
  ∀ override, (override = true ∨ stale c source self = Ok false) →
  ∃ w, w ∈ soft_nouns ∧
    pose_question r c source override self
    = ([Pose c w],
       Ok {| channels := channels self;
             last_word := <[c := Some w]> (last_word self) |}).
Proof.
  intros Hne override Hov. unfold SoftSign.pose_question.
  assert ((if override then Ok false else stale c source self) = Ok false) as ->.
  { destruct override; [done|]. by destruct Hov. }
  destruct (random_choice_ok r soft_nouns Hne) as (w & -> & Hw). eauto.
Qed.

Lemma stale_current c w self :
  last_word self !! c = Some (Some w) → stale c (Some w) self = Ok false.
Proof.
  intros Hl. unfold stale. destruct w as [|x w]; [done|]. rewrite Hl.
  f_equal. apply bool_decide_eq_false_2. by intros Hne.
Qed.

Lemma stale_old c w w' self :
  w ≠ [] → w' ≠ [] → w' ≠ w →
  last_word self !! c = Some (Some w') → stale c (Some w) self = Ok true.
Proof.
  intros Hw Hw' Hne Hl. unfold stale.
  destruct w as [|x w]; [done|]. rewrite Hl. destruct w' as [|y w']; [done|].
  f_equal. apply bool_decide_eq_true_2. congruence.
Qed.

(** The gender that [guess] finds for a word of one of the two lists. *)
Lemma guess_cases_soft r c w gm self :
  w ∈ masculine_nouns ∨ w ∈ feminine_nouns →
  guess r c w gm self
  = if decide (gm = bool_decide (w ∉ feminine_nouns))
    then (Correct w gm :: (pose_question r c (Some w) false self).1,
          (pose_question r c (Some w) false self).2)
    else ([Incorrect], Ok self).
Proof.
  intros Hw. unfold SoftSign.guess. cbv zeta.
  destruct (decide (w ∈ feminine_nouns)) as [Hf|Hf].
  - rewrite bool_decide_eq_false_2 by tauto. by destruct gm.
  - rewrite bool_decide_eq_true_2 by done.
    rewrite decide_True by tauto. by destruct gm.
Qed.
End softsign.

(** X25. Every question of the quiz can be answered.  When the lists have
    a soft noun that is a common word, the [softsign] command in a quiz
    channel poses one, and records it as the channel's last word; the word is
    a common word of one of the two lists, so a press of a button under it is
    never met by deleting the message: the button of the word's gender
    (feminine when the word is on both lists) is confirmed, and the other one
    is turned down without any change. *)
Theorem softsign_question_answerable
    (masculine_nouns feminine_nouns common : list pystr)
    (r : nat) (c : Z) (self : SoftSign.t) :
  c ∈ SoftSign.channels self →
  (∃ v, (v ∈ masculine_nouns ∨ v ∈ feminine_nouns) ∧ v ∈ common) →
  ∃ w self',
    SoftSign.softsign masculine_nouns feminine_nouns common r c self
    = ([SoftSign.Pose c w], Ok self') ∧
    w ∈ common ∧ (w ∈ masculine_nouns ∨ w ∈ feminine_nouns) ∧
    SoftSign.last_word self' !! c = Some (Some w) ∧
    ∀ r' gm,
      let pressed := SoftSign.guess masculine_nouns feminine_nouns common r' c w gm self' in
      (SoftSign.DeleteMessage ∉ pressed.1) ∧
      (gm = bool_decide (w ∉ feminine_nouns) →
       head pressed.1 = Some (SoftSign.Correct w gm)) ∧
      (gm ≠ bool_decide (w ∉ feminine_nouns) →
       pressed = ([SoftSign.Incorrect], Ok self')).
Proof.
  intros Hc (v & Hv & Hvc).
  assert (SoftSign.soft_nouns masculine_nouns feminine_nouns common ≠ []) as Hne.
  { intros Hnil. assert (v ∈ SoftSign.soft_nouns masculine_nouns feminine_nouns common)
      as Hin by (by apply soft_nouns_elem).
    rewrite Hnil in Hin. by apply elem_of_nil in Hin. }
  destruct (pose_new masculine_nouns feminine_nouns common r c None self Hne
              true ltac:(by left)) as (w & Hw & Hpose).
  apply soft_nouns_elem in Hw as [Hlists Hcommon].
  unfold SoftSign.softsign. rewrite decide_False by (intros Hn; by apply Hn).
  rewrite Hpose. eexists w, _. split; [done|]. split; [done|]. split; [done|].
  split; [cbn [SoftSign.last_word]; by rewrite lookup_insert_eq|].
  intros r' gm. cbv zeta.
  rewrite (guess_cases_soft masculine_nouns feminine_nouns common) by done.
  destruct (decide (gm = bool_decide (w ∉ feminine_nouns))) as [Heq|Hneq].
  - cbn [fst snd]. split_and!; [|done|done].
    intros [Hd|Hd]%elem_of_cons; [done|].
    unfold SoftSign.pose_question in Hd.
    destruct (SoftSign.stale _ _ _) as [[|]|]; cbn [fst] in Hd;
      try (by apply elem_of_nil in Hd).
    destruct (random_choice _ _); cbn [fst] in Hd; [|by apply elem_of_nil in Hd].
    apply list_elem_of_singleton in Hd. done.
  - cbn [fst snd]. split_and!; [|done|done].
    intros Hd%list_elem_of_singleton. done.
Qed.

Lemma softsign_question_answerable_witness :
  ∃ w self',
    SoftSign.softsign [den] [noch] [den; noch; slovo] 0 4 quiz
    = ([SoftSign.Pose 4 w], Ok self') ∧
    w ∈ [den; noch; slovo] ∧ (w ∈ [den] ∨ w ∈ [noch]) ∧
    SoftSign.last_word self' !! 4 = Some (Some w) ∧
    ∀ r' gm,
      let pressed := SoftSign.guess [den] [noch] [den; noch; slovo] r' 4 w gm self' in
      (SoftSign.DeleteMessage ∉ pressed.1) ∧
      (gm = bool_decide (w ∉ [noch]) →
       head pressed.1 = Some (SoftSign.Correct w gm)) ∧
      (gm ≠ bool_decide (w ∉ [noch]) →
       pressed = ([SoftSign.Incorrect], Ok self')).
Proof.
  apply (softsign_question_answerable [den] [noch] [den; noch; slovo] 0 4 quiz).
  - apply list_elem_of_here.
  - exists den. split; [left|]; apply list_elem_of_here.
Defined.

(** X26. One question per answer.  The right button under the channel's
    last word is confirmed and followed by exactly one new question, which
    becomes the last word.  Once the new word differs from the old one, any
    further press under the old message is still confirmed or turned down,
    but it poses nothing and changes nothing. *)
Theorem softsign_one_question_per_answer
    (masculine_nouns feminine_nouns common : list pystr)
    (r : nat) (c : Z) (w : pystr) (self : SoftSign.t) :
  SoftSign.last_word self !! c = Some (Some w) →
  w ≠ [] →
  (w ∈ masculine_nouns ∨ w ∈ feminine_nouns) →
  SoftSign.soft_nouns masculine_nouns feminine_nouns common ≠ [] →
  let gm := bool_decide (w ∉ feminine_nouns) in
  ∃ w' self',
    SoftSign.guess masculine_nouns feminine_nouns common r c w gm self
    = ([SoftSign.Correct w gm; SoftSign.Pose c w'], Ok self') ∧
    SoftSign.last_word self' !! c = Some (Some w') ∧
    (w' ≠ w → w' ≠ [] →
     ∀ r2 gm2,
       SoftSign.guess masculine_nouns feminine_nouns common r2 c w gm2 self'
       = (if decide (gm2 = gm) then [SoftSign.Correct w gm] else [SoftSign.Incorrect],
          Ok self')).
Proof.
  intros Hlast Hw Hlists Hne gm.
  rewrite (guess_cases_soft masculine_nouns feminine_nouns common) by done.
  fold gm. rewrite decide_True by done.
  destruct (pose_new masculine_nouns feminine_nouns common r c (Some w) self Hne
              false ltac:(right; by apply stale_current)) as (w' & Hw' & ->).
  cbn [fst snd]. eexists w', _. split; [done|].
  split; [cbn [SoftSign.last_word]; by rewrite lookup_insert_eq|].
  intros Hdiff Hw'ne r2 gm2.
  rewrite (guess_cases_soft masculine_nouns feminine_nouns common) by done.
  fold gm. destruct (decide (gm2 = gm)) as [->|Hgm]; [|done].
  unfold SoftSign.pose_question.
  rewrite (stale_old c w w'); [done..|].
  cbn [SoftSign.last_word]. by rewrite lookup_insert_eq.
Qed.

Lemma softsign_one_question_per_answer_witness :
  let gm := bool_decide (den ∉ [noch]) in
  ∃ w' self',
    SoftSign.guess [den] [noch] [den; noch; slovo] 1 4 den gm quiz
    = ([SoftSign.Correct den gm; SoftSign.Pose 4 w'], Ok self') ∧
    SoftSign.last_word self' !! 4 = Some (Some w') ∧
    (w' ≠ den → w' ≠ [] →
     ∀ r2 gm2,
       SoftSign.guess [den] [noch] [den; noch; slovo] r2 4 den gm2 self'
       = (if decide (gm2 = gm) then [SoftSign.Correct den gm] else [SoftSign.Incorrect],
          Ok self')).
Proof.
  apply (softsign_one_question_per_answer [den] [noch] [den; noch; slovo] 1 4 den quiz).
  - vm_compute. reflexivity.
  - discriminate.
  - left. apply list_elem_of_here.
  - vm_compute. discriminate.
Defined.

(** ** The Spelling-Bee cog: the scoring can name every contributor *)

Section spelling_roster.
Context (cp : Corpus) (ops : StrOps) (utc_offset : Z) (guild_of : Z → Guild).
Import GameManager.

Lemma roster_ext (w w' : World SpellingGame.t) :
  games w' = games w → sessions_in_roster w → sessions_in_roster w'.
Proof. unfold sessions_in_roster. by intros ->. Qed.

Lemma roster_insert (w w' : World SpellingGame.t) c g :
  game_in_roster g →
  games w' = <[c := Some g]> (games w) →
  sessions_in_roster w → sessions_in_roster w'.
Proof.
  unfold sessions_in_roster. intros Hg -> Hw c' g'.
  destruct (decide (c' = c)) as [->|Hne].
  - rewrite lookup_insert_eq. by intros [= <-].
  - rewrite lookup_insert_ne by done. apply Hw.
Qed.

Lemma roster_get (w : World SpellingGame.t) c g :
  sessions_in_roster w → get_game w c = Some g → game_in_roster g.
Proof.
  intros Hw. unfold get_game.
  destruct (games w !! c) as [[g'|]|] eqn:Hg; [|done..].
  intros [= <-]. by eapply Hw.
Qed.

Lemma fresh_game_in_roster now_us r g :
  SpellingGame.fresh cp utc_offset now_us r = Ok g → game_in_roster g.
Proof.
  intros Hfresh.
  destruct (fresh_game_maps cp utc_offset now_us r g Hfresh)
    as (sols & bonus & Hw & Ho & _).
  unfold game_in_roster. rewrite Hw, Ho.
  split; intros w a; rewrite dict_fromkeys_lookup; destruct (decide _);
    intros [= <-]; done.
Qed.

Lemma shuffle_in_roster (draw : pystr → option (nat * nat)) g :
  game_in_roster g →
  game_in_roster
    (SpellingGame.shuffle
       (λ w, (λ kc : nat * nat,
                1 + Z.of_nat (kc.1 mod 5)
                + (if decide (kc.2 mod 2 = 0)%nat then 0 else 100)) <$> draw w) g).
Proof.
  intros [Hw Ho]. split; [|done].
  unfold SpellingGame.shuffle. cbn [SpellingGame.words SpellingGame.set_words].
  intros w a. rewrite map_lookup_imap.
  destruct (SpellingGame.words g !! w) as [a0|] eqn:Hw0; [|done].
  cbn. intros [= <-]. destruct (draw w) as [[k c]|]; cbn.
  - apply shuffle_id_in_roster.
  - by apply (Hw w).
Qed.

Lemma spelling_start_game_roster d c w :
  sessions_in_roster w →
  sessions_in_roster (Spelling.start_game cp utc_offset d c w).2.
Proof.
  intros Hw. unfold Spelling.start_game.
  destruct (decide (c ∉ channels w)); [done|].
  unfold SpellingGame_init.
  destruct (SpellingGame.fresh cp utc_offset _ _) as [game|] eqn:Hfresh; [|done].
  cbn [outcome_of_res].
  unfold add_game, cmd_bind, mutate, update_game, emit. cbn [fst snd].
  eapply (roster_insert w _ c game); [by eapply fresh_game_in_roster|done|done].
Qed.

Lemma spelling_stop_game_roster d c w :
  sessions_in_roster w →
  sessions_in_roster (Spelling.stop_game cp utc_offset guild_of d c w).2.
Proof.
  intros Hw. unfold Spelling.stop_game.
  destruct (get_game w c) as [game|] eqn:Hg; [|done].
  destruct (decide (SpellingGame.state game = RESTARTING)); [done|].
  pose proof (roster_get w c game Hw Hg) as Hgame.
  rewrite bind_mutate, bind_update.
  set (w1 := with_files _ _).
  assert (sessions_in_roster w1) as Hw1.
  { eapply (roster_insert w _ c); [|done|done]. exact Hgame. }
  clearbody w1.
  destruct (SpellingGame.winners_and_losers _ _) as [result|e]; [|done].
  destruct result as [[winners losers]|].
  - unfold cmd_bind at 1. cbv beta iota. rewrite bind_emit, bind_emit.
    apply spelling_start_game_roster. by eapply roster_ext.
  - rewrite bind_skip, bind_emit, bind_emit.
    apply spelling_start_game_roster. by eapply roster_ext.
Qed.

Lemma spelling_shuffle_roster draw c w :
  sessions_in_roster w → sessions_in_roster (Spelling.shuffle draw c w).2.
Proof.
  intros Hw. unfold Spelling.shuffle.
  destruct (get_game w c) as [game|] eqn:Hg; [|done].
  pose proof (roster_get w c game Hw Hg) as Hgame.
  cbv zeta. unfold cmd_bind, mutate, update_game. cbn [fst snd].
  eapply (roster_insert w _ c); [|done|done].
  by apply shuffle_in_roster.
Qed.

Lemma spelling_on_message_roster m d w :
  in_roster (Some (in_author m)) →
  sessions_in_roster w →
  sessions_in_roster (Spelling.on_message cp ops utc_offset guild_of m d w).2.
Proof.
  intros Hauthor Hw. unfold Spelling.on_message. cbv zeta.
  destruct (decide (in_channel m ∉ channels w)); [done|].
  destruct (in_from_bot m); [done|]. destruct (in_is_command m); [done|].
  destruct (get_game w (in_channel m)) as [game|] eqn:Hg; [|done].
  destruct (decide (SpellingGame.state game ≠ CONTINUE)); [done|].
  destruct (decide (1 < length _)%nat); [done|].
  destruct (decide (not_cyrillic _)); [done|].
  pose proof (guess_in_roster cp game
                (str_lower ops (str_strip ops (in_content m))) (in_author m)
                Hauthor (roster_get w _ game Hw Hg)) as Hgame.
  destruct (SpellingGame.guess cp game _ (in_author m)) as [emoji game'].
  cbn [snd] in Hgame.
  rewrite bind_mutate, bind_emit, bind_update.
  set (w1 := with_files _ _).
  assert (sessions_in_roster w1) as Hw1 by (by eapply (roster_insert w _ (in_channel m))).
  clearbody w1.
  destruct (decide (SpellingGame.state game' = FINISHED)); [|done].
  by apply spelling_stop_game_roster.
Qed.

Lemma spelling_sweep_roster now_us rnd cs w :
  sessions_in_roster w →
  sessions_in_roster (Spelling.sweep cp utc_offset guild_of now_us rnd cs w).2.
Proof.
  revert w. induction cs as [|c cs IH]; intros w Hw; [done|].
  cbn [Spelling.sweep]. unfold cmd_bind.
  assert (sessions_in_roster
            (Spelling.check_channel cp utc_offset guild_of now_us rnd c w).2) as H1.
  { unfold Spelling.check_channel. destruct (get_game w c) as [game|]; [|done].
    destruct (decide _); [done|]. destruct (decide _); [|done].
    by apply spelling_stop_game_roster. }
  destruct (Spelling.check_channel _ _ _ _ _ _ _) as [[[]|err|] w1]; cbn [snd] in *;
    [by apply IH|done..].
Qed.

Lemma spelling_load_channels_roster rnd cs w :
  sessions_in_roster w →
  sessions_in_roster (Spelling.load_channels cp utc_offset rnd cs w).2.
Proof.
  revert w. induction cs as [|c cs IH]; intros w Hw; [done|].
  cbn [Spelling.load_channels]. unfold cmd_bind.
  assert (sessions_in_roster (Spelling.load_channel cp utc_offset rnd c w).2) as H1.
  { unfold Spelling.load_channel. destruct (get_game w c) as [game|].
    - destruct (decide _); [by apply spelling_start_game_roster|done].
    - by apply spelling_start_game_roster. }
  destruct (Spelling.load_channel _ _ _ _ _) as [[[]|err|] w1]; cbn [snd] in *;
    [by apply IH|done..].
Qed.
End spelling_roster.

(** X27. The program never records an attribution that the scoring cannot
    name.  If every game of the table holds only attributions within the
    rosters, then so it is after every handler of the Spelling-Bee cog:
    after a guess of an author whose id is not one of the unnamed reserved
    ids (no member's id is), after [shuffle], which draws ids of the rosters,
    and after the restarts, which start from games without attributions.  For
    every game of such a table the scoring returns. *)
Theorem spelling_scoring_safe
    (cp : Corpus) (ops : StrOps) (utc_offset : Z) (guild_of : Z → Guild)
    (w : World SpellingGame.t) :
  sessions_in_roster w →
  (∀ m d, in_roster (Some (in_author m)) →
     sessions_in_roster (Spelling.on_message cp ops utc_offset guild_of m d w).2) ∧
  (∀ draw c, sessions_in_roster (Spelling.shuffle draw c w).2) ∧
  (∀ d c, sessions_in_roster (Spelling.stop_game cp utc_offset guild_of d c w).2) ∧
  (∀ d c, sessions_in_roster (Spelling.start_game cp utc_offset d c w).2) ∧
  (∀ now_us rnd,
     sessions_in_roster (Spelling.check_deadline cp utc_offset guild_of now_us rnd w).2) ∧
  (∀ rnd, sessions_in_roster (Spelling.cog_load cp utc_offset rnd w).2) ∧
  (∀ c g guild, GameManager.get_game w c = Some g →
     ∃ result, SpellingGame.winners_and_losers g guild = Ok result).
Proof.
  intros Hw. split_and!.
  - intros. by apply spelling_on_message_roster.
  - intros. by apply spelling_shuffle_roster.
  - intros. by apply spelling_stop_game_roster.
  - intros. by apply spelling_start_game_roster.
  - intros. by apply spelling_sweep_roster.
  - intros. by apply spelling_load_channels_roster.
  - intros c g guild Hg. apply winners_and_losers_returns, game_in_roster_ids.
    by eapply roster_get.
Qed.

Lemma spelling_scoring_safe_witness :
  sessions_in_roster
    (Spelling.shuffle (λ _, Some (3, 1)%nat) 2 bee_running).2.
Proof.
  refine (proj1 (proj2 (spelling_scoring_safe bee_corpus plain_ops 0 nobody
                          bee_running _)) (λ _, Some (3, 1)%nat) 2).
  intros c g Hg. destruct (decide (c = 2)) as [->|Hne].
  - unfold bee_running in Hg. cbn [games] in Hg.
    rewrite lookup_singleton_eq in Hg. injection Hg as <-.
    split; apply (bool_decide_unpack _); vm_compute; reflexivity.
  - unfold bee_running in Hg. cbn [games] in Hg.
    by rewrite lookup_singleton_ne in Hg.
Defined.

(** ** The Spelling-Bee cog: naming the winners *)





(** ** The manager: snapshots that are not games *)

(** X29. A snapshot file that holds JSON which is not an object is not
    caught by [add_channel].  If the value counts as true (a number, a
    string, a list with elements), the constructor raises [TypeError]: the
    channel is registered by then, it has no entry in the table, and the file
    stays.  If it counts as false ([null], [0], an empty string or list),
    the constructor builds a game as if there were no snapshot; the game is
    in the table, and the file still holds the old value.  This is so for
    both games. *)
Theorem snapshot_not_an_object (cp : Corpus) (utc_offset : Z) (j : json) :
  (∀ fs, j ≠ JObj fs) →
  (∀ (w : World WordleGame.t) c draws,
     files w !! c = Some (Json j) →
     let r := GameManager.add_channel (λ j, WordleGame_init cp (Some j) draws) c w in
     channels r.2 = channels w ++ [c] ∧ files r.2 = files w ∧
     if json_truthy j then r.1 = Raised TypeError ∧ games r.2 = games w
     else match WordleGame_init cp None draws with
          | Returned g => r.1 = Returned () ∧ games r.2 = <[c := Some g]> (games w)
          | Raised e => r.1 = Raised e ∧ games r.2 = games w
          | Pending => r.1 = Pending ∧ games r.2 = games w
          end) ∧
  (∀ (w : World SpellingGame.t) c now_us rd,
     files w !! c = Some (Json j) →
     let r := GameManager.add_channel
                (λ j, SpellingGame_init cp utc_offset (Some j) now_us rd) c w in
     channels r.2 = channels w ++ [c] ∧ files r.2 = files w ∧
     if json_truthy j then r.1 = Raised TypeError ∧ games r.2 = games w
     else match SpellingGame_init cp utc_offset None now_us rd with
          | Returned g => r.1 = Returned () ∧ games r.2 = <[c := Some g]> (games w)
          | Raised e => r.1 = Raised e ∧ games r.2 = games w
          | Pending => r.1 = Pending ∧ games r.2 = games w
          end).
Proof.
  intros Hno. split.
  - intros w c draws Hfile. cbv zeta. unfold GameManager.add_channel. rewrite Hfile.
    assert (WordleGame_init cp (Some j) draws
            = if json_truthy j then Raised TypeError else WordleGame_init cp None draws)
      as ->.
    { destruct j as [|z|s|l|fs]; try done. by destruct (Hno fs). }
    destruct (json_truthy j); [done|].
    by destruct (WordleGame_init cp None draws).
  - intros w c now_us rd Hfile. cbv zeta. unfold GameManager.add_channel. rewrite Hfile.
    assert (SpellingGame_init cp utc_offset (Some j) now_us rd
            = if json_truthy j then Raised TypeError
              else SpellingGame_init cp utc_offset None now_us rd) as ->.
    { destruct j as [|z|s|l|fs]; try done. by destruct (Hno fs). }
    destruct (json_truthy j); [done|].
    by destruct (SpellingGame_init cp utc_offset None now_us rd).
Qed.

Lemma snapshot_not_an_object_witness :
  let w : World WordleGame.t :=
    {| channels := []; games := ∅; files := {[1 := Json (JList [JInt 1])]};
       previousgame := ∅; sent := [] |} in
  let r := GameManager.add_channel
             (λ j, WordleGame_init wordle_corpus (Some j) []) 1 w in
  channels r.2 = channels w ++ [1] ∧ files r.2 = files w ∧
  r.1 = Raised TypeError ∧ games r.2 = games w.
Proof.
  intros w.
  refine (proj1 (snapshot_not_an_object wordle_corpus 0 (JList [JInt 1]) _) w 1 [] _).
  - intros fs. discriminate.
  - vm_compute. reflexivity.
Defined.

(** X30. The buttons outlive the registry.  Under a quiz message in a
    channel for which the cog holds no last word (a channel it did not
    register at its start), the wrong button is turned down as usual, but the
    right button is confirmed and then [pose_question] fails with [KeyError]
    on [self.last_word[channel_id]]: no new question is posed. *)
Theorem softsign_unregistered_channel
    (masculine_nouns feminine_nouns common : list pystr)
    (r : nat) (c : Z) (w : pystr) (self : SoftSign.t) :
  SoftSign.last_word self !! c = None →
  w ≠ [] →
  (w ∈ masculine_nouns ∨ w ∈ feminine_nouns) →
  let gm := bool_decide (w ∉ feminine_nouns) in
  SoftSign.guess masculine_nouns feminine_nouns common r c w gm self
  = ([SoftSign.Correct w gm], Raise KeyError) ∧
  SoftSign.guess masculine_nouns feminine_nouns common r c w (negb gm) self
  = ([SoftSign.Incorrect], Ok self).
Proof.
  intros Hlast Hw Hlists gm.
  rewrite !(guess_cases_soft masculine_nouns feminine_nouns common) by done.
  fold gm. rewrite decide_True by done.
  rewrite decide_False by (by destruct gm).
  split; [|done].
  unfold SoftSign.pose_question, SoftSign.stale.
  destruct w as [|x w]; [done|]. rewrite Hlast. done.
Qed.

Lemma softsign_unregistered_channel_witness :
  let gm := bool_decide (noch ∉ [noch]) in
  SoftSign.guess [den] [noch] [den; noch] 0 4 noch gm quiz_unregistered
  = ([SoftSign.Correct noch gm], Raise KeyError) ∧
  SoftSign.guess [den] [noch] [den; noch] 0 4 noch (negb gm) quiz_unregistered
  = ([SoftSign.Incorrect], Ok quiz_unregistered).
Proof.
  apply (softsign_unregistered_channel [den] [noch] [den; noch] 0 4 noch
           quiz_unregistered).
  - reflexivity.
  - discriminate.
  - right. apply list_elem_of_here.
Defined.
